(** * calendar-for-daily-notes: the title cache, the structured-output parser,
      the colour tags and the custom titles

    A shallow embedding of
      - [src/ollama/cache.ts]   (sanitize / upsert / prune of the title cache),
      - [src/ollama/title.ts]   (front-matter stripping, preparation of the
                                 note, the prompt, word and description
                                 sanitizers, [parseDailyTitleParts], the
                                 label),
      - [listItemColorTags.ts]  (colour normalisation and tag sanitizer),
      - [customListTitles.ts]   (normalisation, label and sanitizer of the
                                 custom titles),
      - [getCachedOllamaTitle] of the list view ([Calendar.svelte]),
    followed by the properties of the specification that concern them and
    by further properties of the code.

    Conventions of the embedding.
      - A JavaScript string is a list of code units.  The development covers
        the strings whose code units lie in U+0000..U+00FF, so a code unit is
        an [ascii]; the character classes of the regular expressions
        ([\s], [\d], [\p{L}], [\p{N}], [.]) are written out exactly on that
        range.
      - A JavaScript number is NaN, one of the two infinities, or a finite
        value; the finite values covered are the integers (time stamps in
        milliseconds, entry counts), held in [Z].
      - A JavaScript object is the list of its own enumerable properties in
        the order in which [Object.keys] / [Object.entries] enumerate them
        (array indices first, in ascending order, then the other keys in
        order of creation); a spread copy [{ ...o }] enumerates like [o].
        An assignment [o[k] = v] defines or updates the own property [k]
        ([obj_set]), except under the key [__proto__], where it sets the
        prototype and defines no property ([obj_assign]).  The difference
        shows in [sanitizeOllamaTitleCache], whose keys are not validated;
        the two other sanitizers store only under keys of a grammar, and
        the object literal of [upsertOllamaTitleCacheEntry] defines its
        computed key as an own property, whatever the key.
      - Where a property is about object identity, objects live in a heap
        and are denoted by locations ([Module HeapCache]); the functions on
        the heap are shown to compute the functions on values. *)

From Stdlib Require Import ZArith Lia Ascii String DecimalString.
From stdpp Require Import base option list strings sorting.

Local Open Scope Z_scope.
Set Warnings "-register-all".

(* ===================================================================== *)
(** * Strings *)
(* ===================================================================== *)

Module JsString.

(** A string is the list of its code units. *)
Abbreviation jstring := (list ascii).

(** String literals. *)
Definition js (s : string) : jstring := list_ascii_of_string s.

Definition code (c : ascii) : N := N_of_ascii c.

Definition in_range (lo hi : N) (c : ascii) : bool :=
  ((lo <=? code c) && (code c <=? hi))%N.

Definition is_code (n : N) (c : ascii) : bool := (code c =? n)%N.

(** [\s] of a regular expression and the characters removed by
    [String.prototype.trim]: TAB, LF, VT, FF, CR, SPACE and NO-BREAK SPACE
    (the only white space and line terminators below U+0100). *)
Definition is_space (c : ascii) : bool :=
  in_range 9 13 c || is_code 32 c || is_code 160 c.

(** The class [[\r\n\t]]. *)
Definition is_crlf_tab (c : ascii) : bool :=
  is_code 13 c || is_code 10 c || is_code 9 c.

(** [\d]. *)
Definition is_digit (c : ascii) : bool := in_range 48 57 c.

(** [[0-9a-fA-F]]. *)
Definition is_hex_digit (c : ascii) : bool :=
  in_range 48 57 c || in_range 97 102 c || in_range 65 70 c.

(** [[\p{L}\p{N}]] below U+0100: the ASCII letters and digits, the
    ordinal indicators, the micro sign, the superscript digits, the vulgar
    fractions and the accented letters (all of U+00C0..U+00FF except the
    multiplication and division signs). *)
Definition is_letter_or_number (c : ascii) : bool :=
  in_range 48 57 c || in_range 65 90 c || in_range 97 122 c
  || is_code 170 c || is_code 178 c || is_code 179 c || is_code 181 c
  || is_code 185 c || is_code 186 c || in_range 188 190 c
  || in_range 192 214 c || in_range 216 246 c || in_range 248 255 c.

(** [[.!?]]. *)
Definition is_terminal_punct (c : ascii) : bool :=
  is_code 46 c || is_code 33 c || is_code 63 c.

(** [.] of a regular expression without the [s] flag: anything but a line
    terminator. *)
Definition is_dot (c : ascii) : bool :=
  negb (is_code 10 c || is_code 13 c).

Definition space : ascii := ascii_of_N 32.
Definition newline : ascii := ascii_of_N 10.

Definition ascii_eqb (a b : ascii) : bool := (code a =? code b)%N.

(** Removes the longest prefix whose characters satisfy [p]. *)
Fixpoint drop_while (p : ascii -> bool) (s : jstring) : jstring :=
  match s with
  | [] => []
  | c :: s' => if p c then drop_while p s' else s
  end.

(** The longest prefix whose characters satisfy [p]. *)
Fixpoint take_while (p : ascii -> bool) (s : jstring) : jstring :=
  match s with
  | [] => []
  | c :: s' => if p c then c :: take_while p s' else []
  end.

(** Removes the longest suffix whose characters satisfy [p]. *)
Definition drop_while_end (p : ascii -> bool) (s : jstring) : jstring :=
  rev (drop_while p (rev s)).

(** [s.trim()]. *)
Definition trim (s : jstring) : jstring :=
  drop_while_end is_space (drop_while is_space s).

(** [s.replace(/[C]+/g, " ")] for a character class [C] given by [p]:
    every maximal run of [p]-characters becomes one space. *)
Fixpoint replace_runs_from (p : ascii -> bool) (in_run : bool) (s : jstring)
  : jstring :=
  match s with
  | [] => []
  | c :: s' =>
      if p c then
        if in_run then replace_runs_from p true s'
        else space :: replace_runs_from p true s'
      else c :: replace_runs_from p false s'
  end.

Definition replace_runs (p : ascii -> bool) (s : jstring) : jstring :=
  replace_runs_from p false s.

(** [s.split(/\r?\n/)]: the separators are the line feeds, each together
    with the carriage return that immediately precedes it, if any. *)
Definition starts_with_lf (s : jstring) : bool :=
  match s with
  | c :: _ => is_code 10 c
  | [] => false
  end.

Fixpoint split_lines (s : jstring) : list jstring :=
  match s with
  | [] => [[]]
  | c :: s' =>
      if is_code 10 c then [] :: split_lines s'
      else if is_code 13 c && starts_with_lf s' then split_lines s'
      else match split_lines s' with
           | l :: ls => (c :: l) :: ls
           | [] => [[c]]
           end
  end.

(** [lines.join(sep)]. *)
Fixpoint join (sep : jstring) (ls : list jstring) : jstring :=
  match ls with
  | [] => []
  | [l] => l
  | l :: ls' => l ++ sep ++ join sep ls'
  end.

(** [s === t] on strings. *)
Definition jstring_eqb (s t : jstring) : bool := bool_decide (s = t).

(** Truthiness of a string: [!s] holds exactly of the empty string. *)
Definition is_empty (s : jstring) : bool :=
  match s with
  | [] => true
  | _ => false
  end.

(** [s.toLowerCase()] below U+0100: the ASCII capitals and the accented
    capitals U+00C0..U+00DE (the multiplication sign apart) move up by 32. *)
Definition to_lower_char (c : ascii) : ascii :=
  if in_range 65 90 c || in_range 192 214 c || in_range 216 222 c
  then ascii_of_N (code c + 32)
  else c.

Definition toLowerCase (s : jstring) : jstring := map to_lower_char s.

(** Decimal numeral of a natural number, as [String(n)] prints it. *)
Definition string_of_nat (n : nat) : jstring :=
  js (NilEmpty.string_of_uint (Nat.to_uint n)).

End JsString.

Export JsString.

(* ===================================================================== *)
(** * Numbers, values and objects *)
(* ===================================================================== *)

Module Js.

(** A number: NaN, an infinity, or a finite (integer) value. *)
Inductive JsNumber : Type :=
| NaN
| PosInfinity
| NegInfinity
| Finite (z : Z).

(** [Number.isFinite(n)]. *)
Definition isFinite (n : JsNumber) : bool :=
  match n with
  | Finite _ => true
  | _ => false
  end.

(** [!n]: zero and NaN are the falsy numbers. *)
Definition num_falsy (n : JsNumber) : bool :=
  match n with
  | NaN => true
  | Finite z => z =? 0
  | _ => false
  end.

(** [n <= 0] and [n < 0]; a comparison with NaN is false. *)
Definition num_le_zero (n : JsNumber) : bool :=
  match n with
  | NaN => false
  | PosInfinity => false
  | NegInfinity => true
  | Finite z => z <=? 0
  end.

Definition num_lt_zero (n : JsNumber) : bool :=
  match n with
  | NaN => false
  | PosInfinity => false
  | NegInfinity => true
  | Finite z => z <? 0
  end.

(** [len <= n] for an array length [len]. *)
Definition length_le_num (len : nat) (n : JsNumber) : bool :=
  match n with
  | NaN => false
  | PosInfinity => true
  | NegInfinity => false
  | Finite z => Z.of_nat len <=? z
  end.

(** The end index that [xs.slice(0, Math.max(0, len - n))] uses, for an
    array length [len]: the difference clamped below by 0 (and, by [slice],
    above by the length of the array). *)
Definition slice_end (len : nat) (n : JsNumber) : nat :=
  match n with
  | NaN => 0
  | PosInfinity => 0
  | NegInfinity => len
  | Finite z => Z.to_nat (Z.max 0 (Z.of_nat len - z))
  end.

(** [n > 0]. *)
Definition num_gt_zero (n : JsNumber) : bool :=
  match n with
  | NaN => false
  | PosInfinity => true
  | NegInfinity => false
  | Finite z => 0 <? z
  end.

(** [a === b] on numbers: NaN is equal to nothing. *)
Definition strict_eq_num (a b : JsNumber) : bool :=
  match a, b with
  | Finite x, Finite y => x =? y
  | PosInfinity, PosInfinity => true
  | NegInfinity, NegInfinity => true
  | _, _ => false
  end.

(** [len > n] for the length [len] of a string. *)
Definition length_gt_num (len : nat) (n : JsNumber) : bool :=
  match n with
  | NaN => false
  | PosInfinity => false
  | NegInfinity => true
  | Finite z => z <? Z.of_nat len
  end.

(** [s.slice(0, n)]: NaN counts as 0, a negative end counts from the end of
    the string. *)
Definition slice_to {A} (n : JsNumber) (s : list A) : list A :=
  match n with
  | NaN => []
  | PosInfinity => s
  | NegInfinity => []
  | Finite z =>
      if z <? 0 then take (length s - Z.to_nat (- z)) s
      else take (Z.to_nat z) s
  end.

(** A value of type [unknown], as [JSON.parse] or a caller hands it over. *)
Inductive JsValue : Type :=
| JUndefined
| JNull
| JBool (b : bool)
| JNum (n : JsNumber)
| JStr (s : jstring)
| JArr (items : list JsValue)
| JObj (props : list (jstring * JsValue)).

(** [!value || typeof value !== "object"] is false exactly of the arrays and
    the (non-null) objects. *)
Definition is_object (v : JsValue) : bool :=
  match v with
  | JArr _ | JObj _ => true
  | _ => false
  end.

(** ** Objects as ordered property lists *)

Section Objects.
Context {V : Type}.

(** [Object.keys(o)]. *)
Definition obj_keys (o : list (jstring * V)) : list jstring := map fst o.

(** [o[k]], [None] standing for [undefined] (no such own property). *)
Fixpoint obj_get (k : jstring) (o : list (jstring * V)) : option V :=
  match o with
  | [] => None
  | (k', v) :: o' => if jstring_eqb k' k then Some v else obj_get k o'
  end.

Definition obj_has (k : jstring) (o : list (jstring * V)) : bool :=
  match obj_get k o with
  | Some _ => true
  | None => false
  end.

(** Assignment to a property that exists: the value changes, the position
    in the enumeration order does not. *)
Fixpoint obj_replace (k : jstring) (v : V) (o : list (jstring * V))
  : list (jstring * V) :=
  match o with
  | [] => []
  | (k', v') :: o' =>
      if jstring_eqb k' k then (k', v) :: o'
      else (k', v') :: obj_replace k v o'
  end.

End Objects.

(** An array index is the canonical decimal numeral of an integer below
    [2^32 - 1]: ["0"], or digits that do not start with ["0"]. *)
Definition digit_value (c : ascii) : N := (code c - 48)%N.

Definition numeral_value (s : jstring) : N :=
  fold_left (fun acc c => (10 * acc + digit_value c)%N) s 0%N.

Definition array_index (k : jstring) : option N :=
  match k with
  | [] => None
  | c :: rest =>
      if forallb is_digit k
         && (negb (is_code 48 c) || is_empty rest)
         && (numeral_value k <? 4294967295)%N
      then Some (numeral_value k)
      else None
  end.

(** [key_precedes k1 k2]: in the enumeration order of an object, a property
    created under [k1] stands before an existing property [k2] exactly when
    [k1] is an array index and [k2] is a larger one or no index at all
    (array indices come first, in ascending order; the other keys follow
    in order of creation). *)
Definition key_precedes (k1 k2 : jstring) : bool :=
  match array_index k1, array_index k2 with
  | Some a, Some b => (a <? b)%N
  | Some _, None => true
  | None, _ => false
  end.

Section ObjectUpdate.
Context {V : Type}.

(** Creation of the property [k]: it is placed before the first property
    that it precedes, at the end if there is none. *)
Fixpoint obj_create (k : jstring) (v : V) (o : list (jstring * V))
  : list (jstring * V) :=
  match o with
  | [] => [(k, v)]
  | (k', v') :: o' =>
      if key_precedes k k' then (k, v) :: (k', v') :: o'
      else (k', v') :: obj_create k v o'
  end.

(** The property [k] of [o] becomes [v]: it is updated when [o] has it and
    created otherwise.  This is [{ ...o, [k]: v }], and [o[k] = v] for
    every key but [__proto__]. *)
Definition obj_set (k : jstring) (v : V) (o : list (jstring * V))
  : list (jstring * V) :=
  if obj_has k o then obj_replace k v o else obj_create k v o.

(** [o[k] = v] on an object [o] whose prototype is [Object.prototype].
    Under the key [__proto__], when [o] has no own property of that name,
    the assignment reaches the setter that [Object.prototype] has for it:
    [v] becomes the prototype of [o] (when it is an object) and no property
    is defined, so the own properties of [o] stay as they are. *)
Definition obj_assign (k : jstring) (v : V) (o : list (jstring * V))
  : list (jstring * V) :=
  if jstring_eqb k (js "__proto__") && negb (obj_has k o) then o
  else obj_set k v o.

(** [delete o[k]]. *)
Definition obj_delete (k : jstring) (o : list (jstring * V))
  : list (jstring * V) :=
  filter (fun kv => kv.1 <> k) o.

(** An object has each key once. *)
Definition obj_wf (o : list (jstring * V)) : Prop := NoDup (obj_keys o).

End ObjectUpdate.

(** [Object.entries(value)] of an array or an object: an array enumerates
    its indices. *)
Definition array_entries (items : list JsValue) : list (jstring * JsValue) :=
  imap (fun i x => (string_of_nat i, x)) items.

Definition js_entries (v : JsValue) : list (jstring * JsValue) :=
  match v with
  | JObj props => props
  | JArr items => array_entries items
  | _ => []
  end.

(** [value[name]] for a property name that no array has and no object
    inherits ([keywords], [description], [title], [mtime], [lastUsed]): an
    own property of an object, [undefined] otherwise. *)
Definition js_get (v : JsValue) (name : jstring) : JsValue :=
  match v with
  | JObj props => default JUndefined (obj_get name props)
  | _ => JUndefined
  end.

End Js.

Export Js.

(* ===================================================================== *)
(** * [src/ollama/title.ts] *)
(* ===================================================================== *)

Module Title.

Record DailyTitleParts : Type := mkDailyTitleParts {
  keywords : list jstring;
  description : jstring;
}.

(** The fence of a front-matter block. *)
Definition fence : jstring := js "---".

(** [line.trim() === "---"]. *)
Definition is_fence_line (line : jstring) : bool :=
  jstring_eqb (trim line) fence.

(** The loop [for (let i = 1; ...)] of [stripYamlFrontmatter], run on the
    lines from index 1 on: at the first fence line, the lines behind it
    ([lines.slice(i + 1)]); [None] when the loop runs to its end. *)
Fixpoint after_closing_fence (ls : list jstring) : option (list jstring) :=
  match ls with
  | [] => None
  | l :: ls' => if is_fence_line l then Some ls' else after_closing_fence ls'
  end.

Definition stripYamlFrontmatter (text : jstring) : jstring :=
  if is_empty text then []
  else
    let lines := split_lines text in
    if (length lines <? 3)%nat || negb (is_fence_line (nth 0 lines []))
    then text
    else
      match after_closing_fence (tail lines) with
      | Some rest => join [newline] rest
      | None => text
      end.

(** The class [[^\p{L}\p{N}]]. *)
Definition not_letter_or_number (c : ascii) : bool :=
  negb (is_letter_or_number c).

(** [s.split(" ")[0]]: the segment in front of the first space (the whole
    string when it has no space; [split] never returns an empty array, so
    the [?? ""] of the source is never taken). *)
Definition first_segment (s : jstring) : jstring :=
  take_while (fun c => negb (is_code 32 c)) s.

Definition sanitizeWord (word : jstring) : jstring :=
  let cleaned :=
    replace_runs is_space
      (drop_while_end not_letter_or_number
         (drop_while not_letter_or_number
            (trim (replace_runs is_crlf_tab word)))) in
  first_segment cleaned.

(** [s.replace(/[.!?]{2,}$/g, ".")]: the run of terminal punctuation at the
    end of [s], when it has two characters or more, becomes one period. *)
Definition collapse_terminal_punct (s : jstring) : jstring :=
  let run := take_while is_terminal_punct (rev s) in
  if (2 <=? length run)%nat
  then drop_while_end is_terminal_punct s ++ js "."
  else s.

Definition MAX : nat := 120.

Definition sanitizeDescription (desc : jstring) : jstring :=
  let s := trim (replace_runs is_crlf_tab desc) in
  let s := replace_runs is_space s in
  let s := if (MAX <? length s)%nat then trim (take MAX s) else s in
  collapse_terminal_punct s.

(** [rawKeywords.map(k => typeof k === "string" ? sanitizeWord(k) : "")
      .filter(Boolean)]. *)
Definition keyword_of (k : JsValue) : jstring :=
  match k with
  | JStr s => sanitizeWord s
  | _ => []
  end.

Definition surviving_words (rawKeywords : list JsValue) : list jstring :=
  filter (fun w => is_empty w = false) (map keyword_of rawKeywords).

(** [None] is the [null] of the source. *)
Definition parseDailyTitleParts (value : JsValue) : option DailyTitleParts :=
  if negb (is_object value) then None
  else
    let rawKeywords := js_get value (js "keywords") in
    let rawDescription := js_get value (js "description") in
    match rawKeywords, rawDescription with
    | JArr items, JStr desc =>
        let words := surviving_words items in
        if (length words <? 3)%nat then None
        else
          let keywords := take 3 words in
          let description := sanitizeDescription desc in
          if is_empty description then None
          else Some (mkDailyTitleParts keywords description)
    | _, _ => None
    end.

Definition prepareNoteTextForOllama (text : jstring) (maxChars : JsNumber)
  : jstring :=
  let stripped := stripYamlFrontmatter text in
  let collapsed := trim (replace_runs is_space stripped) in
  if negb (isFinite maxChars) || num_le_zero maxChars then collapsed
  else if length_gt_num (length collapsed) maxChars
       then slice_to maxChars collapsed
       else collapsed.

Definition buildDailyTitlePrompt (dateStr noteText : jstring) : jstring :=
  let note := noteText in
  join [newline]
    [ js "You are generating a short label for an Obsidian daily note list view.";
      js "Return ONLY valid JSON that matches the provided schema.";
      js "Rules:";
      js "- keywords: exactly 3 single words, lowercase if reasonable, no punctuation.";
      js "- description: exactly 1 short sentence describing the note. Keep it under ~120 characters.";
      js "- Do not mention 'Obsidian', 'note', or the date in the description.";
      [];
      js "DATE: " ++ dateStr;
      js "NOTE CONTENT:";
      note ].

Definition formatDailyTitleLabel (dateStr : jstring) (parts : DailyTitleParts)
  : jstring :=
  dateStr ++ js " - " ++ join (js " ") (keywords parts) ++ js " - "
  ++ description parts.

End Title.

Export Title.

(* ===================================================================== *)
(** * [src/ollama/cache.ts] *)
(* ===================================================================== *)

Module Cache.

Record OllamaTitleCacheEntry : Type := mkEntry {
  mtime : JsNumber;
  title : jstring;
  lastUsed : option JsNumber;   (* [None]: missing or [undefined] *)
}.

Abbreviation OllamaTitleCache := (list (jstring * OllamaTitleCacheEntry)).

(** What [typeof x === "string"] and [typeof x === "number"] see of the
    value of a property. *)
Inductive Field : Type :=
| FString (s : jstring)
| FNumber (n : JsNumber)
| FOther.

Definition field_of (v : JsValue) : Field :=
  match v with
  | JStr s => FString s
  | JNum n => FNumber n
  | _ => FOther
  end.

(** Lines 23 to 41 of [sanitizeOllamaTitleCache], on the three properties
    read from a raw entry: the checks of [title] and [mtime], and the entry
    that is stored. *)
Definition entry_of_fields (f_title f_mtime f_lastUsed : Field)
  : option OllamaTitleCacheEntry :=
  match f_title with
  | FString t =>
      if is_empty (trim t) then None
      else
        let mtime := match f_mtime with FNumber n => n | _ => NaN end in
        if negb (isFinite mtime) || num_lt_zero mtime then None
        else
          let lastUsed :=
            match f_lastUsed with
            | FNumber n => if isFinite n then Some n else None
            | _ => None
            end in
          Some (mkEntry mtime t lastUsed)
  | _ => None
  end.

(** The body of the loop for one raw value: [None] is a [continue]. *)
Definition sanitizeEntry (raw : JsValue) : option OllamaTitleCacheEntry :=
  if negb (is_object raw) then None
  else entry_of_fields (field_of (js_get raw (js "title")))
                       (field_of (js_get raw (js "mtime")))
                       (field_of (js_get raw (js "lastUsed"))).

Definition sanitize_step (out : OllamaTitleCache) (kv : jstring * JsValue)
  : OllamaTitleCache :=
  match sanitizeEntry kv.2 with
  | Some e => obj_assign kv.1 e out
  | None => out
  end.

Definition sanitizeOllamaTitleCache (value : JsValue) : OllamaTitleCache :=
  if negb (is_object value) then []
  else fold_left sanitize_step (js_entries value) [].

(** The sort key of line 86: the [lastUsed] of the entry when it is a finite
    number, 0 otherwise. *)
Definition sort_key_of (lu : option JsNumber) : Z :=
  match lu with
  | Some (Finite z) => z
  | _ => 0
  end.

Definition effectiveLastUsed (e : option OllamaTitleCacheEntry) : Z :=
  match e with
  | Some e => sort_key_of (lastUsed e)
  | None => 0
  end.

(** [sortable.sort((a, b) => a.lastUsed - b.lastUsed)]: the sort is stable,
    elements of equal [lastUsed] keep their order. *)
Fixpoint insert_by_lastUsed (x : jstring * Z) (l : list (jstring * Z))
  : list (jstring * Z) :=
  match l with
  | [] => [x]
  | y :: l' => if x.2 <=? y.2 then x :: l else y :: insert_by_lastUsed x l'
  end.

Definition sort_by_lastUsed (l : list (jstring * Z)) : list (jstring * Z) :=
  foldr insert_by_lastUsed [] l.

(** [maxEntries] in the tests and the arithmetic of [pruneOllamaTitleCache]:
    [undefined] is falsy, compares false and subtracts to NaN, as NaN does. *)
Definition max_of (maxEntries : option JsNumber) : JsNumber :=
  default NaN maxEntries.

Definition pruneOllamaTitleCache (cache : OllamaTitleCache)
    (maxEntries : option JsNumber) : OllamaTitleCache :=
  let max := max_of maxEntries in
  if num_falsy max || num_le_zero max then cache
  else
    let keys := obj_keys cache in
    if length_le_num (length keys) max then cache
    else
      let sortable :=
        map (fun k => (k, effectiveLastUsed (obj_get k cache))) keys in
      let sorted := sort_by_lastUsed sortable in
      let toDelete := take (slice_end (length keys) max) sorted in
      if (length toDelete =? 0)%nat then cache
      else
        (* [next = { ...cache }] enumerates like [cache] *)
        fold_left (fun next kz => obj_delete kz.1 next) toDelete cache.

Record UpsertArgs : Type := mkUpsertArgs {
  cache : option OllamaTitleCache;    (* [None]: null or undefined *)
  filePath : jstring;
  entry_mtime : JsNumber;             (* [entry.mtime] *)
  entry_title : jstring;              (* [entry.title] *)
  maxEntries : option JsNumber;
  nowMs : option JsNumber;
}.

(** [dateNow] is the value that [Date.now()] returns at the call. *)
Definition upsertOllamaTitleCacheEntry (dateNow : JsNumber) (args : UpsertArgs)
  : OllamaTitleCache :=
  let now := default dateNow (nowMs args) in
  let next :=
    obj_set (filePath args)
            (mkEntry (entry_mtime args) (entry_title args) (Some now))
            (default [] (cache args)) in
  pruneOllamaTitleCache next (maxEntries args).

End Cache.

Export Cache.

(* ===================================================================== *)
(** * [listItemColorTags.ts] *)
(* ===================================================================== *)

Module ColorTags.

Abbreviation ListItemColorTags := (list (jstring * jstring)).

(** A string matches a sequence of character classes when it has one
    character per class, each in its class. *)
Fixpoint match_classes (classes : list (ascii -> bool)) (s : jstring) : bool :=
  match classes, s with
  | [], [] => true
  | p :: classes', c :: s' => p c && match_classes classes' s'
  | _, _ => false
  end.

Definition lit (s : string) : list (ascii -> bool) :=
  map (fun c => ascii_eqb c) (js s).

(** [/^day:\d{4}-\d{2}-\d{2}$/]. *)
Definition DAY_KEY_RE (s : jstring) : bool :=
  match_classes
    (lit "day:" ++ replicate 4 is_digit ++ lit "-" ++ replicate 2 is_digit
       ++ lit "-" ++ replicate 2 is_digit) s.

(** [/^file:.+$/]: the prefix, then one character or more up to the end of
    the string, none of them a line terminator. *)
Definition FILE_KEY_RE (s : jstring) : bool :=
  match_classes (lit "file:") (take 5 s)
  && negb (is_empty (drop 5 s))
  && forallb is_dot (drop 5 s).

(** [/^#(?:[0-9a-fA-F]{3}|[0-9a-fA-F]{6})$/]. *)
Definition HEX_COLOR_RE (s : jstring) : bool :=
  match_classes (lit "#" ++ replicate 3 is_hex_digit) s
  || match_classes (lit "#" ++ replicate 6 is_hex_digit) s.

(** [hex3[i]] of a string that has the index [i]. *)
Definition char_at (s : jstring) (i : nat) : jstring :=
  match s !! i with
  | Some c => [c]
  | None => []
  end.

Definition expandHex3ToHex6 (hex3 : jstring) : jstring :=
  let r := char_at hex3 1 in
  let g := char_at hex3 2 in
  let b := char_at hex3 3 in
  js "#" ++ r ++ r ++ g ++ g ++ b ++ b.

Definition normalizeListItemColor (input : jstring) : jstring :=
  let s := trim input in
  if negb (HEX_COLOR_RE s) then []
  else
    let normalized := if (length s =? 4)%nat then expandHex3ToHex6 s else s in
    toLowerCase normalized.

(** The body of the loop for one property: the key and the colour that are
    stored, [None] for a [continue]. *)
Definition sanitizeTag (rawKey : jstring) (rawVal : JsValue)
  : option (jstring * jstring) :=
  let key := trim rawKey in
  if is_empty key then None
  else
    let isValidKey := DAY_KEY_RE key || FILE_KEY_RE key in
    if negb isValidKey then None
    else
      match rawVal with
      | JStr rawColor =>
          let color := normalizeListItemColor rawColor in
          if is_empty color then None else Some (key, color)
      | _ => None
      end.

Definition sanitizeTag_step (out : ListItemColorTags) (kv : jstring * JsValue)
  : ListItemColorTags :=
  match sanitizeTag kv.1 kv.2 with
  | Some (key, color) => obj_set key color out
  | None => out
  end.

Definition sanitizeListItemColorTags (value : JsValue) : ListItemColorTags :=
  if negb (is_object value) then []
  else fold_left sanitizeTag_step (js_entries value) [].

End ColorTags.

Export ColorTags.

(* ===================================================================== *)
(** * [customListTitles.ts] *)
(* ===================================================================== *)

Module CustomTitles.

Abbreviation CustomListTitles := (list (jstring * jstring)).

(** [/^\d{4}-\d{2}-\d{2}$/]. *)
Definition DATE_KEY_RE (s : jstring) : bool :=
  match_classes
    (replicate 4 is_digit ++ lit "-" ++ replicate 2 is_digit ++ lit "-"
       ++ replicate 2 is_digit) s.

Definition collapseWhitespace (s : jstring) : jstring :=
  trim (replace_runs is_space (replace_runs is_crlf_tab s)).

(** The class of [/^[\s\-<en dash><em dash>:|]+/] below U+0100: white space,
    the hyphen, the colon and the bar (the two dashes lie above). *)
Definition is_separator (c : ascii) : bool :=
  is_space c || is_code 45 c || is_code 58 c || is_code 124 c.

(** [s.startsWith(prefix)]. *)
Definition starts_with (prefix s : jstring) : bool :=
  jstring_eqb (take (length prefix) s) prefix.

(** [typeof args.maxLen === "number" && args.maxLen > 0 ? args.maxLen : 240]. *)
Definition effective_maxLen (maxLen : option JsNumber) : JsNumber :=
  match maxLen with
  | Some n => if num_gt_zero n then n else Finite 240
  | None => Finite 240
  end.

Definition normalizeCustomListTitleInput (dateStr input : jstring)
    (maxLen : option JsNumber) : jstring :=
  let maxLen := effective_maxLen maxLen in
  let s := collapseWhitespace input in
  if is_empty s then []
  else
    (* If the user pasted the full label, strip the date prefix. *)
    let s :=
      if negb (is_empty dateStr) && starts_with dateStr s
      then trim (drop_while is_separator (drop (length dateStr) s))
      else s in
    if is_empty s then []
    else if length_gt_num (length s) maxLen then trim (slice_to maxLen s)
    else s.

Definition formatCustomListTitleLabel (dateStr suffix : jstring) : jstring :=
  let cleanSuffix := collapseWhitespace suffix in
  if is_empty cleanSuffix then dateStr
  else dateStr ++ js " - " ++ cleanSuffix.

(** The body of the loop for one property: the key and the suffix that are
    stored, [None] for a [continue]. *)
Definition sanitizeCustomTitle (rawKey : jstring) (rawVal : JsValue)
  : option (jstring * jstring) :=
  let key := trim rawKey in
  if is_empty key || negb (DATE_KEY_RE key) then None
  else
    match rawVal with
    | JStr raw =>
        let suffix := normalizeCustomListTitleInput key raw None in
        if is_empty suffix then None else Some (key, suffix)
    | _ => None
    end.

Definition sanitizeCustomTitle_step (out : CustomListTitles)
    (kv : jstring * JsValue) : CustomListTitles :=
  match sanitizeCustomTitle kv.1 kv.2 with
  | Some (key, suffix) => obj_set key suffix out
  | None => out
  end.

Definition sanitizeCustomListTitles (value : JsValue) : CustomListTitles :=
  if negb (is_object value) then []
  else fold_left sanitizeCustomTitle_step (js_entries value) [].

End CustomTitles.

Export CustomTitles.

(* ===================================================================== *)
(** * The readers of the title cache *)
(* ===================================================================== *)

Module ListView.

(** [getCachedOllamaTitle] of the list view, on the two fields of the list
    item that it reads: the title cached for the file, when it was generated
    for the modification time that the item has. *)
Definition getCachedOllamaTitle (item_filePath : jstring)
    (item_mtime : JsNumber) (enabled : bool)
    (cache : option OllamaTitleCache) : option jstring :=
  if negb enabled || is_empty item_filePath then None
  else
    let entry :=
      match cache with
      | Some c => obj_get item_filePath c
      | None => None
      end in
    match entry with
    | Some entry =>
        if strict_eq_num (mtime entry) item_mtime
           && negb (is_empty (title entry))
        then Some (title entry)
        else None
    | None => None
    end.

End ListView.

Export ListView.

(* ===================================================================== *)
(** * The cache operations on a heap of objects *)
(* ===================================================================== *)

(** The same three functions of [src/ollama/cache.ts], with the objects they
    receive, create and return held in a heap: a cache is a location, and so
    is each of its entries.  Creation of an object extends the heap;
    assignment to a property and [delete] overwrite the object at a
    location. *)

Module HeapCache.

Definition loc := nat.

Inductive Val : Type :=
| VUndefined
| VNull
| VBool (b : bool)
| VNum (n : JsNumber)
| VStr (s : jstring)
| VRef (l : loc).

(** An object of the heap: its properties in enumeration order. *)
Abbreviation HObject := (list (jstring * Val)).
Abbreviation Heap := (list HObject).

(** Computations that read and write the heap; [None] is the access to a
    location that holds no object. *)
Definition M (A : Type) : Type := Heap -> option (A * Heap).

Definition ret {A} (a : A) : M A := fun h => Some (a, h).

Definition bind {A B} (m : M A) (f : A -> M B) : M B :=
  fun h =>
    match m h with
    | Some (a, h') => f a h'
    | None => None
    end.

Notation "'do' x <- m ;; k" := (bind m (fun x => k))
  (at level 10, x name, m at level 99, k at level 200, only parsing).
Notation "'run' m ;; k" := (bind m (fun _ => k))
  (at level 10, m at level 99, k at level 200, only parsing).

(** A new object. *)
Definition alloc (o : HObject) : M loc :=
  fun h => Some (length h, h ++ [o]).

(** The properties of the object at [l]. *)
Definition load (l : loc) : M HObject :=
  fun h =>
    match h !! l with
    | Some o => Some (o, h)
    | None => None
    end.

(** In-place update of the object at [l]. *)
Definition store (l : loc) (o : HObject) : M unit :=
  fun h =>
    match h !! l with
    | Some _ => Some (tt, <[l := o]> h)
    | None => None
    end.

Fixpoint for_each {A} (f : A -> M unit) (l : list A) : M unit :=
  match l with
  | [] => ret tt
  | x :: l' => run f x ;; for_each f l'
  end.

Fixpoint map_m {A B} (f : A -> M B) (l : list A) : M (list B) :=
  match l with
  | [] => ret []
  | x :: l' => do y <- f x ;; do ys <- map_m f l' ;; ret (y :: ys)
  end.

Definition field_of_val (v : Val) : Field :=
  match v with
  | VStr s => FString s
  | VNum n => FNumber n
  | _ => FOther
  end.

(** [o.name], [undefined] when there is no such property. *)
Definition get_prop (o : HObject) (name : jstring) : Val :=
  default VUndefined (obj_get name o).

(** The object literal [{ mtime, title, lastUsed }]. *)
Definition entry_object (e : OllamaTitleCacheEntry) : HObject :=
  [ (js "mtime", VNum (mtime e));
    (js "title", VStr (title e));
    (js "lastUsed", match lastUsed e with
                    | Some n => VNum n
                    | None => VUndefined
                    end) ].

Definition sanitizeEntry (raw : Val) : M (option OllamaTitleCacheEntry) :=
  match raw with
  | VRef r =>
      do entry <- load r ;;
      ret (entry_of_fields (field_of_val (get_prop entry (js "title")))
                           (field_of_val (get_prop entry (js "mtime")))
                           (field_of_val (get_prop entry (js "lastUsed"))))
  | _ => ret None
  end.

Definition sanitize_step (out : loc) (kv : jstring * Val) : M unit :=
  do e <- sanitizeEntry kv.2 ;;
  match e with
  | Some e =>
      do r <- alloc (entry_object e) ;;
      do o <- load out ;;
      store out (obj_assign kv.1 (VRef r) o)
  | None => ret tt
  end.

Definition sanitizeOllamaTitleCache (value : Val) : M loc :=
  match value with
  | VRef l =>
      do obj <- load l ;;
      do out <- alloc [] ;;
      run for_each (sanitize_step out) obj ;;
      ret out
  | _ => alloc []
  end.

(** [cache[k]?.lastUsed], turned into the sort key of line 86. *)
Definition lastUsed_key (cache : HObject) (k : jstring) : M Z :=
  match obj_get k cache with
  | Some (VRef r) =>
      do entry <- load r ;;
      ret (match get_prop entry (js "lastUsed") with
           | VNum (Finite z) => z
           | _ => 0
           end)
  | _ => ret 0
  end.

Definition pruneOllamaTitleCache (cache : loc) (maxEntries : option JsNumber)
  : M loc :=
  let max := max_of maxEntries in
  if num_falsy max || num_le_zero max then ret cache
  else
    do o <- load cache ;;
    let keys := obj_keys o in
    if length_le_num (length keys) max then ret cache
    else
      do sortable <-
        map_m (fun k => do lu <- lastUsed_key o k ;; ret (k, lu)) keys ;;
      let sorted := sort_by_lastUsed sortable in
      let toDelete := take (slice_end (length keys) max) sorted in
      if (length toDelete =? 0)%nat then ret cache
      else
        do next <- alloc o ;;
        run for_each (fun kz : jstring * Z =>
                        do n <- load next ;; store next (obj_delete kz.1 n))
                     toDelete ;;
        ret next.

Record UpsertArgs : Type := mkUpsertArgs {
  cache : option loc;                 (* [None]: null or undefined *)
  filePath : jstring;
  entry_mtime : JsNumber;
  entry_title : jstring;
  maxEntries : option JsNumber;
  nowMs : option JsNumber;
}.

Definition upsertOllamaTitleCacheEntry (dateNow : JsNumber) (args : UpsertArgs)
  : M loc :=
  let now := default dateNow (nowMs args) in
  do base <- match cache args with
          | Some l => load l
          | None => ret []
          end ;;
  do e <- alloc (entry_object
                (mkEntry (entry_mtime args) (entry_title args) (Some now))) ;;
  do next <- alloc (obj_set (filePath args) (VRef e) base) ;;
  pruneOllamaTitleCache next (maxEntries args).

(** Every reference held in the heap, and [v] itself, denotes an object. *)
Definition val_ok (h : Heap) (v : Val) : Prop :=
  match v with
  | VRef l => (l < length h)%nat
  | _ => True
  end.

Definition closed (h : Heap) : Prop :=
  Forall (fun o : HObject => Forall (fun kv => val_ok h kv.2) o) h.

(** ** Reading a cache back from the heap *)

(** The typed view of an entry object. *)
Definition read_entry (o : HObject) : option OllamaTitleCacheEntry :=
  match get_prop o (js "mtime"), get_prop o (js "title") with
  | VNum m, VStr t =>
      Some (mkEntry m t
              match get_prop o (js "lastUsed") with
              | VNum n => Some n
              | _ => None
              end)
  | _, _ => None
  end.

Definition read_property (h : Heap) (kv : jstring * Val)
  : option (jstring * OllamaTitleCacheEntry) :=
  match kv.2 with
  | VRef r =>
      match h !! r with
      | Some o =>
          match read_entry o with
          | Some e => Some (kv.1, e)
          | None => None
          end
      | None => None
      end
  | _ => None
  end.

(** The cache that the object at [l] holds, when each of its properties
    refers to an entry object. *)
Definition read_cache (h : Heap) (l : loc) : option OllamaTitleCache :=
  match h !! l with
  | Some o => mapM (read_property h) o
  | None => None
  end.

End HeapCache.

(* ===================================================================== *)
(** * Vocabulary of the statements *)
(* ===================================================================== *)

(** The order in which [sort] leaves the elements. *)
Definition by_lastUsed (a b : jstring * Z) : Prop := a.2 <= b.2.

(** The keys that a pruning step deletes: the first [d] keys of the cache in
    the order of eviction. *)
Definition evicted (cache : OllamaTitleCache) (d : nat) : list jstring :=
  map fst
    (take d
       (sort_by_lastUsed
          (map (fun k => (k, effectiveLastUsed (obj_get k cache)))
               (obj_keys cache)))).

(** The cache of the first test of [cache.test.ts]. *)
Definition sample_cache : OllamaTitleCache :=
  [ (js "a", mkEntry (Finite 1) (js "A") (Some (Finite 10)));
    (js "b", mkEntry (Finite 1) (js "B") (Some (Finite 20)));
    (js "c", mkEntry (Finite 1) (js "C") (Some (Finite 30))) ].

(** A persisted cache in which one entry has no [lastUsed] and the other a
    negative one, and the cache that [sanitizeOllamaTitleCache] makes of it. *)
Definition negative_lastUsed_raw : JsValue :=
  JObj [ (js "a", JObj [ (js "mtime", JNum (Finite 1));
                         (js "title", JStr (js "A")) ]);
         (js "b", JObj [ (js "mtime", JNum (Finite 1));
                         (js "title", JStr (js "B"));
                         (js "lastUsed", JNum (Finite (-5))) ]) ].

Definition negative_lastUsed_cache : OllamaTitleCache :=
  [ (js "a", mkEntry (Finite 1) (js "A") None);
    (js "b", mkEntry (Finite 1) (js "B") (Some (Finite (-5)))) ].

(** The entry that an upsert writes under [filePath]. *)
Definition upserted_entry (dateNow : JsNumber) (args : UpsertArgs)
  : OllamaTitleCacheEntry :=
  mkEntry (entry_mtime args) (entry_title args)
          (Some (default dateNow (nowMs args))).

(** The mapping [next] of [upsertOllamaTitleCacheEntry], before pruning. *)
Definition upsert_next (dateNow : JsNumber) (args : UpsertArgs)
  : OllamaTitleCache :=
  obj_set (filePath args) (upserted_entry dateNow args)
          (default [] (cache args)).

(** An upsert whose time stamp is older than the entry already cached, with
    room for one entry only. *)
Definition stale_upsert : UpsertArgs :=
  mkUpsertArgs
    (Some [ (js "a", mkEntry (Finite 1) (js "A") (Some (Finite 100))) ])
    (js "b") (Finite 2) (js "B") (Some (Finite 1)) (Some (Finite 50)).

(** The upsert of the test of [cache.test.ts]. *)
Definition test_upsert : UpsertArgs :=
  mkUpsertArgs
    (Some [ (js "a", mkEntry (Finite 1) (js "A") (Some (Finite 10)));
            (js "b", mkEntry (Finite 1) (js "B") (Some (Finite 20))) ])
    (js "c.md") (Finite 2) (js "C") (Some (Finite 2)) (Some (Finite 100)).

(** The inputs of the tests of [title.test.ts]. *)
Definition two_keywords : JsValue :=
  JObj [ (js "keywords", JArr [JStr (js "a"); JStr (js "b")]);
         (js "description", JStr (js "ok")) ].

Definition line_feed : string := String (ascii_of_N 10) EmptyString.

Definition test_keywords : list JsValue :=
  [ JStr (js "Work,"); JStr (js ("Deep" ++ line_feed ++ "Focus"));
    JStr (js "planning!") ].

Definition test_description : jstring :=
  js ("Did a lot." ++ line_feed ++ "Newline!").

Definition test_parts : JsValue :=
  JObj [ (js "keywords", JArr test_keywords);
         (js "description", JStr test_description) ].

(** A loop that stores, for each element of a list, at most one property in
    an output object: [f] gives the key and the value, [None] for a
    [continue].  The loops of the two sanitizers have this form. *)
Definition collect_step {A V} (f : A -> option (jstring * V))
    (out : list (jstring * V)) (x : A) : list (jstring * V) :=
  match f x with
  | Some (k, v) => obj_set k v out
  | None => out
  end.

(** The value that such a loop leaves under [k]: the one of the last element
    that writes [k], [acc] when no element does. *)
Definition last_write {A V} (f : A -> option (jstring * V)) (k : jstring)
    (l : list A) (acc : option V) : option V :=
  fold_left (fun acc x =>
               match f x with
               | Some (k', v) => if decide (k' = k) then Some v else acc
               | None => acc
               end) l acc.

(** Keys in the order of enumeration of an object: no key precedes a key
    that stands before it. *)
Definition js_ordered (ks : list jstring) : Prop :=
  StronglySorted (fun k1 k2 => key_precedes k2 k1 = false) ks.

(** The persisted cache of the first test of [cache.test.ts]. *)
Definition test_raw_cache : JsValue :=
  JObj [ (js "ok", JObj [ (js "mtime", JNum (Finite 123));
                          (js "title", JStr (js "Hello")) ]);
         (js "bad1", JObj [ (js "mtime", JStr (js "nope"));
                            (js "title", JStr (js "x")) ]);
         (js "bad2", JObj [ (js "mtime", JNum (Finite 1));
                            (js "title", JStr []) ]);
         (js "bad3", JNull) ].

(** What an entry of a sanitized cache satisfies: a title that is not empty
    after trimming, a finite [mtime] that is not negative, and a [lastUsed]
    that is a finite number when it is there. *)
Definition entry_valid (e : OllamaTitleCacheEntry) : Prop :=
  trim (title e) <> []
  /\ (exists m, mtime e = Finite m /\ 0 <= m)
  /\ (lastUsed e = None \/ exists z, lastUsed e = Some (Finite z)).

(** The validation of a raw entry, in the words of the specification: the
    value is an object, its [title] is a string that is not empty after
    trimming, its [mtime] is a finite number that is not negative. *)
Definition raw_entry_valid (raw : JsValue) : Prop :=
  is_object raw = true
  /\ (exists t, js_get raw (js "title") = JStr t /\ trim t <> [])
  /\ (exists m, js_get raw (js "mtime") = JNum (Finite m) /\ 0 <= m).

(** [lastUsed] is carried through only if it is a finite number. *)
Definition carried_lastUsed (raw : JsValue) : option JsNumber :=
  match js_get raw (js "lastUsed") with
  | JNum (Finite z) => Some (Finite z)
  | _ => None
  end.

(** The loop of [sanitizeOllamaTitleCache] as a loop that fills an object:
    the property that is stored for a raw property, if any.  Nothing is
    stored under the key [__proto__], which the object under construction
    never has. *)
Definition cache_writer (kv : jstring * JsValue)
  : option (jstring * OllamaTitleCacheEntry) :=
  if jstring_eqb kv.1 (js "__proto__") then None
  else
    match sanitizeEntry kv.2 with
    | Some e => Some (kv.1, e)
    | None => None
    end.

(** A persisted cache with a valid entry under the key [__proto__], as
    [JSON.parse] makes it of [{"__proto__": {...}, "a": {...}}]. *)
Definition proto_key_raw : JsValue :=
  JObj [ (js "__proto__", JObj [ (js "mtime", JNum (Finite 1));
                                 (js "title", JStr (js "P")) ]);
         (js "a", JObj [ (js "mtime", JNum (Finite 2));
                         (js "title", JStr (js "A")) ]) ].

(** A sanitized cache seen as a plain map again: as the object that the
    function built, in which a missing [lastUsed] is a property of value
    [undefined], or, with [omit], as the object that comes back from
    storage, in which it is no property at all. *)
Definition entry_to_value (omit : bool) (e : OllamaTitleCacheEntry) : JsValue :=
  JObj ([ (js "mtime", JNum (mtime e)); (js "title", JStr (title e)) ]
        ++ match lastUsed e with
           | Some n => [ (js "lastUsed", JNum n) ]
           | None => if omit then [] else [ (js "lastUsed", JUndefined) ]
           end).

Definition cache_to_value (omit : bool) (c : OllamaTitleCache) : JsValue :=
  JObj (map (fun kv => (kv.1, entry_to_value omit kv.2)) c).

(** A persisted cache with a valid entry under the empty key. *)
Definition empty_key_raw : JsValue :=
  JObj [ ([], JObj [ (js "mtime", JNum (Finite 1));
                     (js "title", JStr (js "x")) ]) ].

(** The note of the first test of [title.test.ts]. *)
Definition test_note : jstring :=
  js ("---" ++ line_feed ++ "title: hello" ++ line_feed ++ "tags: [a]"
      ++ line_feed ++ "---" ++ line_feed ++ "# Heading" ++ line_feed
      ++ "Content").

(** A note whose first line is a fence with a space in front of it. *)
Definition padded_fence_note : jstring :=
  js (" ---" ++ line_feed ++ "a" ++ line_feed ++ "---" ++ line_feed ++ "b").

(** The loop of [sanitizeListItemColorTags] as a loop that fills an
    object. *)
Definition tag_writer (kv : jstring * JsValue) : option (jstring * jstring) :=
  sanitizeTag kv.1 kv.2.

(** The key grammar of the colour tags. *)
Definition valid_tag_key (key : jstring) : bool :=
  DAY_KEY_RE key || FILE_KEY_RE key.

(** The raw map of the test "trims keys and normalizes colors". *)
Definition padded_tag : JsValue :=
  JObj [ (js "  day:2025-12-15  ", JStr (js "#ABC")) ].

(** The same map with a second key that is the first one trimmed. *)
Definition colliding_tags : JsValue :=
  JObj [ (js "  day:2025-12-15  ", JStr (js "#ABC"));
         (js "day:2025-12-15", JStr (js "#000")) ].

(** The sort key that line 86 computes for the key [k] of the cache object
    [o], read from the heap [h]. *)
Definition heap_sort_key (h : HeapCache.Heap) (o : HeapCache.HObject)
    (k : jstring) : Z :=
  match obj_get k o with
  | Some (HeapCache.VRef r) =>
      match h !! r with
      | Some entry =>
          match HeapCache.get_prop entry (js "lastUsed") with
          | HeapCache.VNum (Finite z) => z
          | _ => 0
          end
      | None => 0
      end
  | _ => 0
  end.

(** The test that makes [pruneOllamaTitleCache] return its argument, on the
    number [n] of entries: [maxEntries] is absent, zero, NaN or negative, or
    it is not below [n]. *)
Definition nothing_to_prune (n : nat) (maxEntries : option JsNumber) : bool :=
  let max := max_of maxEntries in
  num_falsy max || num_le_zero max || length_le_num n max.

(** A heap with the three entries and the cache of the first pruning test
    of [cache.test.ts]; the cache is at location 3. *)
Definition test_heap : HeapCache.Heap :=
  [ HeapCache.entry_object (mkEntry (Finite 1) (js "A") (Some (Finite 10)));
    HeapCache.entry_object (mkEntry (Finite 1) (js "B") (Some (Finite 20)));
    HeapCache.entry_object (mkEntry (Finite 1) (js "C") (Some (Finite 30)));
    [ (js "a", HeapCache.VRef 0%nat); (js "b", HeapCache.VRef 1%nat);
      (js "c", HeapCache.VRef 2%nat) ] ].

(** A response whose first keyword is two words separated by a comma. *)
Definition punctuated_parts : JsValue :=
  JObj [ (js "keywords", JArr [ JStr (js "deep, focus"); JStr (js "work");
                                JStr (js "planning") ]);
         (js "description", JStr (js "ok")) ].

(** The cache object of [test_heap]. *)
Definition test_heap_cache : HeapCache.HObject :=
  [ (js "a", HeapCache.VRef 0%nat); (js "b", HeapCache.VRef 1%nat);
    (js "c", HeapCache.VRef 2%nat) ].

(** [s] does not start with a character of the class [p]. *)
Definition starts_outside (p : ascii -> bool) (s : jstring) : Prop :=
  match s with
  | [] => True
  | c :: _ => p c = false
  end.

(** [s] does not end with a character of the class [p]. *)
Definition ends_outside (p : ascii -> bool) (s : jstring) : Prop :=
  starts_outside p (rev s).

(** White space occurs in [s] only as single space characters: each white
    space character is U+0020 and is not followed by another one. *)
Fixpoint single_spaced (s : jstring) : Prop :=
  match s with
  | [] => True
  | c :: s' =>
      (is_space c = true -> c = space /\ starts_outside is_space s')
      /\ single_spaced s'
  end.

(** The number of characters of the class [p] at the end of [s]. *)
Definition trailing_run (p : ascii -> bool) (s : jstring) : nat :=
  length (take_while p (rev s)).

(** The part of the contract of a keyword that [sanitizeWord] meets: a
    non-empty token without white space that starts with a letter or a
    digit. *)
Definition keyword_shape (w : jstring) : Prop :=
  w <> []
  /\ Forall (fun c => is_space c = false) w
  /\ starts_outside not_letter_or_number w.

(** The contract of a description: one line, trimmed, white space
    collapsed, at most 120 characters, at most one terminal punctuation mark
    at the end. *)
Definition description_shape (d : jstring) : Prop :=
  (length d <= 120)%nat
  /\ trim d = d
  /\ single_spaced d
  /\ (trailing_run is_terminal_punct d < 2)%nat.

(** The elements of [sortable] that [pruneOllamaTitleCache] deletes, for
    the sort key [sort_key] of each key: [toDelete] of line 94. *)
Definition to_delete (sort_key : jstring -> Z) (keys : list jstring)
    (max : JsNumber) : list (jstring * Z) :=
  take (slice_end (length keys) max)
       (sort_by_lastUsed (map (fun k => (k, sort_key k)) keys)).

(** The heap object [o] holds the cache [c]: property by property, the same
    key, and a reference to an entry object that reads as the entry. *)
Definition holds_cache (h : HeapCache.Heap) (o : HeapCache.HObject)
    (c : OllamaTitleCache) : Prop :=
  Forall2 (fun kv ke => HeapCache.read_property h kv = Some ke) o c.

(** A value of the heap as a value of type [unknown], as deep as
    [sanitizeOllamaTitleCache] looks into it: the properties of the value,
    and the properties of each of them; an object further down is seen as
    an object without properties. *)
Definition shallow (v : HeapCache.Val) : JsValue :=
  match v with
  | HeapCache.VUndefined => JUndefined
  | HeapCache.VNull => JNull
  | HeapCache.VBool b => JBool b
  | HeapCache.VNum n => JNum n
  | HeapCache.VStr s => JStr s
  | HeapCache.VRef _ => JObj []
  end.

Definition reify_with (inner : HeapCache.Val -> JsValue) (h : HeapCache.Heap)
    (v : HeapCache.Val) : JsValue :=
  match v with
  | HeapCache.VRef l =>
      match h !! l with
      | Some o => JObj (map (fun kv => (kv.1, inner kv.2)) o)
      | None => JUndefined
      end
  | _ => shallow v
  end.

Definition reify_raw (h : HeapCache.Heap) (v : HeapCache.Val) : JsValue :=
  reify_with shallow h v.

Definition reify (h : HeapCache.Heap) (v : HeapCache.Val) : JsValue :=
  reify_with (reify_raw h) h v.

(** The references of [o] denote objects created after [out]. *)
Definition entries_above (out : HeapCache.loc) (o : HeapCache.HObject) : Prop :=
  Forall (fun kv : jstring * HeapCache.Val =>
            match kv.2 with
            | HeapCache.VRef r => (out < r)%nat
            | _ => True
            end) o.

(** The raw colour tags of the first sanitizer test of
    [listItemColorTags.test.ts]. *)
Definition test_tags : JsValue :=
  JObj [ (js "day:2025-12-15", JStr (js "#ff0000"));
         (js "file:foo/bar.md", JStr (js "#00ff00"));
         (js "bad:2025-12-15", JStr (js "#0000ff"));
         (js "file:", JStr (js "#0000ff"));
         (js "file:valid", JStr (js "not-a-color")) ].

(** The note of the test of [prepareNoteTextForOllama] in [title.test.ts]. *)
Definition test_note_to_prepare : jstring :=
  js ("---" ++ line_feed ++ "foo: bar" ++ line_feed ++ "---" ++ line_feed
      ++ "Hello" ++ line_feed ++ line_feed ++ "world"
      ++ String (ascii_of_N 9) (String (ascii_of_N 9) "!")).

(** The caches that the plugin keeps in its store: an object (each key
    once, keys in enumeration order) whose entries all satisfy what
    [sanitizeOllamaTitleCache] checks. *)
Definition cache_valid (c : OllamaTitleCache) : Prop :=
  obj_wf c /\ js_ordered (obj_keys c)
  /\ Forall (fun kv : jstring * OllamaTitleCacheEntry => entry_valid kv.2) c.

(** A string in the normal form of [collapseWhitespace]: white space only as
    single space characters, and none at either end. *)
Definition collapsed (s : jstring) : Prop :=
  single_spaced s /\ starts_outside is_space s /\ ends_outside is_space s.

(** A cache of two entries that were last used at the same time. *)
Definition tied_cache : OllamaTitleCache :=
  [ (js "b", mkEntry (Finite 1) (js "B") (Some (Finite 5)));
    (js "a", mkEntry (Finite 2) (js "A") (Some (Finite 5))) ].

(** [[0-9a-f]]. *)
Definition is_lower_hex_digit (c : ascii) : bool :=
  in_range 48 57 c || in_range 97 102 c.

(** The canonical form of a colour: [#rrggbb] in lower case. *)
Definition canonical_color (s : jstring) : bool :=
  match_classes (lit "#" ++ replicate 6 is_lower_hex_digit) s.

(** The colour tags as the plain map that is persisted. *)
Definition tags_to_value (t : ListItemColorTags) : JsValue :=
  JObj (map (fun kv => (kv.1, JStr kv.2)) t).

(** The colour tags that the plugin keeps: an object (each key once, keys in
    enumeration order) whose keys are trimmed and match a key grammar and
    whose colours are canonical. *)
Definition tags_valid (t : ListItemColorTags) : Prop :=
  obj_wf t /\ js_ordered (obj_keys t)
  /\ Forall (fun kv : jstring * jstring =>
               trim kv.1 = kv.1 /\ valid_tag_key kv.1 = true
               /\ canonical_color kv.2 = true) t.

(** The custom titles as the plain map that is persisted. *)
Definition titles_to_value (t : CustomListTitles) : JsValue :=
  JObj (map (fun kv => (kv.1, JStr kv.2)) t).

(** The custom titles that the plugin keeps: an object (each key once, keys
    in enumeration order) whose keys are date keys and whose titles are not
    empty, in collapsed form and at most 240 characters long. *)
Definition titles_valid (t : CustomListTitles) : Prop :=
  obj_wf t /\ js_ordered (obj_keys t)
  /\ Forall (fun kv : jstring * jstring =>
               DATE_KEY_RE kv.1 = true /\ kv.2 <> [] /\ collapsed kv.2
               /\ (length kv.2 <= 240)%nat) t.

(** A persisted title that repeats its date. *)
Definition repeated_date_title : JsValue :=
  JObj [ (js "2025-01-01", JStr (js "2025-01-01 2025-01-01 hello")) ].

(** The loop of [sanitizeCustomListTitles] as a loop that fills an
    object. *)
Definition title_writer (kv : jstring * JsValue) : option (jstring * jstring) :=
  sanitizeCustomTitle kv.1 kv.2.

(** A cache with an entry without [lastUsed], an entry last used at a
    positive time and an entry last used at a negative time. *)
Definition mixed_lastUsed_cache : OllamaTitleCache :=
  [ (js "a", mkEntry (Finite 1) (js "A") None);
    (js "b", mkEntry (Finite 1) (js "B") (Some (Finite 5)));
    (js "c", mkEntry (Finite 1) (js "C") (Some (Finite (-5)))) ].

(* ===================================================================== *)
(** * Properties of objects *)
(* ===================================================================== *)

Section ObjectFacts.
Context {V : Type}.
Implicit Types (o : list (jstring * V)) (k : jstring) (v : V).

Lemma jstring_eqb_eq (s t : jstring) : jstring_eqb s t = true <-> s = t.
Proof. unfold jstring_eqb. apply bool_decide_eq_true. Qed.

Lemma jstring_eqb_refl (s : jstring) : jstring_eqb s s = true.
Proof. by apply jstring_eqb_eq. Qed.

Lemma jstring_eqb_neq (s t : jstring) : s <> t -> jstring_eqb s t = false.
Proof. intros H. unfold jstring_eqb. by apply bool_decide_eq_false. Qed.

Lemma obj_get_Some_elem k v o : obj_get k o = Some v -> (k, v) ∈ o.
Proof.
  induction o as [|[k' v'] o IH]; simpl; [done|].
  destruct (jstring_eqb k' k) eqn:E.
  - apply jstring_eqb_eq in E as ->. intros [= ->]. apply list_elem_of_here.
  - intros H. apply list_elem_of_further. auto.
Qed.

Lemma obj_get_None k o : obj_get k o = None <-> k ∉ obj_keys o.
Proof.
  induction o as [|[k' v'] o IH]; simpl.
  - split; [intros _; apply not_elem_of_nil | done].
  - destruct (jstring_eqb k' k) eqn:E.
    + apply jstring_eqb_eq in E as ->. split; [done|].
      intros H. exfalso. apply H. apply list_elem_of_here.
    + rewrite IH, not_elem_of_cons. split; [|tauto].
      intros H. split; [|done]. intros ->.
      by rewrite jstring_eqb_refl in E.
Qed.

Lemma obj_get_is_Some k o : is_Some (obj_get k o) <-> k ∈ obj_keys o.
Proof.
  destruct (obj_get k o) eqn:E.
  - split; [intros _|eauto]. apply obj_get_Some_elem in E.
    unfold obj_keys. apply list_elem_of_fmap. by exists (k, v).
  - apply obj_get_None in E. split; [intros [? [=]] | done].
Qed.

Lemma obj_get_elem_NoDup k v o :
  obj_wf o -> (k, v) ∈ o -> obj_get k o = Some v.
Proof.
  unfold obj_wf. induction o as [|[k' v'] o IH]; simpl.
  - intros _ H. by apply elem_of_nil in H.
  - intros Hnd H. apply NoDup_cons in Hnd as [Hk' Hnd].
    apply elem_of_cons in H as [[= <- <-]|H].
    + by rewrite jstring_eqb_refl.
    + destruct (jstring_eqb k' k) eqn:E; [|auto].
      apply jstring_eqb_eq in E as ->. exfalso. apply Hk'.
      unfold obj_keys. apply list_elem_of_fmap. by exists (k, v).
Qed.

Lemma obj_keys_replace k v o : obj_keys (obj_replace k v o) = obj_keys o.
Proof.
  induction o as [|[k' v'] o IH]; simpl; [done|].
  destruct (jstring_eqb k' k); simpl; [done|]. by rewrite IH.
Qed.

Lemma obj_get_replace_eq k v o :
  k ∈ obj_keys o -> obj_get k (obj_replace k v o) = Some v.
Proof.
  induction o as [|[k' v'] o IH]; simpl.
  - intros H. by apply elem_of_nil in H.
  - intros H. destruct (jstring_eqb k' k) eqn:E; simpl; rewrite E; [done|].
    apply IH. apply elem_of_cons in H as [->|H]; [|done].
    by rewrite jstring_eqb_refl in E.
Qed.

Lemma obj_get_replace_ne k k' v o :
  k' <> k -> obj_get k' (obj_replace k v o) = obj_get k' o.
Proof.
  intros Hne. induction o as [|[k1 v1] o IH]; simpl; [done|].
  destruct (jstring_eqb k1 k) eqn:E; simpl.
  - apply jstring_eqb_eq in E as ->. by rewrite !jstring_eqb_neq.
  - by rewrite IH.
Qed.

Lemma obj_create_perm k v o : obj_create k v o ≡ₚ (k, v) :: o.
Proof.
  induction o as [|[k' v'] o IH]; simpl; [done|].
  destruct (key_precedes k k'); [done|].
  rewrite IH. apply Permutation_swap.
Qed.

Lemma obj_get_create_eq k v o :
  k ∉ obj_keys o -> obj_get k (obj_create k v o) = Some v.
Proof.
  induction o as [|[k' v'] o IH]; simpl; intros H.
  - by rewrite jstring_eqb_refl.
  - apply not_elem_of_cons in H as [Hne H].
    destruct (key_precedes k k'); simpl.
    + by rewrite jstring_eqb_refl.
    + rewrite jstring_eqb_neq; [auto | congruence].
Qed.

Lemma obj_get_create_ne k k' v o :
  k' <> k -> obj_get k' (obj_create k v o) = obj_get k' o.
Proof.
  intros Hne. induction o as [|[k1 v1] o IH]; simpl.
  - rewrite jstring_eqb_neq; [done | congruence].
  - destruct (key_precedes k k1); simpl.
    + rewrite (jstring_eqb_neq k k'); [done | congruence].
    + by rewrite IH.
Qed.

Lemma obj_has_true k o : obj_has k o = true <-> k ∈ obj_keys o.
Proof.
  unfold obj_has. rewrite <- obj_get_is_Some.
  destruct (obj_get k o); split; eauto; try done.
Qed.

Lemma obj_has_false k o : obj_has k o = false <-> k ∉ obj_keys o.
Proof.
  rewrite <- obj_has_true. destruct (obj_has k o); split; try done.
Qed.

(** Reading a property after an assignment. *)
Lemma obj_get_set_eq k v o : obj_get k (obj_set k v o) = Some v.
Proof.
  unfold obj_set. destruct (obj_has k o) eqn:E.
  - apply obj_get_replace_eq. by apply obj_has_true.
  - apply obj_get_create_eq. by apply obj_has_false.
Qed.

Lemma obj_get_set_ne k k' v o :
  k' <> k -> obj_get k' (obj_set k v o) = obj_get k' o.
Proof.
  intros Hne. unfold obj_set. destruct (obj_has k o).
  - by apply obj_get_replace_ne.
  - by apply obj_get_create_ne.
Qed.

Lemma obj_keys_set_has k v o :
  k ∈ obj_keys o -> obj_keys (obj_set k v o) = obj_keys o.
Proof.
  intros H. unfold obj_set. apply obj_has_true in H. rewrite H.
  apply obj_keys_replace.
Qed.

Lemma obj_keys_set_new k v o :
  k ∉ obj_keys o -> obj_keys (obj_set k v o) ≡ₚ k :: obj_keys o.
Proof.
  intros H. unfold obj_set. apply obj_has_false in H. rewrite H.
  unfold obj_keys. by rewrite obj_create_perm.
Qed.

Lemma obj_set_wf k v o : obj_wf o -> obj_wf (obj_set k v o).
Proof.
  unfold obj_wf. intros Hnd.
  destruct (decide (k ∈ obj_keys o)) as [H|H].
  - by rewrite obj_keys_set_has.
  - rewrite obj_keys_set_new by done. by apply NoDup_cons.
Qed.

Lemma obj_keys_delete k o :
  obj_keys (obj_delete k o) = filter (fun k' => k' <> k) (obj_keys o).
Proof.
  unfold obj_delete, obj_keys.
  induction o as [|[k' v'] o IH]; simpl; [done|].
  rewrite !filter_cons. simpl.
  destruct (decide (k' <> k)); simpl; by rewrite IH.
Qed.

Lemma obj_delete_wf k o : obj_wf o -> obj_wf (obj_delete k o).
Proof. unfold obj_wf. rewrite obj_keys_delete. apply NoDup_filter. Qed.

Lemma obj_get_delete_eq k o : obj_get k (obj_delete k o) = None.
Proof.
  apply obj_get_None. rewrite obj_keys_delete, list_elem_of_filter. tauto.
Qed.

Lemma obj_get_delete_ne k k' o :
  k' <> k -> obj_get k' (obj_delete k o) = obj_get k' o.
Proof.
  intros Hne. unfold obj_delete.
  induction o as [|[k1 v1] o IH]; simpl; [done|].
  rewrite filter_cons. simpl. destruct (decide (k1 <> k)) as [H|H]; simpl.
  - by rewrite IH.
  - rewrite IH. apply dec_stable in H as ->. by rewrite jstring_eqb_neq.
Qed.

(** Deleting a key that is there removes one property. *)
Lemma obj_delete_length k o :
  obj_wf o -> k ∈ obj_keys o -> S (length (obj_delete k o)) = length o.
Proof.
  unfold obj_wf, obj_delete. induction o as [|[k' v'] o IH]; simpl.
  - intros _ H. by apply elem_of_nil in H.
  - intros Hnd H. apply NoDup_cons in Hnd as [Hk' Hnd].
    rewrite filter_cons. simpl. destruct (decide (k' <> k)) as [Hne|Heq].
    + simpl. f_equal. apply IH; [done|].
      apply elem_of_cons in H as [->|H]; [done|done].
    + apply dec_stable in Heq as ->. f_equal.
      clear IH H Hnd. induction o as [|[k1 v1] o IH]; simpl; [done|].
      unfold obj_keys in Hk'. simpl in Hk'.
      apply not_elem_of_cons in Hk' as [Hne Hk'].
      rewrite filter_cons. simpl. rewrite decide_True by congruence.
      simpl. f_equal. by apply IH.
Qed.

(** Deleting distinct keys that are there removes as many properties. *)
Lemma obj_delete_all_length (ks : list jstring) o :
  obj_wf o -> NoDup ks -> ks ⊆ obj_keys o ->
  (length (fold_left (fun next k => obj_delete k next) ks o) + length ks
   = length o)%nat.
Proof.
  revert o. induction ks as [|k ks IH]; simpl; intros o Hwf Hnd Hsub.
  - lia.
  - apply NoDup_cons in Hnd as [Hk Hnd].
    assert (k ∈ obj_keys o) by (apply Hsub, list_elem_of_here).
    pose proof (obj_delete_length k o Hwf H) as Hlen.
    rewrite <- Hlen. rewrite <- (IH (obj_delete k o)); [lia | | done |].
    + by apply obj_delete_wf.
    + intros k' Hk'. rewrite obj_keys_delete, list_elem_of_filter. split.
      * intros ->. done.
      * apply Hsub. by apply list_elem_of_further.
Qed.

Lemma obj_get_delete_all (ks : list jstring) k o :
  obj_get k (fold_left (fun next k => obj_delete k next) ks o)
  = if decide (k ∈ ks) then None else obj_get k o.
Proof.
  revert o. induction ks as [|k1 ks IH]; intros o.
  - case_decide as H; [by apply elem_of_nil in H | done].
  - cbn [fold_left]. rewrite IH.
    destruct (decide (k ∈ ks)) as [H|H].
    + rewrite decide_True; [done | by apply list_elem_of_further].
    + destruct (decide (k = k1)) as [->|Hne].
      * rewrite decide_True by apply list_elem_of_here.
        apply obj_get_delete_eq.
      * rewrite decide_False.
        -- by apply obj_get_delete_ne.
        -- intros [?|?]%elem_of_cons; done.
Qed.

End ObjectFacts.

(* ===================================================================== *)
(** * Properties of the eviction order *)
(* ===================================================================== *)

Lemma insert_by_lastUsed_perm x l : insert_by_lastUsed x l ≡ₚ x :: l.
Proof.
  induction l as [|y l IH]; simpl; [done|].
  destruct (x.2 <=? y.2); [done|]. rewrite IH. apply Permutation_swap.
Qed.

Lemma sort_by_lastUsed_perm l : sort_by_lastUsed l ≡ₚ l.
Proof.
  induction l as [|x l IH]; simpl; [done|].
  by rewrite insert_by_lastUsed_perm, IH.
Qed.

Lemma sort_by_lastUsed_length l : length (sort_by_lastUsed l) = length l.
Proof. by rewrite sort_by_lastUsed_perm. Qed.

Lemma insert_by_lastUsed_sorted x l :
  StronglySorted by_lastUsed l ->
  StronglySorted by_lastUsed (insert_by_lastUsed x l).
Proof.
  induction l as [|y l IH]; simpl; intros Hs.
  - repeat constructor.
  - apply StronglySorted_cons in Hs as [Hy Hs].
    destruct (x.2 <=? y.2) eqn:E.
    + apply Z.leb_le in E. apply StronglySorted_cons. split.
      * constructor; [done|].
        eapply Forall_impl; [exact Hy|]. unfold by_lastUsed. intros; lia.
      * by apply StronglySorted_cons.
    + apply Z.leb_gt in E. apply StronglySorted_cons. split; [|auto].
      rewrite insert_by_lastUsed_perm. constructor; [|done].
      unfold by_lastUsed. lia.
Qed.

Lemma sort_by_lastUsed_sorted l :
  StronglySorted by_lastUsed (sort_by_lastUsed l).
Proof.
  induction l as [|x l IH]; simpl; [constructor|].
  by apply insert_by_lastUsed_sorted.
Qed.

Lemma fold_left_delete_fst {V} (l : list (jstring * Z))
    (o : list (jstring * V)) :
  fold_left (fun next kz => obj_delete kz.1 next) l o
  = fold_left (fun next k => obj_delete k next) (map fst l) o.
Proof.
  revert o. induction l as [|x l IH]; simpl; intros o; [done|]. apply IH.
Qed.

Lemma sortable_keys (f : jstring -> Z) (ks : list jstring) :
  map fst (map (fun k => (k, f k)) ks) = ks.
Proof. induction ks as [|k ks IH]; simpl; [done|]. by rewrite IH. Qed.

Lemma evicted_sublist cache d :
  exists rest, evicted cache d ++ rest ≡ₚ obj_keys cache.
Proof.
  unfold evicted.
  set (sorted := sort_by_lastUsed _).
  exists (map fst (drop d sorted)).
  rewrite <- map_app, take_drop. unfold sorted.
  rewrite sort_by_lastUsed_perm. by rewrite sortable_keys.
Qed.

Lemma evicted_NoDup cache d : obj_wf cache -> NoDup (evicted cache d).
Proof.
  intros Hwf. destruct (evicted_sublist cache d) as [rest Hp].
  unfold obj_wf in Hwf. rewrite <- Hp in Hwf.
  by apply NoDup_app in Hwf as [? _].
Qed.

Lemma evicted_subseteq cache d : evicted cache d ⊆ obj_keys cache.
Proof.
  destruct (evicted_sublist cache d) as [rest Hp].
  intros k Hk. rewrite <- Hp. apply elem_of_app. by left.
Qed.

Lemma evicted_length cache d :
  (d <= length cache)%nat -> length (evicted cache d) = d.
Proof.
  intros Hd. unfold evicted.
  rewrite length_map, length_take, sort_by_lastUsed_length, length_map.
  unfold obj_keys. rewrite length_map. lia.
Qed.

(** Every evicted key was used no later than every key that stays. *)
Lemma evicted_before_kept cache d k k' :
  k ∈ evicted cache d -> k' ∈ obj_keys cache -> k' ∉ evicted cache d ->
  effectiveLastUsed (obj_get k cache) <= effectiveLastUsed (obj_get k' cache).
Proof.
  unfold evicted.
  set (f := fun k => (k, effectiveLastUsed (obj_get k cache))).
  set (sorted := sort_by_lastUsed _).
  intros Hk Hk' Hnk'.
  assert (Hall : forall x, x ∈ sorted -> x = f x.1).
  { intros x Hx. unfold sorted in Hx. rewrite sort_by_lastUsed_perm in Hx.
    apply list_elem_of_fmap in Hx as [k0 [-> _]]. done. }
  apply list_elem_of_fmap in Hk as [x [-> Hx]].
  assert (Hin' : f k' ∈ sorted).
  { unfold sorted. rewrite sort_by_lastUsed_perm.
    apply list_elem_of_fmap. by exists k'. }
  rewrite <- (take_drop d sorted) in Hin'.
  apply elem_of_app in Hin' as [Hin'|Hin'].
  { exfalso. apply Hnk'. apply list_elem_of_fmap. by exists (f k'). }
  pose proof (sort_by_lastUsed_sorted
                (map f (obj_keys cache))) as Hs.
  fold sorted in Hs. rewrite <- (take_drop d sorted) in Hs.
  pose proof (StronglySorted_app_1_elem_of _ _ _ _ _ Hs Hx Hin') as Hle.
  assert (Hxs : x ∈ sorted).
  { rewrite <- (take_drop d sorted). apply elem_of_app. by left. }
  rewrite (Hall x Hxs) in Hle. unfold by_lastUsed in Hle. simpl in Hle.
  rewrite (Hall x Hxs). done.
Qed.

(** The two ways in which [pruneOllamaTitleCache] returns. *)
Lemma prune_unchanged cache maxEntries :
  let max := max_of maxEntries in
  num_falsy max || num_le_zero max || length_le_num (length cache) max = true ->
  pruneOllamaTitleCache cache maxEntries = cache.
Proof.
  intros max H. unfold pruneOllamaTitleCache. fold max.
  destruct (num_falsy max || num_le_zero max); [done|].
  unfold obj_keys. rewrite length_map. simpl in H. by rewrite H.
Qed.

Lemma prune_evicts cache (m : Z) :
  0 < m < Z.of_nat (length cache) ->
  pruneOllamaTitleCache cache (Some (Finite m))
  = fold_left (fun next k => obj_delete k next)
      (evicted cache (length cache - Z.to_nat m)) cache.
Proof.
  intros Hm. unfold pruneOllamaTitleCache, max_of. simpl.
  assert (length (obj_keys cache) = length cache) as Hlen
    by (unfold obj_keys; apply length_map).
  rewrite Hlen.
  replace (m =? 0) with false by (symmetry; apply Z.eqb_neq; lia).
  replace (m <=? 0) with false by (symmetry; apply Z.leb_gt; lia).
  replace (Z.of_nat (length cache) <=? m) with false
    by (symmetry; apply Z.leb_gt; lia).
  simpl.
  replace (Z.to_nat (Z.max 0 (Z.of_nat (length cache) - m)))
    with (length cache - Z.to_nat m)%nat by lia.
  set (d := (length cache - Z.to_nat m)%nat).
  set (sorted := sort_by_lastUsed _).
  assert (length (take d sorted) = d) as Hd.
  { rewrite length_take. unfold sorted.
    rewrite sort_by_lastUsed_length, length_map, Hlen. lia. }
  rewrite Hd. replace (d =? 0)%nat with false
    by (symmetry; apply Nat.eqb_neq; lia).
  by rewrite fold_left_delete_fst.
Qed.

(* ===================================================================== *)
(** * The bound on the size of a pruned cache *)
(* ===================================================================== *)

(** A pruning step that evicts leaves exactly [m] entries. *)
Lemma prune_evicts_length (cache : OllamaTitleCache) (m : Z) :
  obj_wf cache -> 0 < m < Z.of_nat (length cache) ->
  Z.of_nat (length (pruneOllamaTitleCache cache (Some (Finite m)))) = m.
Proof.
  intros Hwf Hm. rewrite prune_evicts by lia.
  set (d := (length cache - Z.to_nat m)%nat).
  pose proof (obj_delete_all_length (evicted cache d) cache Hwf
                (evicted_NoDup cache d Hwf) (evicted_subseteq cache d)) as H.
  rewrite evicted_length in H by lia. lia.
Qed.

(** C1. For every cache and every positive integer [maxEntries], the cache
    returned by [pruneOllamaTitleCache] has at most [maxEntries] entries, and
    exactly [maxEntries] entries when the input has more than that. *)
Theorem prune_bound (cache : OllamaTitleCache) (maxEntries : Z) :
  obj_wf cache -> 0 < maxEntries ->
  let pruned := pruneOllamaTitleCache cache (Some (Finite maxEntries)) in
  Z.of_nat (length pruned) <= maxEntries
  /\ (maxEntries < Z.of_nat (length cache) ->
      Z.of_nat (length pruned) = maxEntries).
Proof.
  intros Hwf Hpos pruned. subst pruned.
  destruct (Z.le_gt_cases (Z.of_nat (length cache)) maxEntries) as [Hle|Hgt].
  - rewrite prune_unchanged; [lia|].
    unfold max_of. simpl. apply orb_true_iff. right. by apply Z.leb_le.
  - rewrite prune_evicts_length by (done || lia). lia.
Qed.

Lemma prune_bound_witness :
  let pruned := pruneOllamaTitleCache sample_cache (Some (Finite 2)) in
  Z.of_nat (length pruned) <= 2
  /\ (2 < Z.of_nat (length sample_cache) -> Z.of_nat (length pruned) = 2).
Proof.
  apply (prune_bound sample_cache 2); [|lia].
  unfold obj_wf. apply (bool_decide_unpack _). vm_compute. exact I.
Defined.

(* ===================================================================== *)
(** * Which entries a pruning step keeps *)
(* ===================================================================== *)

(** A pruned cache holds entries of the input, unchanged. *)
Lemma prune_get_Some cache maxEntries k e :
  obj_get k (pruneOllamaTitleCache cache maxEntries) = Some e ->
  obj_get k cache = Some e.
Proof.
  unfold pruneOllamaTitleCache.
  destruct (num_falsy _ || num_le_zero _); [done|].
  destruct (length_le_num _ _); [done|].
  destruct (length _ =? 0)%nat; [done|].
  rewrite fold_left_delete_fst, obj_get_delete_all.
  by case_decide.
Qed.

(** When entries are evicted, the last use of an evicted entry is not later
    than the last use of an entry that stays ([lastUsed] read as the sort
    does: 0 when it is missing or not finite). *)
Lemma prune_evicted_le_kept cache (m : Z) k e k' e' :
  0 < m ->
  let pruned := pruneOllamaTitleCache cache (Some (Finite m)) in
  obj_get k cache = Some e -> obj_get k pruned = None ->
  obj_get k' pruned = Some e' ->
  sort_key_of (lastUsed e) <= sort_key_of (lastUsed e').
Proof.
  intros Hm pruned Hk Hgone Hkept. subst pruned.
  destruct (Z.le_gt_cases (Z.of_nat (length cache)) m) as [Hle|Hgt].
  { rewrite prune_unchanged in Hgone; [congruence|].
    unfold max_of. simpl. apply orb_true_iff. right. by apply Z.leb_le. }
  rewrite prune_evicts in Hgone, Hkept by lia.
  rewrite obj_get_delete_all in Hgone, Hkept.
  set (d := (length cache - Z.to_nat m)%nat) in *.
  destruct (decide (k ∈ evicted cache d)) as [Hin|]; [|congruence].
  destruct (decide (k' ∈ evicted cache d)) as [|Hnin]; [done|].
  pose proof (evicted_before_kept cache d k k' Hin) as H.
  rewrite Hk, Hkept in H. simpl in H. apply H; [|done].
  apply obj_get_is_Some. eauto.
Qed.

Lemma NoDup_fmap_eq {A B} (f : A -> B) (l : list A) x y :
  NoDup (map f l) -> x ∈ l -> y ∈ l -> f x = f y -> x = y.
Proof.
  induction l as [|a l IH]; simpl; intros Hnd Hx Hy Hf.
  - by apply elem_of_nil in Hx.
  - apply NoDup_cons in Hnd as [Ha Hnd].
    apply elem_of_cons in Hx as [->|Hx]; apply elem_of_cons in Hy as [->|Hy].
    + done.
    + exfalso. apply Ha. rewrite Hf. apply list_elem_of_fmap. eauto.
    + exfalso. apply Ha. rewrite <- Hf. apply list_elem_of_fmap. eauto.
    + by apply IH.
Qed.

(** X17. The part of the eviction order that holds on every cache: when
    every entry has a finite [lastUsed] and no two entries have the same
    one, a pruning step to [m] entries keeps [m] entries of the input, and
    each of them was used strictly later than every entry that it evicts. *)
Theorem prune_keeps_most_recent (cache : OllamaTitleCache) (m : Z) :
  obj_wf cache ->
  (forall k e, (k, e) ∈ cache -> exists z, lastUsed e = Some (Finite z)) ->
  NoDup (map (fun kv => lastUsed kv.2) cache) ->
  0 < m < Z.of_nat (length cache) ->
  let pruned := pruneOllamaTitleCache cache (Some (Finite m)) in
  Z.of_nat (length pruned) = m
  /\ (forall k e, obj_get k pruned = Some e -> obj_get k cache = Some e)
  /\ (forall k e k' e',
        obj_get k cache = Some e -> obj_get k pruned = None ->
        obj_get k' pruned = Some e' ->
        sort_key_of (lastUsed e) < sort_key_of (lastUsed e')).
Proof.
  intros Hwf Hfin Hdistinct Hm pruned. split; [|split].
  - by apply prune_evicts_length.
  - intros k e. apply prune_get_Some.
  - intros k e k' e' Hk Hgone Hkept.
    pose proof (prune_evicted_le_kept cache m k e k' e' ltac:(lia)
                  Hk Hgone Hkept) as Hle.
    apply prune_get_Some in Hkept as Hk'.
    apply obj_get_Some_elem in Hk as Hin, Hk' as Hin'.
    destruct (Hfin _ _ Hin) as [z Hz], (Hfin _ _ Hin') as [z' Hz'].
    rewrite Hz, Hz' in *. simpl in *.
    destruct (decide (z = z')) as [->|]; [|lia].
    exfalso.
    assert ((k, e) = (k', e')) as [= -> ->].
    { apply (NoDup_fmap_eq (fun kv => lastUsed kv.2) cache); try done.
      simpl. congruence. }
    subst pruned. congruence.
Qed.

Lemma prune_keeps_most_recent_witness :
  let pruned := pruneOllamaTitleCache sample_cache (Some (Finite 2)) in
  Z.of_nat (length pruned) = 2
  /\ (forall k e, obj_get k pruned = Some e -> obj_get k sample_cache = Some e)
  /\ (forall k e k' e',
        obj_get k sample_cache = Some e -> obj_get k pruned = None ->
        obj_get k' pruned = Some e' ->
        sort_key_of (lastUsed e) < sort_key_of (lastUsed e')).
Proof.
  apply (prune_keeps_most_recent sample_cache 2).
  - unfold obj_wf. apply (bool_decide_unpack _). vm_compute. exact I.
  - intros k e Hin. unfold sample_cache in Hin.
    repeat (apply elem_of_cons in Hin as [[= -> ->]|Hin]; [by eexists|]).
    by apply elem_of_nil in Hin.
  - simpl.
    repeat (apply NoDup_cons; split;
            [rewrite ?not_elem_of_cons; repeat split; try discriminate;
             apply not_elem_of_nil|]).
    apply NoDup_nil_2.
  - simpl. lia.
Defined.

(** X18. An entry without [lastUsed] goes before every entry that was last
    used at a positive time: when a pruning step keeps an entry without
    [lastUsed], it keeps every entry with a positive [lastUsed] as well. *)
Theorem prune_missing_before_positive (cache : OllamaTitleCache) (m z : Z)
    k e k' e' :
  0 < m ->
  let pruned := pruneOllamaTitleCache cache (Some (Finite m)) in
  lastUsed e = None -> obj_get k pruned = Some e ->
  obj_get k' cache = Some e' -> lastUsed e' = Some (Finite z) -> 0 < z ->
  obj_get k' pruned = Some e'.
Proof.
  intros Hm pruned Hmissing Hkept Hk' Hz Hpos.
  destruct (obj_get k' pruned) as [e''|] eqn:E.
  - apply prune_get_Some in E. congruence.
  - pose proof (prune_evicted_le_kept cache m k' e' k e Hm Hk' E Hkept) as H.
    rewrite Hz, Hmissing in H. simpl in H. lia.
Qed.

Lemma prune_missing_before_positive_witness :
  obj_get (js "b") (pruneOllamaTitleCache mixed_lastUsed_cache (Some (Finite 2)))
  = Some (mkEntry (Finite 1) (js "B") (Some (Finite 5))).
Proof.
  apply (prune_missing_before_positive mixed_lastUsed_cache 2 5 (js "a")
           (mkEntry (Finite 1) (js "A") None)).
  - lia.
  - reflexivity.
  - reflexivity.
  - reflexivity.
  - reflexivity.
  - lia.
Defined.

(** C2. The cache that shows the defect: ["a"] has no [lastUsed], ["b"] has
    the finite [lastUsed] -5, which [sanitizeOllamaTitleCache] lets through.
    Pruned to one entry, the cache loses the entry that has a [lastUsed] and
    keeps the one that has none. *)
Theorem prune_missing_lastUsed_outlives_negative :
  sanitizeOllamaTitleCache negative_lastUsed_raw = negative_lastUsed_cache
  /\ pruneOllamaTitleCache negative_lastUsed_cache (Some (Finite 1))
     = [ (js "a", mkEntry (Finite 1) (js "A") None) ].
Proof. split; reflexivity. Qed.

(* ===================================================================== *)
(** * Upsert *)
(* ===================================================================== *)

Lemma upsert_unfold dateNow args :
  upsertOllamaTitleCacheEntry dateNow args
  = pruneOllamaTitleCache (upsert_next dateNow args) (maxEntries args).
Proof. reflexivity. Qed.

Lemma upsert_next_get_key dateNow args :
  obj_get (filePath args) (upsert_next dateNow args)
  = Some (upserted_entry dateNow args).
Proof. apply obj_get_set_eq. Qed.

Lemma upsert_next_get_other dateNow args k :
  k <> filePath args ->
  obj_get k (upsert_next dateNow args) = obj_get k (default [] (cache args)).
Proof. intros H. by apply obj_get_set_ne. Qed.

Lemma prune_get_None_or_same cache maxEntries k :
  obj_get k (pruneOllamaTitleCache cache maxEntries) = None
  \/ obj_get k (pruneOllamaTitleCache cache maxEntries) = obj_get k cache.
Proof.
  destruct (obj_get k (pruneOllamaTitleCache cache maxEntries)) eqn:E; [|auto].
  right. symmetry. by apply prune_get_Some in E.
Qed.

Lemma length_pos_exists_key {V} (o : list (jstring * V)) :
  (0 < length o)%nat -> exists k v, obj_get k o = Some v.
Proof.
  destruct o as [|[k v] o]; simpl; [lia|]. intros _. exists k, v.
  by rewrite jstring_eqb_refl.
Qed.

(** C3 (counterexample). With one cached entry last used at 100, room for one
    entry and an upsert at time 50, the pruning step evicts the key that was
    just written: the result does not map it to the upserted entry. *)
Lemma upsert_may_evict_the_key :
  obj_get (filePath stale_upsert)
          (upsertOllamaTitleCacheEntry (Finite 0) stale_upsert)
  <> Some (mkEntry (Finite 2) (js "B") (Some (Finite 50))).
Proof. vm_compute. discriminate. Qed.

(** C3 (amended). For every cache, key, entry [{mtime: M, title: T}],
    [maxEntries] and time stamp [N], the cache returned by
    [upsertOllamaTitleCacheEntry] either does not hold the key or maps it to
    exactly [{mtime: M, title: T, lastUsed: N}], whatever was stored under
    the key before.  It holds the key
      - when the pruning step evicts nothing ([maxEntries] is absent, zero,
        negative or NaN, or not below the number of entries after the
        write), and
      - when [maxEntries] is a positive integer and [N] is a finite number
        greater than the [lastUsed] of every other entry (read as 0 when
        missing or not finite). *)
Theorem upsert_freshness (dateNow : JsNumber) (args : UpsertArgs) :
  let result := upsertOllamaTitleCacheEntry dateNow args in
  let next := upsert_next dateNow args in
  let key := filePath args in
  (obj_get key result = None
   \/ obj_get key result = Some (upserted_entry dateNow args))
  /\ (nothing_to_prune (length next) (maxEntries args) = true ->
      obj_get key result = Some (upserted_entry dateNow args))
  /\ (forall m n : Z,
        obj_wf (default [] (cache args)) ->
        maxEntries args = Some (Finite m) -> 0 < m ->
        default dateNow (nowMs args) = Finite n ->
        (forall k e, k <> key -> obj_get k (default [] (cache args)) = Some e ->
                     sort_key_of (lastUsed e) < n) ->
        obj_get key result = Some (upserted_entry dateNow args)).
Proof.
  intros result next key. subst result. rewrite upsert_unfold.
  fold next. split; [|split].
  - destruct (prune_get_None_or_same next (maxEntries args) key) as [H|H];
      [by left|right].
    rewrite H. apply upsert_next_get_key.
  - intros H. rewrite prune_unchanged; [apply upsert_next_get_key | exact H].
  - intros m n Hwf Hmax Hm Hnow Hothers. rewrite Hmax.
    pose proof (upsert_next_get_key dateNow args) as Hkey.
    fold next key in Hkey.
    destruct (obj_get key (pruneOllamaTitleCache next (Some (Finite m))))
      as [e|] eqn:E.
    { apply prune_get_Some in E. congruence. }
    exfalso.
    assert (obj_wf next) as Hwfn by (by apply obj_set_wf).
    assert (Z.of_nat (length next) <= m \/ m < Z.of_nat (length next))
      as [Hle|Hgt] by lia.
    { rewrite prune_unchanged in E; [congruence|].
      unfold max_of. simpl. apply orb_true_iff. right. by apply Z.leb_le. }
    pose proof (prune_evicts_length next m Hwfn ltac:(lia)) as Hlen.
    destruct (length_pos_exists_key
                (pruneOllamaTitleCache next (Some (Finite m))) ltac:(lia))
      as (k' & e' & Hk').
    pose proof (prune_evicted_le_kept next m key _ k' e' Hm Hkey E Hk') as Hle.
    assert (k' <> key) as Hne by congruence.
    apply prune_get_Some in Hk'.
    unfold next in Hk'. rewrite upsert_next_get_other in Hk' by done.
    specialize (Hothers k' e' Hne Hk').
    unfold upserted_entry in Hle. simpl in Hle. rewrite Hnow in Hle.
    simpl in Hle. lia.
Qed.

Lemma upsert_freshness_witness :
  obj_get (js "c.md") (upsertOllamaTitleCacheEntry (Finite 0) test_upsert)
  = Some (mkEntry (Finite 2) (js "C") (Some (Finite 100))).
Proof.
  apply (upsert_freshness (Finite 0) test_upsert) with (m := 2) (n := 100).
  - unfold obj_wf. apply (bool_decide_unpack _). vm_compute. exact I.
  - reflexivity.
  - lia.
  - reflexivity.
  - intros k e Hne. simpl.
    unfold jstring_eqb. repeat case_bool_decide; intros [= <-]; simpl; lia.
Defined.

(* ===================================================================== *)
(** * [parseDailyTitleParts] *)
(* ===================================================================== *)

Lemma is_empty_true (s : jstring) : is_empty s = true <-> s = [].
Proof. destruct s; simpl; split; congruence. Qed.

Lemma is_empty_false (s : jstring) : is_empty s = false <-> s <> [].
Proof. destruct s; simpl; split; congruence. Qed.

(** A successful parse: every test of the function was passed. *)
Lemma parse_Some_inv value parts :
  parseDailyTitleParts value = Some parts ->
  is_object value = true
  /\ exists items desc,
       js_get value (js "keywords") = JArr items
       /\ js_get value (js "description") = JStr desc
       /\ (3 <= length (surviving_words items))%nat
       /\ sanitizeDescription desc <> []
       /\ parts = mkDailyTitleParts (take 3 (surviving_words items))
                                    (sanitizeDescription desc).
Proof.
  unfold parseDailyTitleParts.
  destruct (is_object value); cbn [negb]; [|done].
  destruct (js_get value (js "keywords")) as [| | | | |items|]; try done.
  destruct (js_get value (js "description")) as [| | | |desc| |]; try done.
  destruct (length (surviving_words items) <? 3)%nat eqn:Hlen; [done|].
  destruct (is_empty (sanitizeDescription desc)) eqn:Hdesc; [done|].
  intros [= <-]. split; [done|]. exists items, desc.
  apply Nat.ltb_ge in Hlen. apply is_empty_false in Hdesc. done.
Qed.



(* ===================================================================== *)
(** * Loops that fill an object *)
(* ===================================================================== *)

Section Collect.
Context {A V : Type} (f : A -> option (jstring * V)).
Implicit Types (l : list A) (out : list (jstring * V)) (k : jstring).

Lemma last_write_cons k x l acc :
  last_write f k (x :: l) acc
  = last_write f k l
      match f x with
      | Some (k', v) => if decide (k' = k) then Some v else acc
      | None => acc
      end.
Proof. reflexivity. Qed.

Lemma obj_get_collect k l out :
  obj_get k (fold_left (collect_step f) l out)
  = last_write f k l (obj_get k out).
Proof.
  revert out. induction l as [|x l IH]; intros out; [done|].
  cbn [fold_left]. rewrite IH, last_write_cons. f_equal.
  unfold collect_step. destruct (f x) as [[k' v]|]; [|done].
  case_decide as Hk.
  - subst k'. apply obj_get_set_eq.
  - apply obj_get_set_ne. congruence.
Qed.

Lemma last_write_app k l1 l2 acc :
  last_write f k (l1 ++ l2) acc = last_write f k l2 (last_write f k l1 acc).
Proof. unfold last_write. apply fold_left_app. Qed.

Lemma last_write_silent k l acc :
  (forall x v, x ∈ l -> f x <> Some (k, v)) -> last_write f k l acc = acc.
Proof.
  revert acc. induction l as [|x l IH]; intros acc H; [done|].
  rewrite last_write_cons.
  rewrite IH by (intros y v Hy; apply H; by apply list_elem_of_further).
  destruct (f x) as [[k' v]|] eqn:E; [|done].
  case_decide as Hk; [|done]. subst k'.
  exfalso. apply (H x v); [apply list_elem_of_here | done].
Qed.

(** The last element that writes [k] decides. *)
Lemma last_write_last k l1 x l2 v acc :
  f x = Some (k, v) -> (forall y v', y ∈ l2 -> f y <> Some (k, v')) ->
  last_write f k (l1 ++ x :: l2) acc = Some v.
Proof.
  intros Hx Hl2. rewrite last_write_app, last_write_cons.
  rewrite Hx, decide_True by done. by apply last_write_silent.
Qed.

Lemma last_write_inv k l acc :
  last_write f k l acc = acc /\ (forall x v, x ∈ l -> f x <> Some (k, v))
  \/ exists l1 x l2 v,
       l = l1 ++ x :: l2 /\ f x = Some (k, v)
       /\ (forall y v', y ∈ l2 -> f y <> Some (k, v'))
       /\ last_write f k l acc = Some v.
Proof.
  induction l as [|x l IH] using rev_ind.
  - left. split; [done|]. intros x v Hx. by apply elem_of_nil in Hx.
  - destruct (f x) as [[k' v]|] eqn:E.
    + destruct (decide (k' = k)) as [->|Hne].
      * right. exists l, x, [], v. split; [done|]. split; [done|].
        split; [intros y v' Hy; by apply elem_of_nil in Hy|].
        apply last_write_last; [done|].
        intros y v' Hy; by apply elem_of_nil in Hy.
      * assert (forall acc', last_write f k (l ++ [x]) acc'
                             = last_write f k l acc') as Hsame.
        { intros acc'. rewrite last_write_app, last_write_cons.
          by rewrite E, decide_False. }
        rewrite Hsame.
        destruct IH as [[Hacc Hno]|(l1 & y & l2 & w & -> & Hy & Hl2 & Hw)].
        -- left. split; [done|].
           intros z w [Hz|Hz]%elem_of_app; [by apply Hno|].
           apply list_elem_of_singleton in Hz as ->. congruence.
        -- right. exists l1, y, (l2 ++ [x]), w.
           split; [by rewrite <- app_assoc|]. split; [done|]. split; [|done].
           intros z w' [Hz|Hz]%elem_of_app; [by apply Hl2|].
           apply list_elem_of_singleton in Hz as ->. congruence.
    + assert (forall acc', last_write f k (l ++ [x]) acc'
                           = last_write f k l acc') as Hsame.
      { intros acc'. rewrite last_write_app, last_write_cons.
        by rewrite E. }
      rewrite Hsame.
      destruct IH as [[Hacc Hno]|(l1 & y & l2 & w & -> & Hy & Hl2 & Hw)].
      * left. split; [done|]. intros z w [Hz|Hz]%elem_of_app; [by apply Hno|].
        apply list_elem_of_singleton in Hz as ->. congruence.
      * right. exists l1, y, (l2 ++ [x]), w.
        split; [by rewrite <- app_assoc|]. split; [done|]. split; [|done].
        intros z w' [Hz|Hz]%elem_of_app; [by apply Hl2|].
        apply list_elem_of_singleton in Hz as ->. congruence.
Qed.

Lemma collect_wf l out :
  obj_wf out -> obj_wf (fold_left (collect_step f) l out).
Proof.
  revert out. induction l as [|x l IH]; intros out Hwf; [done|].
  cbn [fold_left]. apply IH. unfold collect_step.
  destruct (f x) as [[k v]|]; [|done]. by apply obj_set_wf.
Qed.

End Collect.

(* ===================================================================== *)
(** * The order of enumeration *)
(* ===================================================================== *)

Lemma key_precedes_trans k1 k2 k3 :
  key_precedes k1 k2 = true -> key_precedes k2 k3 = true ->
  key_precedes k1 k3 = true.
Proof.
  unfold key_precedes.
  destruct (array_index k1), (array_index k2), (array_index k3);
    try done.
  rewrite !N.ltb_lt. lia.
Qed.

Lemma key_precedes_asym k1 k2 :
  key_precedes k1 k2 = true -> key_precedes k2 k1 = false.
Proof.
  unfold key_precedes.
  destruct (array_index k1), (array_index k2); try done.
  rewrite N.ltb_lt, N.ltb_ge. lia.
Qed.

Section Order.
Context {V : Type}.
Implicit Types (o : list (jstring * V)) (k : jstring) (v : V).

Lemma obj_create_ordered k v o :
  js_ordered (obj_keys o) -> js_ordered (obj_keys (obj_create k v o)).
Proof.
  unfold js_ordered.
  induction o as [|[k' v'] o IH]; simpl; intros Hs.
  - repeat constructor.
  - apply StronglySorted_cons in Hs as [Hall Hs].
    destruct (key_precedes k k') eqn:E; simpl.
    + apply StronglySorted_cons. split.
      * constructor; [by apply key_precedes_asym|].
        eapply Forall_impl; [exact Hall|]. simpl. intros k2 Hk2.
        destruct (key_precedes k2 k) eqn:E2; [|done].
        by rewrite (key_precedes_trans _ _ _ E2 E) in Hk2.
      * by apply StronglySorted_cons.
    + apply StronglySorted_cons. split; [|by apply IH].
      fold (obj_keys (obj_create k v o)).
      assert (obj_keys (obj_create k v o) ≡ₚ k :: obj_keys o) as ->
        by (unfold obj_keys; by rewrite obj_create_perm).
      by constructor.
Qed.

Lemma obj_set_ordered k v o :
  js_ordered (obj_keys o) -> js_ordered (obj_keys (obj_set k v o)).
Proof.
  intros Hs. unfold obj_set. destruct (obj_has k o).
  - by rewrite obj_keys_replace.
  - by apply obj_create_ordered.
Qed.

(** A key that precedes none of the keys of an object is created at the
    end. *)
Lemma obj_create_last k v o :
  Forall (fun k' => key_precedes k k' = false) (obj_keys o) ->
  obj_create k v o = o ++ [(k, v)].
Proof.
  induction o as [|[k' v'] o IH]; simpl; intros H; [done|].
  apply Forall_cons in H as [-> H]. by rewrite IH.
Qed.

(** Assigning the properties of an object, in its order of enumeration, to
    an object that holds its first properties gives the object again. *)
Lemma obj_rebuild (acc rest : list (jstring * V)) :
  obj_wf (acc ++ rest) -> js_ordered (obj_keys (acc ++ rest)) ->
  fold_left (fun out kv => obj_set kv.1 kv.2 out) rest acc = acc ++ rest.
Proof.
  revert acc. induction rest as [|[k v] rest IH]; intros acc Hwf Hs.
  - by rewrite app_nil_r.
  - cbn [fold_left]. simpl.
    assert (obj_set k v acc = acc ++ [(k, v)]) as ->.
    { unfold obj_wf, obj_keys in Hwf. rewrite map_app in Hwf. simpl in Hwf.
      apply NoDup_app in Hwf as (_ & Hdisj & _).
      unfold js_ordered, obj_keys in Hs. rewrite map_app in Hs. simpl in Hs.
      apply StronglySorted_app in Hs as (Hcross & _ & _).
      unfold obj_set.
      assert (obj_has k acc = false) as ->.
      { apply obj_has_false. intros Hin. apply (Hdisj k Hin).
        apply list_elem_of_here. }
      apply obj_create_last. apply Forall_forall. intros k' Hk'.
      apply (Hcross k' k); [done | apply list_elem_of_here]. }
    rewrite IH; rewrite <- app_assoc; done.
Qed.

End Order.

Lemma collect_ordered {A V} (f : A -> option (jstring * V)) l out :
  js_ordered (obj_keys out) ->
  js_ordered (obj_keys (fold_left (collect_step f) l out)).
Proof.
  revert out. induction l as [|x l IH]; intros out Hs; [done|].
  cbn [fold_left]. apply IH. unfold collect_step.
  destruct (f x) as [[k v]|]; [|done]. by apply obj_set_ordered.
Qed.

(* ===================================================================== *)
(** * [sanitizeOllamaTitleCache] *)
(* ===================================================================== *)

Lemma fold_left_ext_in {A B} (f g : A -> B -> A) (l : list B) (a : A) :
  (forall a x, x ∈ l -> f a x = g a x) -> fold_left f l a = fold_left g l a.
Proof.
  revert a. induction l as [|x l IH]; intros a H; [done|].
  cbn [fold_left]. rewrite H by apply list_elem_of_here.
  apply IH. intros a' y Hy. apply H. by apply list_elem_of_further.
Qed.

Lemma obj_assign_other {V} k v (o : list (jstring * V)) :
  k <> js "__proto__" -> obj_assign k v o = obj_set k v o.
Proof.
  intros H. unfold obj_assign. by rewrite (jstring_eqb_neq _ _ H).
Qed.

Lemma obj_assign_proto {V} v (o : list (jstring * V)) :
  obj_has (js "__proto__") o = false -> obj_assign (js "__proto__") v o = o.
Proof.
  intros H. unfold obj_assign. by rewrite jstring_eqb_refl, H.
Qed.

Lemma obj_has_set_ne {V} k k' v (o : list (jstring * V)) :
  k' <> k -> obj_has k' (obj_set k v o) = obj_has k' o.
Proof. intros H. unfold obj_has. by rewrite obj_get_set_ne. Qed.

(** The object under construction never has the property [__proto__], and
    each step of the loop is a step of a loop that fills an object. *)
Lemma sanitize_step_collect out kv :
  obj_has (js "__proto__") out = false ->
  Cache.sanitize_step out kv = collect_step cache_writer out kv
  /\ obj_has (js "__proto__") (Cache.sanitize_step out kv) = false.
Proof.
  intros Hout. unfold Cache.sanitize_step, collect_step, cache_writer.
  destruct (jstring_eqb kv.1 (js "__proto__")) eqn:E.
  - apply jstring_eqb_eq in E. rewrite E.
    destruct (Cache.sanitizeEntry kv.2); [|done].
    by rewrite obj_assign_proto.
  - assert (kv.1 <> js "__proto__") as Hne.
    { intros H. apply jstring_eqb_eq in H. congruence. }
    destruct (Cache.sanitizeEntry kv.2); [|done].
    rewrite obj_assign_other by done. split; [done|].
    rewrite obj_has_set_ne; done.
Qed.

Lemma sanitize_loop_collect l out :
  obj_has (js "__proto__") out = false ->
  fold_left Cache.sanitize_step l out
  = fold_left (collect_step cache_writer) l out
  /\ obj_has (js "__proto__") (fold_left Cache.sanitize_step l out) = false.
Proof.
  revert out. induction l as [|kv l IH]; intros out Hout; [done|].
  cbn [fold_left].
  destruct (sanitize_step_collect out kv Hout) as [Hstep Hhas].
  destruct (IH _ Hhas) as [IH1 IH2]. split; [|done].
  by rewrite IH1, Hstep.
Qed.

Lemma sanitize_as_collect value :
  sanitizeOllamaTitleCache value
  = if is_object value
    then fold_left (collect_step cache_writer) (js_entries value) []
    else [].
Proof.
  unfold sanitizeOllamaTitleCache. destruct (is_object value); [|done].
  cbn [negb]. by apply sanitize_loop_collect.
Qed.

(** A sanitized cache has no property [__proto__]. *)
Lemma sanitize_no_proto value :
  obj_get (js "__proto__") (sanitizeOllamaTitleCache value) = None.
Proof.
  unfold sanitizeOllamaTitleCache. destruct (is_object value); [|done].
  cbn [negb].
  destruct (sanitize_loop_collect (js_entries value) [] eq_refl) as [_ H].
  unfold obj_has in H. by destruct (obj_get _ _).
Qed.

(** What the loop stores for a raw entry that passes. *)
Lemma sanitizeEntry_Some raw e :
  Cache.sanitizeEntry raw = Some e ->
  raw_entry_valid raw
  /\ js_get raw (js "title") = JStr (title e)
  /\ js_get raw (js "mtime") = JNum (mtime e)
  /\ lastUsed e = carried_lastUsed raw
  /\ entry_valid e.
Proof.
  unfold Cache.sanitizeEntry, raw_entry_valid, carried_lastUsed, entry_valid,
    entry_of_fields.
  destruct (is_object raw); cbn [negb]; [|done].
  destruct (js_get raw (js "title")) as [| | | |t| |]; try done.
  cbn [field_of].
  destruct (is_empty (trim t)) eqn:Ht; [done|]. apply is_empty_false in Ht.
  destruct (js_get raw (js "mtime")) as [| | |[| | |m]| | |]; try done.
  cbn [field_of isFinite negb orb num_lt_zero].
  destruct (m <? 0) eqn:Hm; [done|]. apply Z.ltb_ge in Hm.
  destruct (js_get raw (js "lastUsed")) as [| | |[| | |z]| | |];
    intros [= <-]; cbn [title mtime lastUsed]; repeat split; eauto.
Qed.

(** A raw entry is skipped exactly when it fails the validation. *)
Lemma sanitizeEntry_None raw :
  Cache.sanitizeEntry raw = None <-> ~ raw_entry_valid raw.
Proof.
  split.
  - intros Hnone (Hobj & (t & Ht & Hne) & (m & Hm & Hpos)).
    unfold Cache.sanitizeEntry, entry_of_fields in Hnone.
    rewrite Hobj, Ht, Hm in Hnone. cbn in Hnone.
    apply is_empty_false in Hne. rewrite Hne in Hnone.
    apply Z.ltb_ge in Hpos. by rewrite Hpos in Hnone.
  - intros Hinv. destruct (Cache.sanitizeEntry raw) as [e|] eqn:E; [|done].
    exfalso. apply Hinv. by apply sanitizeEntry_Some in E as [? _].
Qed.

Lemma cache_writer_Some kv k e :
  cache_writer kv = Some (k, e) ->
  kv.1 = k /\ Cache.sanitizeEntry kv.2 = Some e.
Proof.
  unfold cache_writer. destruct (jstring_eqb kv.1 (js "__proto__")); [done|].
  destruct (Cache.sanitizeEntry kv.2); [|done].
  by intros [= <- <-].
Qed.

Lemma cache_writer_passes k raw e :
  k <> js "__proto__" -> Cache.sanitizeEntry raw = Some e ->
  cache_writer (k, raw) = Some (k, e).
Proof.
  intros Hk He. unfold cache_writer. cbn [fst snd].
  by rewrite (jstring_eqb_neq _ _ Hk), He.
Qed.

(** Every entry of a sanitized cache was stored for a raw entry of the input
    under the same key. *)
Lemma sanitize_get_Some value k e :
  obj_get k (sanitizeOllamaTitleCache value) = Some e ->
  exists raw, (k, raw) ∈ js_entries value /\ Cache.sanitizeEntry raw = Some e.
Proof.
  rewrite sanitize_as_collect. destruct (is_object value); [|done].
  rewrite obj_get_collect. simpl.
  destruct (last_write_inv cache_writer k (js_entries value) None)
    as [[-> _]|(l1 & [k' raw] & l2 & v & Hl & Hw & _ & ->)]; [done|].
  intros [= ->]. apply cache_writer_Some in Hw as [Hk Hs]. simpl in *.
  subst k'. exists raw. split; [|done].
  rewrite Hl. apply elem_of_app. right. apply list_elem_of_here.
Qed.

(** C5 (counterexample). A valid entry persisted under the empty key is
    stored under the empty key: not every key of a sanitized cache is a
    non-empty string. *)
Lemma sanitize_keeps_the_empty_key :
  ~ (forall k,
       k ∈ obj_keys (sanitizeOllamaTitleCache empty_key_raw) -> k <> []).
Proof.
  intros H. apply (H []); [|done]. vm_compute. apply list_elem_of_here.
Qed.

(** A raw entry that passes the validation is stored, under its own key,
    unless that key is [__proto__]. *)
Lemma sanitize_keeps_valid (value : JsValue) k raw :
  obj_wf (js_entries value) ->
  (k, raw) ∈ js_entries value -> raw_entry_valid raw ->
  k <> js "__proto__" ->
  exists e,
    obj_get k (sanitizeOllamaTitleCache value) = Some e
    /\ Cache.sanitizeEntry raw = Some e.
Proof.
  intros Hwf Hin Hvalid Hk.
  destruct (Cache.sanitizeEntry raw) as [e|] eqn:He;
    [|by apply sanitizeEntry_None in He].
  exists e. split; [|done].
  rewrite sanitize_as_collect.
  assert (is_object value = true) as ->.
  { destruct value; try done; by apply elem_of_nil in Hin. }
  rewrite obj_get_collect. simpl.
  destruct (last_write_inv cache_writer k (js_entries value) None)
    as [[_ Hno]|(l1 & [k' raw'] & l2 & v & Hl & Hw & _ & ->)].
  - exfalso. apply (Hno (k, raw) e Hin). by apply cache_writer_passes.
  - apply cache_writer_Some in Hw as [Hk' Hs]. simpl in *. subst k'.
    assert ((k, raw') ∈ js_entries value) as Hin'.
    { rewrite Hl. apply elem_of_app. right. apply list_elem_of_here. }
    apply (obj_get_elem_NoDup _ _ _ Hwf) in Hin, Hin'. congruence.
Qed.

(** C5 (amended). Every entry stored in the map returned by
    [sanitizeOllamaTitleCache] has passed validation: it was stored for a raw
    entry of the input under the same key, its title is that raw string and
    is not empty after trimming, its [mtime] is that raw number, finite and
    not negative, and its [lastUsed] is the raw one when that is a finite
    number and is omitted otherwise.  A raw entry that fails the
    validation is absent from the result.  The keys themselves are not
    validated: a raw entry that passes the validation is kept, with these
    fields, under whatever key it has (the empty string included), with one
    exception: nothing is stored under the key [__proto__], where the
    assignment [out[key] = ...] sets the prototype of the result and
    defines no property. *)
Theorem sanitize_entries_validated (value : JsValue) :
  (forall k e,
     obj_get k (sanitizeOllamaTitleCache value) = Some e ->
     entry_valid e
     /\ exists raw,
          (k, raw) ∈ js_entries value
          /\ raw_entry_valid raw
          /\ js_get raw (js "title") = JStr (title e)
          /\ js_get raw (js "mtime") = JNum (mtime e)
          /\ lastUsed e = carried_lastUsed raw)
  /\ (forall k raw,
        obj_wf (js_entries value) ->
        (k, raw) ∈ js_entries value -> ~ raw_entry_valid raw ->
        obj_get k (sanitizeOllamaTitleCache value) = None)
  /\ (forall k raw,
        obj_wf (js_entries value) ->
        (k, raw) ∈ js_entries value -> raw_entry_valid raw ->
        k <> js "__proto__" ->
        exists e,
          obj_get k (sanitizeOllamaTitleCache value) = Some e
          /\ js_get raw (js "title") = JStr (title e)
          /\ js_get raw (js "mtime") = JNum (mtime e)
          /\ lastUsed e = carried_lastUsed raw)
  /\ obj_get (js "__proto__") (sanitizeOllamaTitleCache value) = None.
Proof.
  split; [|split; [|split]].
  - intros k e Hget. apply sanitize_get_Some in Hget as (raw & Hin & Hs).
    apply sanitizeEntry_Some in Hs as (Hv & Ht & Hm & Hl & He).
    split; [done|]. by exists raw.
  - intros k raw Hwf Hin Hinv.
    destruct (obj_get k (sanitizeOllamaTitleCache value)) as [e|] eqn:E;
      [|done].
    apply sanitize_get_Some in E as (raw' & Hin' & Hs).
    apply (obj_get_elem_NoDup _ _ _ Hwf) in Hin, Hin'.
    assert (raw' = raw) as -> by congruence.
    apply sanitizeEntry_None in Hinv. congruence.
  - intros k raw Hwf Hin Hvalid Hk.
    destruct (sanitize_keeps_valid value k raw Hwf Hin Hvalid Hk)
      as (e & Hget & Hs).
    apply sanitizeEntry_Some in Hs as (_ & Ht & Hm & Hl & _).
    by exists e.
  - apply sanitize_no_proto.
Qed.

Lemma sanitize_entries_validated_witness :
  obj_get (js "bad2") (sanitizeOllamaTitleCache test_raw_cache) = None
  /\ exists e,
       obj_get (js "ok") (sanitizeOllamaTitleCache test_raw_cache) = Some e
       /\ JStr (js "Hello") = JStr (title e)
       /\ JNum (Finite 123) = JNum (mtime e)
       /\ lastUsed e = None.
Proof.
  pose proof (sanitize_entries_validated test_raw_cache) as (_ & H1 & H2 & _).
  assert (obj_wf (js_entries test_raw_cache)) as Hwf.
  { unfold obj_wf. apply (bool_decide_unpack _). vm_compute. exact I. }
  split.
  - apply (H1 (js "bad2")
              (JObj [ (js "mtime", JNum (Finite 1)); (js "title", JStr []) ])).
    + exact Hwf.
    + vm_compute. do 2 apply list_elem_of_further. apply list_elem_of_here.
    + intros (_ & (t & Ht & Hne) & _). vm_compute in Ht.
      injection Ht as <-. by apply Hne.
  - apply (H2 (js "ok")
              (JObj [ (js "mtime", JNum (Finite 123));
                      (js "title", JStr (js "Hello")) ])).
    + exact Hwf.
    + vm_compute. apply list_elem_of_here.
    + split; [reflexivity|]. split.
      * exists (js "Hello"). split; [reflexivity|]. vm_compute. discriminate.
      * exists 123. split; [reflexivity|]. lia.
    + vm_compute. discriminate.
Defined.

(** A valid entry persisted under the key [__proto__] is dropped; the other
    entries are kept. *)
Example test_sanitize_drops_the_proto_key :
  sanitizeOllamaTitleCache proto_key_raw
  = [ (js "a", mkEntry (Finite 2) (js "A") None) ].
Proof. reflexivity. Qed.

(* ===================================================================== *)
(** * Sanitizing twice *)
(* ===================================================================== *)

Lemma fold_left_fmap {A B C} (f : A -> C -> A) (g : B -> C) (l : list B)
    (a : A) :
  fold_left f (map g l) a = fold_left (fun a x => f a (g x)) l a.
Proof. revert a. induction l as [|x l IH]; intros a; [done|]. apply IH. Qed.

Lemma entry_to_value_title omit e :
  js_get (entry_to_value omit e) (js "title") = JStr (title e).
Proof. destruct e as [m t [n|]], omit; reflexivity. Qed.

Lemma entry_to_value_mtime omit e :
  js_get (entry_to_value omit e) (js "mtime") = JNum (mtime e).
Proof. destruct e as [m t [n|]], omit; reflexivity. Qed.

Lemma entry_to_value_lastUsed omit e :
  js_get (entry_to_value omit e) (js "lastUsed")
  = match lastUsed e with
    | Some n => JNum n
    | None => JUndefined
    end.
Proof. destruct e as [m t [n|]], omit; reflexivity. Qed.

Lemma sanitizeEntry_entry_to_value omit e :
  entry_valid e -> Cache.sanitizeEntry (entry_to_value omit e) = Some e.
Proof.
  intros (Ht & (m & Hm & Hpos) & Hl).
  unfold Cache.sanitizeEntry.
  rewrite entry_to_value_title, entry_to_value_mtime, entry_to_value_lastUsed.
  destruct e as [mt t lu]. cbn [title mtime lastUsed] in *. subst mt.
  apply is_empty_false in Ht. apply Z.ltb_ge in Hpos.
  unfold entry_to_value, entry_of_fields.
  cbn [is_object negb field_of isFinite num_lt_zero orb].
  rewrite Ht, Hpos. by destruct Hl as [->|[z ->]].
Qed.

Lemma sanitize_wf value : obj_wf (sanitizeOllamaTitleCache value).
Proof.
  rewrite sanitize_as_collect. destruct (is_object value).
  - apply collect_wf. apply NoDup_nil_2.
  - apply NoDup_nil_2.
Qed.

Lemma sanitize_ordered value :
  js_ordered (obj_keys (sanitizeOllamaTitleCache value)).
Proof.
  rewrite sanitize_as_collect. destruct (is_object value).
  - apply collect_ordered. constructor.
  - constructor.
Qed.

Lemma sanitize_elem_valid value k e :
  (k, e) ∈ sanitizeOllamaTitleCache value -> entry_valid e.
Proof.
  intros Hin. apply (obj_get_elem_NoDup _ _ _ (sanitize_wf value)) in Hin.
  apply sanitize_get_Some in Hin as (raw & _ & Hs).
  by apply sanitizeEntry_Some in Hs as (_ & _ & _ & _ & He).
Qed.

(** C6. [sanitizeOllamaTitleCache] is idempotent: sanitizing the output of
    [sanitizeOllamaTitleCache x], seen as a plain map again (with a missing
    [lastUsed] as an [undefined] property or as no property), gives the
    same cache, for every input [x]. *)
Theorem sanitize_idempotent (x : JsValue) (omit : bool) :
  sanitizeOllamaTitleCache (cache_to_value omit (sanitizeOllamaTitleCache x))
  = sanitizeOllamaTitleCache x.
Proof.
  set (c := sanitizeOllamaTitleCache x).
  unfold sanitizeOllamaTitleCache at 1, cache_to_value. cbn.
  rewrite fold_left_fmap.
  rewrite (fold_left_ext_in _ (fun out kv => obj_set kv.1 kv.2 out)).
  - apply (obj_rebuild [] c); [apply sanitize_wf | apply sanitize_ordered].
  - intros out [k e] Hin. unfold Cache.sanitize_step. cbn [fst snd].
    rewrite (sanitizeEntry_entry_to_value omit e
               (sanitize_elem_valid x k e Hin)).
    apply obj_assign_other. intros ->.
    apply (obj_get_elem_NoDup _ _ _ (sanitize_wf x)) in Hin.
    unfold c in Hin. by rewrite sanitize_no_proto in Hin.
Qed.

(* ===================================================================== *)
(** * [stripYamlFrontmatter] *)
(* ===================================================================== *)

Lemma is_fence_line_true l : is_fence_line l = true <-> trim l = fence.
Proof. apply jstring_eqb_eq. Qed.

Lemma is_fence_line_false l : is_fence_line l = false <-> trim l <> fence.
Proof.
  rewrite <- is_fence_line_true. destruct (is_fence_line l); split; congruence.
Qed.

Lemma after_closing_fence_None ls :
  after_closing_fence ls = None <->
  forall i l, ls !! i = Some l -> trim l <> fence.
Proof.
  induction ls as [|l0 ls IH]; simpl.
  - split; [intros _ i l H; by rewrite lookup_nil in H | done].
  - destruct (is_fence_line l0) eqn:E.
    + split; [done|]. intros H. apply is_fence_line_true in E.
      exfalso. by apply (H 0%nat l0).
    + rewrite IH. apply is_fence_line_false in E. split.
      * intros H [|i] l; simpl; [by intros [= <-] | apply H].
      * intros H i l. apply (H (S i)).
Qed.

Lemma after_closing_fence_Some ls rest :
  after_closing_fence ls = Some rest <->
  exists i l,
    ls !! i = Some l /\ trim l = fence /\ rest = drop (S i) ls
    /\ forall j l', (j < i)%nat -> ls !! j = Some l' -> trim l' <> fence.
Proof.
  revert rest. induction ls as [|l0 ls IH]; intros rest; simpl.
  - split; [done|]. intros (i & l & H & _). by rewrite lookup_nil in H.
  - destruct (is_fence_line l0) eqn:E.
    + apply is_fence_line_true in E. split.
      * intros [= <-]. exists 0%nat, l0. repeat split; try done.
        intros j l' Hj. lia.
      * intros ([|i] & l & Hl & Hf & -> & Hmin); [done|].
        exfalso. apply (Hmin 0%nat l0); [lia | done | done].
    + apply is_fence_line_false in E. rewrite IH. split.
      * intros (i & l & Hl & Hf & -> & Hmin). exists (S i), l.
        repeat split; try done.
        intros [|j] l' Hj; simpl; [by intros [= <-] | apply Hmin; lia].
      * intros ([|i] & l & Hl & Hf & -> & Hmin).
        -- simpl in Hl. injection Hl as <-. done.
        -- exists i, l. repeat split; try done.
           intros j l' Hj. apply (Hmin (S j)). lia.
Qed.

Lemma split_lines_nonempty s : split_lines s <> [].
Proof.
  induction s as [|c s IH]; simpl; [done|].
  destruct (is_code 10 c); [done|].
  destruct (is_code 13 c && starts_with_lf s); [done|].
  by destruct (split_lines s).
Qed.

Lemma lookup_tail {A} (l : list A) i : tail l !! i = l !! S i.
Proof. by destruct l. Qed.

Lemma drop_tail {A} (l : list A) i : drop i (tail l) = drop (S i) l.
Proof. destruct l; [by destruct i | done]. Qed.

(** C7 (counterexample). The first line [" ---"] is not exactly the fence
    marker, and yet the front matter is stripped. *)
Lemma strip_accepts_a_padded_fence :
  nth 0 (split_lines padded_fence_note) [] <> fence
  /\ stripYamlFrontmatter padded_fence_note <> padded_fence_note
  /\ stripYamlFrontmatter padded_fence_note = js "b".
Proof. vm_compute. repeat split; discriminate. Qed.

(** C7 (amended). [stripYamlFrontmatter] returns its input unchanged when
    the first line, once trimmed, is not the fence marker [---], or the text
    has fewer than 3 lines, or no line behind the first is the fence marker
    once trimmed; otherwise it returns the lines strictly behind the first
    such line, joined by line feeds.  The note of the test loses its front
    matter. *)
Theorem strip_frontmatter_spec (text : jstring) :
  let lines := split_lines text in
  ((length lines < 3)%nat
   \/ trim (nth 0 lines []) <> fence
   \/ (forall i l, (1 <= i)%nat -> lines !! i = Some l -> trim l <> fence) ->
   stripYamlFrontmatter text = text)
  /\ (forall i l,
        (3 <= length lines)%nat -> trim (nth 0 lines []) = fence ->
        (1 <= i)%nat -> lines !! i = Some l -> trim l = fence ->
        (forall j l', (1 <= j < i)%nat -> lines !! j = Some l' ->
                      trim l' <> fence) ->
        stripYamlFrontmatter text = join [newline] (drop (S i) lines))
  /\ stripYamlFrontmatter test_note
     = js ("# Heading" ++ line_feed ++ "Content").
Proof.
  intros lines. split; [|split].
  - intros H. unfold stripYamlFrontmatter. fold lines.
    destruct text as [|c text]; [done|]. cbn [is_empty].
    destruct (length lines <? 3)%nat eqn:Hlen; [done|].
    destruct (is_fence_line (nth 0 lines [])) eqn:Hfirst; [|done].
    cbn [negb orb].
    apply Nat.ltb_ge in Hlen. apply is_fence_line_true in Hfirst.
    destruct H as [H|[H|H]]; [lia | done |].
    assert (after_closing_fence (tail lines) = None) as ->; [|done].
    apply after_closing_fence_None. intros i l. rewrite lookup_tail.
    apply H. lia.
  - intros i l Hlen Hfirst Hi Hl Hf Hmin.
    unfold stripYamlFrontmatter. fold lines.
    destruct text as [|c text]; [simpl in Hlen; lia|]. cbn [is_empty].
    apply Nat.ltb_ge in Hlen. rewrite Hlen.
    apply is_fence_line_true in Hfirst. rewrite Hfirst. cbn [negb orb].
    destruct i as [|i]; [lia|].
    assert (after_closing_fence (tail lines) = Some (drop (S (S i)) lines))
      as ->; [|done].
    apply after_closing_fence_Some. exists i, l.
    rewrite lookup_tail, drop_tail. repeat split; try done.
    intros j l' Hj. rewrite lookup_tail. apply Hmin. lia.
  - reflexivity.
Qed.

Lemma strip_frontmatter_spec_witness :
  stripYamlFrontmatter padded_fence_note
  = join [newline] (drop 3 (split_lines padded_fence_note)).
Proof.
  pose proof (strip_frontmatter_spec padded_fence_note) as (_ & H & _).
  apply (H 2%nat (js "---")).
  - vm_compute. lia.
  - reflexivity.
  - lia.
  - reflexivity.
  - reflexivity.
  - intros j l' Hj. assert (j = 1%nat) as -> by lia.
    intros [= <-]. vm_compute. discriminate.
Defined.

(* ===================================================================== *)
(** * [sanitizeListItemColorTags] *)
(* ===================================================================== *)

Lemma valid_tag_key_nonempty key : valid_tag_key key = true -> key <> [].
Proof. by intros H ->. Qed.

Lemma sanitizeTag_Some rawKey rawVal key color :
  sanitizeTag rawKey rawVal = Some (key, color) <->
  key = trim rawKey /\ valid_tag_key key = true
  /\ exists rawColor,
       rawVal = JStr rawColor /\ color = normalizeListItemColor rawColor
       /\ color <> [].
Proof.
  unfold sanitizeTag. fold (valid_tag_key (trim rawKey)). split.
  - destruct (is_empty (trim rawKey)); [done|].
    destruct (valid_tag_key (trim rawKey)) eqn:Hvalid; cbn [negb]; [|done].
    destruct rawVal as [| | | |rawColor| |]; try done.
    destruct (is_empty (normalizeListItemColor rawColor)) eqn:Hc; [done|].
    intros [= <- <-]. apply is_empty_false in Hc. eauto 10.
  - intros (-> & Hvalid & rawColor & -> & -> & Hc).
    apply valid_tag_key_nonempty in Hvalid as Hne.
    apply is_empty_false in Hne, Hc. by rewrite Hne, Hvalid, Hc.
Qed.

Lemma sanitize_tags_as_collect value :
  sanitizeListItemColorTags value
  = if is_object value
    then fold_left (collect_step tag_writer) (js_entries value) []
    else [].
Proof.
  unfold sanitizeListItemColorTags. destruct (is_object value); [|done].
  cbn [negb]. apply fold_left_ext_in. intros out kv _.
  unfold sanitizeTag_step, collect_step, tag_writer.
  by destruct (sanitizeTag kv.1 kv.2).
Qed.

(** C10 (counterexample). When another raw key is the trimmed key itself,
    the two entries collide and the later one wins: the output does not hold
    the colour of the entry with the padded key. *)
Lemma trimmed_keys_collide :
  (js "  day:2025-12-15  ", JStr (js "#ABC")) ∈ js_entries colliding_tags
  /\ valid_tag_key (js "  day:2025-12-15  ") = false
  /\ valid_tag_key (trim (js "  day:2025-12-15  ")) = true
  /\ normalizeListItemColor (js "#ABC") = js "#aabbcc"
  /\ obj_get (trim (js "  day:2025-12-15  "))
             (sanitizeListItemColorTags colliding_tags)
     <> Some (normalizeListItemColor (js "#ABC")).
Proof.
  split; [apply list_elem_of_here|]. vm_compute. repeat split; discriminate.
Qed.

(** C10 (amended). [sanitizeListItemColorTags] trims each raw key before
    validating it against the grammars [day:YYYY-MM-DD] and
    [file:<nonempty-rest>], and stores under the trimmed key.  For every raw
    map with a key that matches a grammar once trimmed and a valid colour
    under it, the output holds the trimmed key; its value is the normalized
    colour of the last raw entry, in the order of enumeration, whose key
    trims to the same key and whose colour is valid.  That is the entry
    itself when no other raw key trims to the same key. *)
Theorem sanitize_tags_trims_keys (value : JsValue)
    (rawKey rawColor : jstring) :
  is_object value = true ->
  (rawKey, JStr rawColor) ∈ js_entries value ->
  valid_tag_key (trim rawKey) = true ->
  normalizeListItemColor rawColor <> [] ->
  let out := sanitizeListItemColorTags value in
  (exists l1 k' c' l2,
     js_entries value = l1 ++ (k', JStr c') :: l2
     /\ trim k' = trim rawKey
     /\ normalizeListItemColor c' <> []
     /\ (forall k'' c'', (k'', JStr c'') ∈ l2 -> trim k'' = trim rawKey ->
                         normalizeListItemColor c'' = [])
     /\ obj_get (trim rawKey) out = Some (normalizeListItemColor c'))
  /\ ((forall k' v', (k', v') ∈ js_entries value -> trim k' = trim rawKey ->
                     (k', v') = (rawKey, JStr rawColor)) ->
      obj_get (trim rawKey) out = Some (normalizeListItemColor rawColor)).
Proof.
  intros Hobj Hin Hvalid Hcolor out.
  assert (exists l1 k' c' l2,
     js_entries value = l1 ++ (k', JStr c') :: l2
     /\ trim k' = trim rawKey
     /\ normalizeListItemColor c' <> []
     /\ (forall k'' c'', (k'', JStr c'') ∈ l2 -> trim k'' = trim rawKey ->
                         normalizeListItemColor c'' = [])
     /\ obj_get (trim rawKey) out = Some (normalizeListItemColor c'))
    as Hlast.
  { subst out. rewrite sanitize_tags_as_collect, Hobj, obj_get_collect.
    destruct (last_write_inv tag_writer (trim rawKey) (js_entries value)
                (obj_get (trim rawKey) []))
      as [[_ Hno]|(l1 & [k' v'] & l2 & c & Hl & Hw & Hl2 & Hget)].
    - exfalso.
      apply (Hno (rawKey, JStr rawColor) (normalizeListItemColor rawColor));
        [done|].
      apply sanitizeTag_Some. eauto 10.
    - apply sanitizeTag_Some in Hw as (Hk & _ & c' & Hv & -> & Hc).
      cbn [fst snd] in *. subst v'.
      exists l1, k', c', l2. repeat split; try done.
      intros k'' c'' Hin'' Hk''.
      destruct (normalizeListItemColor c'') as [|a s] eqn:E; [done|].
      exfalso. apply (Hl2 (k'', JStr c'') (a :: s) Hin'').
      apply sanitizeTag_Some. cbn [fst snd]. rewrite Hk''.
      repeat split; [done|]. exists c''. by rewrite E. }
  split; [done|].
  intros Halone.
  destruct Hlast as (l1 & k' & c' & l2 & Hl & Hk & _ & _ & Hget).
  assert ((k', JStr c') = (rawKey, JStr rawColor)) as [= _ <-]; [|done].
  apply Halone; [|done]. rewrite Hl.
  apply elem_of_app. right. apply list_elem_of_here.
Qed.

Lemma sanitize_tags_trims_keys_witness :
  obj_get (js "day:2025-12-15") (sanitizeListItemColorTags padded_tag)
  = Some (js "#aabbcc").
Proof.
  pose proof (sanitize_tags_trims_keys padded_tag (js "  day:2025-12-15  ")
                (js "#ABC")) as H.
  apply H.
  - reflexivity.
  - apply list_elem_of_here.
  - reflexivity.
  - vm_compute. discriminate.
  - intros k' v' Hin _. by apply list_elem_of_singleton in Hin.
Defined.

(* ===================================================================== *)
(** * The cache operations on the heap: what they leave alone *)
(* ===================================================================== *)

Module HeapFacts.
Import HeapCache.

Lemma prefix_alloc (h0 h : Heap) (o : HObject) :
  h0 `prefix_of` h -> h0 `prefix_of` h ++ [o].
Proof. intros [k ->]. exists (k ++ [o]). by rewrite app_assoc. Qed.

(** An update at a location that did not exist in [h0] leaves [h0] alone. *)
Lemma prefix_store (h0 h : Heap) (l : loc) (o : HObject) :
  h0 `prefix_of` h -> (length h0 <= l)%nat -> h0 `prefix_of` <[l := o]> h.
Proof.
  intros [k ->] Hl. exists (<[(l - length h0)%nat := o]> k).
  by rewrite insert_app_r_alt.
Qed.

Lemma prefix_lookup (h0 h : Heap) (l : loc) (o : HObject) :
  h0 `prefix_of` h -> h0 !! l = Some o -> h !! l = Some o.
Proof. intros [k ->] H. by apply lookup_app_l_Some. Qed.

Lemma prefix_length (h0 h : Heap) :
  h0 `prefix_of` h -> (length h0 <= length h)%nat.
Proof. intros [k ->]. rewrite length_app. lia. Qed.

Lemma load_Some (h : Heap) (l : loc) (o : HObject) :
  h !! l = Some o -> load l h = Some (o, h).
Proof. intros H. unfold load. by rewrite H. Qed.

Lemma load_lt (h : Heap) (l : loc) :
  (l < length h)%nat -> exists o, h !! l = Some o /\ load l h = Some (o, h).
Proof.
  intros H. destruct (lookup_lt_is_Some_2 h l H) as [o Ho].
  exists o. split; [done|]. by apply load_Some.
Qed.

Lemma store_lt (h : Heap) (l : loc) (o : HObject) :
  (l < length h)%nat -> store l o h = Some (tt, <[l := o]> h).
Proof.
  intros H. unfold store. destruct (h !! l) eqn:E; [done|].
  apply lookup_ge_None in E. unfold loc in *. lia.
Qed.

(** ** [sanitizeOllamaTitleCache] *)

Lemma sanitizeEntry_ok (h0 h : Heap) (raw : Val) :
  h0 `prefix_of` h -> val_ok h0 raw ->
  exists e, sanitizeEntry raw h = Some (e, h).
Proof.
  intros Hpre Hok. destruct raw as [| | | | |r]; try by eexists.
  simpl in Hok. pose proof (prefix_length _ _ Hpre).
  destruct (load_lt h r ltac:(lia)) as (o & _ & Hload).
  unfold sanitizeEntry, bind. rewrite Hload. by eexists.
Qed.

Lemma sanitize_step_frame (h0 h : Heap) (out : loc) (kv : jstring * Val) :
  h0 `prefix_of` h -> (length h0 <= out < length h)%nat -> val_ok h0 kv.2 ->
  exists h',
    sanitize_step out kv h = Some (tt, h')
    /\ h0 `prefix_of` h' /\ (out < length h')%nat.
Proof.
  intros Hpre Hout Hok.
  destruct (sanitizeEntry_ok h0 h kv.2 Hpre Hok) as [e He].
  unfold sanitize_step, bind at 1. rewrite He.
  destruct e as [e|]; [|exists h; unfold ret; split; [done|split; [done|lia]]].
  unfold bind, alloc.
  destruct (load_lt (h ++ [entry_object e]) out) as (o & _ & ->).
  { rewrite length_app. simpl. lia. }
  rewrite store_lt by (rewrite length_app; simpl; lia).
  eexists. split; [done|]. split.
  - apply prefix_store; [by apply prefix_alloc | lia].
  - rewrite length_insert, length_app. simpl. lia.
Qed.

Lemma sanitize_loop_frame (h0 h : Heap) (out : loc) (obj : HObject) :
  h0 `prefix_of` h -> (length h0 <= out < length h)%nat ->
  Forall (fun kv => val_ok h0 kv.2) obj ->
  exists h',
    for_each (sanitize_step out) obj h = Some (tt, h')
    /\ h0 `prefix_of` h' /\ (out < length h')%nat.
Proof.
  revert h. induction obj as [|kv obj IH]; intros h Hpre Hout Hok.
  - exists h. split; [done|]. split; [done|lia].
  - apply Forall_cons in Hok as [Hkv Hok].
    destruct (sanitize_step_frame h0 h out kv Hpre Hout Hkv)
      as (h1 & Hstep & Hpre1 & Hout1).
    destruct (IH h1 Hpre1 ltac:(lia) Hok) as (h' & Hloop & Hpre' & Hout').
    exists h'. cbn [for_each]. unfold bind. rewrite Hstep. by split.
Qed.

Lemma closed_lookup (h : Heap) (l : loc) (o : HObject) :
  closed h -> h !! l = Some o -> Forall (fun kv => val_ok h kv.2) o.
Proof.
  intros Hc Hl. unfold closed in Hc. rewrite Forall_forall in Hc.
  apply Hc. by apply list_elem_of_lookup_2 in Hl.
Qed.

Lemma sanitize_frame (h : Heap) (value : Val) :
  closed h -> val_ok h value ->
  exists out h',
    sanitizeOllamaTitleCache value h = Some (out, h')
    /\ h `prefix_of` h' /\ (length h <= out < length h')%nat.
Proof.
  intros Hc Hok.
  assert (exists out h', alloc [] h = Some (out, h')
            /\ h `prefix_of` h' /\ (length h <= out < length h')%nat) as Hnew.
  { exists (length h), (h ++ [[]]). split; [done|]. split.
    - by apply prefix_alloc.
    - rewrite length_app. simpl. lia. }
  destruct value as [| | | | |l]; try exact Hnew.
  simpl in Hok. destruct (load_lt h l Hok) as (obj & Hobj & Hload).
  unfold sanitizeOllamaTitleCache, bind. rewrite Hload. unfold alloc.
  destruct (sanitize_loop_frame h (h ++ [[]]) (length h) obj)
    as (h' & Hloop & Hpre & Hout).
  - by apply prefix_alloc.
  - rewrite length_app. simpl. lia.
  - by apply (closed_lookup h l).
  - rewrite Hloop. exists (length h), h'. unfold ret. split; [done|].
    split; [done|lia].
Qed.

End HeapFacts.

Module HeapPrune.
Import HeapCache HeapFacts.

Lemma bind_eq {A B} (m : M A) (f : A -> M B) (h h' : Heap) (a : A) :
  m h = Some (a, h') -> bind m f h = f a h'.
Proof. intros H. unfold bind. by rewrite H. Qed.

Lemma lastUsed_key_ok (h : Heap) (o : HObject) (k : jstring) :
  Forall (fun kv => val_ok h kv.2) o ->
  lastUsed_key o k h = Some (heap_sort_key h o k, h).
Proof.
  intros Hok. unfold lastUsed_key, heap_sort_key.
  destruct (obj_get k o) as [[| | | | |r]|] eqn:E; try done.
  apply obj_get_Some_elem in E. rewrite Forall_forall in Hok.
  apply Hok in E. simpl in E.
  destruct (load_lt h r E) as (entry & Hentry & Hload).
  unfold bind. rewrite Hload. unfold loc in *. by rewrite Hentry.
Qed.

Lemma sortable_ok (h : Heap) (o : HObject) (keys : list jstring) :
  Forall (fun kv => val_ok h kv.2) o ->
  map_m (fun k => do lu <- lastUsed_key o k ;; ret (k, lu)) keys h
  = Some (map (fun k => (k, heap_sort_key h o k)) keys, h).
Proof.
  intros Hok. induction keys as [|k keys IH]; [done|].
  cbn [map_m map].
  erewrite bind_eq; [|erewrite bind_eq; [|by apply lastUsed_key_ok]; done].
  by erewrite bind_eq; [|exact IH].
Qed.

(** The loop of [delete]s works on the copy only. *)
Lemma delete_loop_frame (h0 h : Heap) (next : loc) (n : HObject)
    (toDelete : list (jstring * Z)) :
  h0 `prefix_of` h -> (length h0 <= next)%nat -> h !! next = Some n ->
  exists h',
    for_each (fun kz : jstring * Z =>
                do n <- load next ;; store next (obj_delete kz.1 n))
             toDelete h = Some (tt, h')
    /\ h0 `prefix_of` h'
    /\ length h' = length h
    /\ h' !! next
       = Some (fold_left (fun n kz => obj_delete kz.1 n) toDelete n).
Proof.
  revert h n. induction toDelete as [|kz l IH]; intros h n Hpre Hnext Hn.
  - exists h. by repeat split.
  - assert (next < length h)%nat as Hlt by (by apply lookup_lt_Some in Hn).
    assert ((do n <- load next ;; store next (obj_delete kz.1 n)) h
            = Some (tt, <[next := obj_delete kz.1 n]> h)) as Hstep.
    { erewrite bind_eq; [|by apply load_Some]. by apply store_lt. }
    cbn [for_each fold_left].
    destruct (IH (<[next := obj_delete kz.1 n]> h) (obj_delete kz.1 n))
      as (h' & Hloop & Hpre' & Hlen & Hget).
    + by apply prefix_store.
    + done.
    + by apply list_lookup_insert_eq.
    + exists h'. rewrite (bind_eq _ _ _ _ _ Hstep).
      repeat split; try done. by rewrite Hlen, length_insert.
Qed.

(** What [pruneOllamaTitleCache] does on the heap: it returns its argument
    in the heap as it is, or the location of a new object, the copy of the
    cache without the deleted keys. *)
Lemma prune_exact (h : Heap) (cache : loc) (maxEntries : option JsNumber)
    (o : HObject) :
  h !! cache = Some o -> Forall (fun kv => val_ok h kv.2) o ->
  let toDelete :=
    to_delete (heap_sort_key h o) (obj_keys o) (max_of maxEntries) in
  if nothing_to_prune (length o) maxEntries || (length toDelete =? 0)%nat
  then pruneOllamaTitleCache cache maxEntries h = Some (cache, h)
  else exists h',
         pruneOllamaTitleCache cache maxEntries h = Some (length h, h')
         /\ h `prefix_of` h'
         /\ h' !! length h
            = Some (fold_left (fun n kz => obj_delete kz.1 n) toDelete o).
Proof.
  intros Hcache Hok toDelete. subst toDelete.
  unfold pruneOllamaTitleCache, nothing_to_prune, to_delete.
  destruct (num_falsy (max_of maxEntries) || num_le_zero (max_of maxEntries))
    eqn:Hguard; [done|].
  rewrite (bind_eq _ _ _ _ _ (load_Some _ _ _ Hcache)).
  assert (length (obj_keys o) = length o) as Hlen
    by (unfold obj_keys; apply length_map).
  rewrite Hlen.
  destruct (length_le_num (length o) (max_of maxEntries)) eqn:Hle; [done|].
  rewrite (bind_eq _ _ _ _ _ (sortable_ok h o _ Hok)).
  set (toDelete := take _ _).
  cbn [orb]. destruct (length toDelete =? 0)%nat; [done|].
  rewrite (bind_eq (alloc o) _ h (h ++ [o]) (length h) eq_refl).
  destruct (delete_loop_frame h (h ++ [o]) (length h) o toDelete)
    as (h' & Hloop & Hpre & Hlen' & Hget).
  - by apply prefix_alloc.
  - done.
  - by rewrite lookup_app_r, Nat.sub_diag by done.
  - rewrite (bind_eq _ _ _ _ _ Hloop). unfold ret. by exists h'.
Qed.

Lemma prune_frame (h : Heap) (cache : loc) (maxEntries : option JsNumber)
    (o : HObject) :
  h !! cache = Some o -> Forall (fun kv => val_ok h kv.2) o ->
  exists r h' o',
    pruneOllamaTitleCache cache maxEntries h = Some (r, h')
    /\ h `prefix_of` h'
    /\ (nothing_to_prune (length o) maxEntries = true -> r = cache /\ h' = h)
    /\ (r = cache \/ (length h <= r)%nat)
    /\ h' !! r = Some o'
    /\ (forall k v, obj_get k o' = Some v -> obj_get k o = Some v).
Proof.
  intros Hcache Hok.
  pose proof (prune_exact h cache maxEntries o Hcache Hok) as H.
  cbn zeta in H.
  destruct (nothing_to_prune (length o) maxEntries) eqn:Hn; cbn [orb] in H.
  { exists cache, h, o. repeat split; try done. by left. }
  destruct (length _ =? 0)%nat.
  { exists cache, h, o. repeat split; try done. by left. }
  destruct H as (h' & Hp & Hpre & Hget).
  eexists (length h), h', _. repeat split; try done.
  - by right.
  - intros k v. rewrite fold_left_delete_fst, obj_get_delete_all.
    by case_decide.
Qed.

Lemma val_ok_mono (h h' : Heap) (v : Val) :
  (length h <= length h')%nat -> val_ok h v -> val_ok h' v.
Proof. destruct v; simpl; try done. lia. Qed.

Lemma obj_set_elem {V} k v (o : list (jstring * V)) kv :
  kv ∈ obj_set k v o -> kv = (k, v) \/ kv ∈ o.
Proof.
  unfold obj_set. destruct (obj_has k o).
  - induction o as [|[k1 v1] o IH]; simpl; [by right|].
    destruct (jstring_eqb k1 k) eqn:E.
    + apply jstring_eqb_eq in E as ->.
      intros [->|H]%elem_of_cons; [by left|right].
      by apply list_elem_of_further.
    + intros [->|H]%elem_of_cons; [right; apply list_elem_of_here|].
      destruct (IH H) as [->|H']; [by left|right].
      by apply list_elem_of_further.
  - rewrite obj_create_perm. intros [->|H]%elem_of_cons; auto.
Qed.

Lemma upsert_frame (h : Heap) (dateNow : JsNumber) (args : UpsertArgs) :
  closed h ->
  (forall l, cache args = Some l -> (l < length h)%nat) ->
  exists r h',
    upsertOllamaTitleCacheEntry dateNow args h = Some (r, h')
    /\ h `prefix_of` h' /\ (length h <= r)%nat.
Proof.
  intros Hc Hcache. unfold upsertOllamaTitleCacheEntry.
  assert (exists base,
            match cache args with
            | Some l => load l
            | None => ret []
            end h = Some (base, h)
            /\ Forall (fun kv => val_ok h kv.2) base) as (base & Hbase & Hok).
  { destruct (cache args) as [l|].
    - destruct (load_lt h l (Hcache l eq_refl)) as (o & Ho & Hload).
      exists o. split; [done|]. by apply (closed_lookup h l).
    - exists []. split; [done|]. constructor. }
  rewrite (bind_eq _ _ _ _ _ Hbase).
  set (e := entry_object _).
  rewrite (bind_eq (alloc e) _ h (h ++ [e]) (length h) eq_refl).
  set (next := obj_set _ _ _).
  rewrite (bind_eq (alloc next) _ (h ++ [e]) ((h ++ [e]) ++ [next])
             (length (h ++ [e])) eq_refl).
  set (h2 := (h ++ [e]) ++ [next]).
  assert (length h2 = S (S (length h))) as Hlen2
    by (unfold h2; rewrite !length_app; simpl; lia).
  destruct (prune_frame h2 (length (h ++ [e])) (maxEntries args) next)
    as (r & h' & o' & Hprune & Hpre & _ & Hr & _).
  - unfold h2. by rewrite lookup_app_r, Nat.sub_diag by done.
  - apply Forall_forall. intros kv Hin.
    apply obj_set_elem in Hin as [->|Hin].
    + simpl. lia.
    + rewrite Forall_forall in Hok. apply (val_ok_mono h); [lia|].
      by apply Hok.
  - exists r, h'. split; [done|]. split.
    + etrans; [|exact Hpre]. unfold h2. by do 2 apply prefix_alloc.
    + rewrite length_app in Hr. simpl in Hr.
      apply prefix_length in Hpre. lia.
Qed.

End HeapPrune.

(* ===================================================================== *)
(** * No operation mutates its input *)
(* ===================================================================== *)

(** C9. The cache operations never mutate their input in place.  On a heap
    in which every reference denotes an object, each of
    [sanitizeOllamaTitleCache], [upsertOllamaTitleCacheEntry] and
    [pruneOllamaTitleCache] returns, and every object of the heap before the
    call (the input mapping, its key set and every entry among them) is the
    same object after it; the first two return a new container.
    [pruneOllamaTitleCache] returns the input mapping itself, in a heap that
    is the same, when [maxEntries] is absent, zero or negative or the number
    of entries is at most [maxEntries]; otherwise what it returns is the
    input or a new container, and every entry that it retains is the value
    (the same reference) that the input holds under the same key. *)
Theorem cache_operations_do_not_mutate (h : HeapCache.Heap) :
  HeapCache.closed h ->
  (forall value,
     HeapCache.val_ok h value ->
     exists out h',
       HeapCache.sanitizeOllamaTitleCache value h = Some (out, h')
       /\ (forall l o, h !! l = Some o -> h' !! l = Some o)
       /\ (length h <= out < length h')%nat)
  /\ (forall dateNow args,
        (forall l, HeapCache.cache args = Some l -> (l < length h)%nat) ->
        exists r h',
          HeapCache.upsertOllamaTitleCacheEntry dateNow args h = Some (r, h')
          /\ (forall l o, h !! l = Some o -> h' !! l = Some o)
          /\ (length h <= r)%nat)
  /\ (forall cache maxEntries o,
        h !! cache = Some o ->
        exists r h' o',
          HeapCache.pruneOllamaTitleCache cache maxEntries h = Some (r, h')
          /\ (forall l o, h !! l = Some o -> h' !! l = Some o)
          /\ (nothing_to_prune (length o) maxEntries = true ->
              r = cache /\ h' = h)
          /\ (r = cache \/ (length h <= r)%nat)
          /\ h' !! r = Some o'
          /\ (forall k v, obj_get k o' = Some v -> obj_get k o = Some v)).
Proof.
  intros Hc. split; [|split].
  - intros value Hok.
    destruct (HeapFacts.sanitize_frame h value Hc Hok)
      as (out & h' & Hs & Hpre & Hout).
    exists out, h'. split; [done|]. split; [|done].
    intros l o. by apply HeapFacts.prefix_lookup.
  - intros dateNow args Hcache.
    destruct (HeapPrune.upsert_frame h dateNow args Hc Hcache)
      as (r & h' & Hu & Hpre & Hr).
    exists r, h'. split; [done|]. split; [|done].
    intros l o. by apply HeapFacts.prefix_lookup.
  - intros cache maxEntries o Hcache.
    destruct (HeapPrune.prune_frame h cache maxEntries o Hcache
                (HeapFacts.closed_lookup h cache o Hc Hcache))
      as (r & h' & o' & Hp & Hpre & Hsame & Hr & Ho' & Hkeep).
    exists r, h', o'. repeat split; try done.
    + intros l o0. by apply HeapFacts.prefix_lookup.
    + by apply Hsame.
    + by apply Hsame.
Qed.

Lemma cache_operations_do_not_mutate_witness :
  exists r h' o',
    HeapCache.pruneOllamaTitleCache 3%nat (Some (Finite 2)) test_heap
    = Some (r, h')
    /\ (forall l o, test_heap !! l = Some o -> h' !! l = Some o)
    /\ (nothing_to_prune (length test_heap_cache) (Some (Finite 2)) = true ->
        r = 3%nat /\ h' = test_heap)
    /\ (r = 3%nat \/ (length test_heap <= r)%nat)
    /\ h' !! r = Some o'
    /\ (forall k v,
          obj_get k o' = Some v ->
          obj_get k test_heap_cache = Some v).
Proof.
  assert (HeapCache.closed test_heap) as Hclosed.
  { unfold HeapCache.closed, test_heap.
    repeat (apply Forall_cons; split); try apply Forall_nil; simpl;
      try done; lia. }
  pose proof (cache_operations_do_not_mutate test_heap Hclosed)
    as (_ & _ & H).
  apply (H 3%nat (Some (Finite 2)) test_heap_cache). reflexivity.
Defined.

(* ===================================================================== *)
(** * Punctuation at the end of a keyword *)
(* ===================================================================== *)

(** C8. A response whose first keyword is two words with a comma between
    them parses, and the first keyword of the result ends in the comma:
    [sanitizeWord] removes the punctuation at the end of the whole string
    and only then keeps the first word. *)
Theorem parse_keeps_punctuation_after_first_word :
  sanitizeWord (js "deep, focus") = js "deep,"
  /\ parseDailyTitleParts punctuated_parts
     = Some (mkDailyTitleParts [js "deep,"; js "work"; js "planning"]
                               (js "ok")).
Proof. split; reflexivity. Qed.

(* ===================================================================== *)
(** * Properties of the string functions *)
(* ===================================================================== *)

Section Scans.
Variable p : ascii -> bool.

Lemma take_drop_while s : take_while p s ++ drop_while p s = s.
Proof.
  induction s as [|c s IH]; simpl; [done|].
  destruct (p c); simpl; [by rewrite IH | done].
Qed.

Lemma take_while_Forall s : Forall (fun c => p c = true) (take_while p s).
Proof.
  induction s as [|c s IH]; simpl; [constructor|].
  destruct (p c) eqn:E; by constructor.
Qed.

Lemma drop_while_starts_outside s : starts_outside p (drop_while p s).
Proof.
  induction s as [|c s IH]; simpl; [done|].
  destruct (p c) eqn:E; [done|]. simpl. done.
Qed.

Lemma drop_while_outside s : starts_outside p s -> drop_while p s = s.
Proof. destruct s as [|c s]; simpl; [done|]. by intros ->. Qed.

Lemma drop_while_length s : (length (drop_while p s) <= length s)%nat.
Proof.
  induction s as [|c s IH]; simpl; [done|]. destruct (p c); simpl; lia.
Qed.

Lemma drop_while_suffix s : drop_while p s `suffix_of` s.
Proof. exists (take_while p s). by rewrite take_drop_while. Qed.

Lemma drop_while_end_prefix s : drop_while_end p s `prefix_of` s.
Proof.
  unfold drop_while_end. destruct (drop_while_suffix (rev s)) as [k Hk].
  exists (rev k). rewrite <- (rev_involutive s), Hk at 1.
  by rewrite rev_app_distr.
Qed.

Lemma drop_while_end_length s : (length (drop_while_end p s) <= length s)%nat.
Proof. apply prefix_length, drop_while_end_prefix. Qed.

Lemma drop_while_end_ends_outside s : ends_outside p (drop_while_end p s).
Proof.
  unfold ends_outside, drop_while_end. rewrite rev_involutive.
  apply drop_while_starts_outside.
Qed.

Lemma drop_while_end_outside s : ends_outside p s -> drop_while_end p s = s.
Proof.
  unfold ends_outside, drop_while_end. intros H.
  by rewrite drop_while_outside, rev_involutive.
Qed.

End Scans.

(** A prefix that is not empty starts like the whole. *)
Lemma prefix_starts_outside p (s t : jstring) :
  s `prefix_of` t -> starts_outside p t -> starts_outside p s.
Proof. intros [k ->]. by destruct s. Qed.

Lemma suffix_ends_outside p (s t : jstring) :
  s `suffix_of` t -> ends_outside p t -> ends_outside p s.
Proof.
  intros [k ->]. unfold ends_outside. rewrite rev_app_distr.
  apply prefix_starts_outside. by exists (rev k).
Qed.

Lemma trim_fixed s :
  starts_outside is_space s -> ends_outside is_space s -> trim s = s.
Proof.
  intros Hs He. unfold trim.
  by rewrite drop_while_outside, drop_while_end_outside.
Qed.

Lemma trim_starts_outside s : starts_outside is_space (trim s).
Proof.
  unfold trim. eapply prefix_starts_outside.
  - apply drop_while_end_prefix.
  - apply drop_while_starts_outside.
Qed.

Lemma trim_ends_outside s : ends_outside is_space (trim s).
Proof. apply drop_while_end_ends_outside. Qed.

Lemma trim_length s : (length (trim s) <= length s)%nat.
Proof.
  unfold trim. etrans; [apply drop_while_end_length|].
  apply drop_while_length.
Qed.

Lemma trim_infix s : exists a b, s = a ++ trim s ++ b.
Proof.
  unfold trim.
  destruct (drop_while_suffix is_space s) as [a Ha].
  destruct (drop_while_end_prefix is_space (drop_while is_space s)) as [b Hb].
  exists a, b. by rewrite <- Hb.
Qed.

Lemma letter_or_number_not_space c :
  is_letter_or_number c = true -> is_space c = false.
Proof. destruct c as [[] [] [] [] [] [] [] []]; vm_compute; congruence. Qed.

Lemma code_32_is_space c : is_code 32 c = true -> is_space c = true.
Proof. destruct c as [[] [] [] [] [] [] [] []]; vm_compute; congruence. Qed.

Lemma code_32_space c : is_code 32 c = true -> c = space.
Proof. destruct c as [[] [] [] [] [] [] [] []]; vm_compute; congruence. Qed.

Lemma terminal_punct_not_space c :
  is_terminal_punct c = true -> is_space c = false.
Proof. destruct c as [[] [] [] [] [] [] [] []]; vm_compute; congruence. Qed.

(** ** Collapsing white space *)

Lemma replace_runs_single_spaced s in_run :
  single_spaced (replace_runs_from is_space in_run s)
  /\ (in_run = true ->
      starts_outside is_space (replace_runs_from is_space in_run s)).
Proof.
  revert in_run. induction s as [|c s IH]; intros in_run; simpl; [done|].
  destruct (is_space c) eqn:E.
  - destruct in_run.
    + apply IH.
    + split; [|done]. simpl. split; [|apply IH].
      intros _. split; [done|]. by apply IH.
  - simpl. split; [|done]. split; [congruence | apply IH].
Qed.

Lemma replace_runs_starts_outside s :
  starts_outside is_space s ->
  starts_outside is_space (replace_runs is_space s).
Proof.
  destruct s as [|c s]; [done|]. unfold replace_runs. simpl.
  intros H. by rewrite H.
Qed.

Lemma replace_runs_snoc p s c in_run :
  p c = false ->
  replace_runs_from p in_run (s ++ [c]) = replace_runs_from p in_run s ++ [c].
Proof.
  intros Hc. revert in_run. induction s as [|d s IH]; intros in_run; simpl.
  - by rewrite Hc.
  - destruct (p d); [destruct in_run|]; simpl; by rewrite IH.
Qed.

Lemma ends_outside_snoc p s c : ends_outside p (s ++ [c]) <-> p c = false.
Proof. unfold ends_outside. by rewrite rev_app_distr. Qed.

Lemma replace_runs_ends_outside s :
  ends_outside is_space s -> ends_outside is_space (replace_runs is_space s).
Proof.
  destruct s as [|c s _] using rev_ind; [done|].
  rewrite ends_outside_snoc. intros Hc. unfold replace_runs.
  rewrite replace_runs_snoc by done. by apply ends_outside_snoc.
Qed.

Lemma single_spaced_app a b :
  single_spaced (a ++ b) -> single_spaced a /\ single_spaced b.
Proof.
  induction a as [|c a IH]; simpl; [done|].
  intros [Hc Hrest]. destruct (IH Hrest) as [Ha Hb]. split; [|done].
  split; [|done]. intros Hsp. destruct (Hc Hsp) as [-> Hnext].
  split; [done|]. by destruct a.
Qed.

Lemma single_spaced_snoc s c :
  single_spaced s -> is_space c = false -> single_spaced (s ++ [c]).
Proof.
  intros Hs Hc. induction s as [|d s IH]; simpl.
  - split; [congruence | done].
  - destruct Hs as [Hd Hs]. split; [|by apply IH].
    intros Hsp. destruct (Hd Hsp) as [-> Hnext]. split; [done|].
    destruct s; simpl; done.
Qed.

Lemma single_spaced_Forall s :
  single_spaced s -> Forall (fun c => is_space c = true -> c = space) s.
Proof.
  induction s as [|c s IH]; simpl; [constructor|].
  intros [Hc Hs]. constructor; [|by apply IH]. intros H. by apply Hc.
Qed.

(** ** [sanitizeWord] *)

Lemma first_segment_prefix s : first_segment s `prefix_of` s.
Proof. exists (drop_while (fun c => negb (is_code 32 c)) s).
  unfold first_segment. by rewrite take_drop_while. Qed.

(** What [sanitizeWord] guarantees of a word that survives. *)
Lemma sanitizeWord_shape word :
  sanitizeWord word <> [] -> keyword_shape (sanitizeWord word).
Proof.
  intros Hne. split; [done|]. unfold sanitizeWord in *.
  set (y := drop_while_end not_letter_or_number _) in *.
  split.
  - pose proof (take_while_Forall (fun c => negb (is_code 32 c))
                  (replace_runs is_space y)) as Hseg.
    fold (first_segment (replace_runs is_space y)) in Hseg.
    destruct (first_segment_prefix (replace_runs is_space y)) as [k Hk].
    pose proof (proj1 (replace_runs_single_spaced y false)) as Hss.
    fold (replace_runs is_space y) in Hss.
    apply single_spaced_Forall in Hss. rewrite Hk in Hss.
    apply Forall_app in Hss as [Hss _].
    rewrite Forall_forall in Hseg, Hss. apply Forall_forall. intros c Hc.
    destruct (is_space c) eqn:E; [|done]. exfalso.
    pose proof (Hss c Hc E) as ->. specialize (Hseg space Hc).
    vm_compute in Hseg. discriminate.
  - assert (starts_outside not_letter_or_number y) as Hy.
    { unfold y. eapply prefix_starts_outside.
      - apply drop_while_end_prefix.
      - apply drop_while_starts_outside. }
    destruct y as [|c y]; [done|]. simpl in Hy.
    unfold not_letter_or_number in Hy. apply negb_false_iff in Hy.
    pose proof (letter_or_number_not_space c Hy) as Hsp.
    unfold replace_runs, first_segment. simpl. rewrite Hsp. simpl.
    destruct (is_code 32 c) eqn:E.
    + apply code_32_is_space in E. congruence.
    + simpl. unfold not_letter_or_number. by rewrite Hy.
Qed.

(** ** [sanitizeDescription] *)

Lemma collapse_terminal_punct_length s :
  (length (collapse_terminal_punct s) <= length s)%nat.
Proof.
  unfold collapse_terminal_punct.
  destruct (2 <=? length (take_while is_terminal_punct (rev s)))%nat eqn:E;
    [|done].
  apply Nat.leb_le in E.
  unfold drop_while_end. rewrite length_app, length_rev. simpl.
  pose proof (take_drop_while is_terminal_punct (rev s)) as H.
  apply (f_equal length) in H. rewrite length_app, length_rev in H. lia.
Qed.

Lemma trailing_run_collapse s :
  (trailing_run is_terminal_punct (collapse_terminal_punct s) < 2)%nat.
Proof.
  unfold collapse_terminal_punct, trailing_run.
  destruct (2 <=? length (take_while is_terminal_punct (rev s)))%nat eqn:E.
  - rewrite rev_app_distr. simpl. unfold drop_while_end.
    rewrite rev_involutive.
    pose proof (drop_while_starts_outside is_terminal_punct (rev s)) as H.
    destruct (drop_while is_terminal_punct (rev s)); simpl; [lia|].
    simpl in H. rewrite H. simpl. lia.
  - by apply Nat.leb_gt in E.
Qed.

Lemma collapse_terminal_punct_trimmed s :
  starts_outside is_space s -> ends_outside is_space s ->
  starts_outside is_space (collapse_terminal_punct s)
  /\ ends_outside is_space (collapse_terminal_punct s).
Proof.
  intros Hs He. unfold collapse_terminal_punct.
  destruct (2 <=? _)%nat; [|done]. split.
  - pose proof (drop_while_end_prefix is_terminal_punct s) as Hpre.
    pose proof (prefix_starts_outside _ _ _ Hpre Hs) as H.
    by destruct (drop_while_end is_terminal_punct s).
  - by apply ends_outside_snoc.
Qed.

Lemma collapse_terminal_punct_single_spaced s :
  single_spaced s -> single_spaced (collapse_terminal_punct s).
Proof.
  intros Hs. unfold collapse_terminal_punct.
  destruct (2 <=? _)%nat; [|done].
  apply single_spaced_snoc; [|done].
  destruct (drop_while_end_prefix is_terminal_punct s) as [k Hk].
  rewrite Hk in Hs. by apply single_spaced_app in Hs as [? _].
Qed.

(** What [sanitizeDescription] guarantees. *)
Lemma sanitizeDescription_shape desc :
  description_shape (sanitizeDescription desc).
Proof.
  unfold sanitizeDescription, MAX.
  set (s1 := trim (replace_runs is_crlf_tab desc)).
  set (s2 := replace_runs is_space s1).
  set (s3 := if (120 <? length s2)%nat then trim (take 120 s2) else s2).
  assert (single_spaced s2) as Hss2
    by apply (proj1 (replace_runs_single_spaced s1 false)).
  assert (starts_outside is_space s2 /\ ends_outside is_space s2) as [Hs2 He2].
  { split.
    - apply replace_runs_starts_outside, trim_starts_outside.
    - apply replace_runs_ends_outside, trim_ends_outside. }
  assert ((length s3 <= 120)%nat /\ single_spaced s3
          /\ starts_outside is_space s3 /\ ends_outside is_space s3)
    as (Hlen & Hss & Hs & He).
  { unfold s3. destruct (120 <? length s2)%nat eqn:E.
    - split; [|split; [|split]].
      + etrans; [apply trim_length|]. rewrite length_take. lia.
      + destruct (trim_infix (take 120 s2)) as (a & b & Hab).
        rewrite <- (take_drop 120 s2), Hab in Hss2.
        apply single_spaced_app in Hss2 as [Hss2 _].
        apply single_spaced_app in Hss2 as [_ Hss2].
        by apply single_spaced_app in Hss2 as [Hss2 _].
      + apply trim_starts_outside.
      + apply trim_ends_outside.
    - apply Nat.ltb_ge in E. done. }
  destruct (collapse_terminal_punct_trimmed s3 Hs He) as [Hs4 He4].
  split; [|split; [|split]].
  - etrans; [apply collapse_terminal_punct_length | done].
  - by apply trim_fixed.
  - by apply collapse_terminal_punct_single_spaced.
  - apply trailing_run_collapse.
Qed.

(** The part of the contract of [DailyTitleParts] that every successful
    parse meets: 3 keywords, each a non-empty token without white space
    that starts with a letter or a digit, and a description that is one
    trimmed line with collapsed white space, at most 120 characters long,
    with at most one terminal punctuation mark at its end. *)
Lemma parse_parts_shape value parts :
  parseDailyTitleParts value = Some parts ->
  length (keywords parts) = 3%nat
  /\ Forall keyword_shape (keywords parts)
  /\ description_shape (description parts).
Proof.
  intros H. apply parse_Some_inv in H
    as (_ & items & desc & _ & _ & Hlen & _ & ->).
  cbn [keywords description]. split; [|split].
  - rewrite length_take. lia.
  - apply Forall_take. unfold surviving_words.
    apply Forall_forall. intros w Hw.
    apply list_elem_of_filter in Hw as [Hne Hw].
    apply is_empty_false in Hne.
    apply list_elem_of_fmap in Hw as [k [-> _]].
    destruct k as [| | | |s| |]; try done. by apply sanitizeWord_shape.
  - apply sanitizeDescription_shape.
Qed.

(** X19. What every successful parse returns: 3 keywords, each a non-empty
    token without white space that starts with a letter or a digit, and a
    description that is not empty, one trimmed line with collapsed white
    space, at most 120 characters long, with at most one terminal
    punctuation mark at its end. *)
Theorem parse_result_shape (value : JsValue) (parts : DailyTitleParts) :
  parseDailyTitleParts value = Some parts ->
  length (keywords parts) = 3%nat
  /\ Forall keyword_shape (keywords parts)
  /\ description parts <> []
  /\ description_shape (description parts).
Proof.
  intros H. destruct (parse_parts_shape value parts H) as (H1 & H2 & H3).
  apply parse_Some_inv in H as (_ & items & desc & _ & _ & _ & Hne & ->).
  done.
Qed.

Lemma parse_result_shape_witness :
  let parts := mkDailyTitleParts [js "Work"; js "Deep"; js "planning"]
                                 (js "Did a lot. Newline!") in
  length (keywords parts) = 3%nat
  /\ Forall keyword_shape (keywords parts)
  /\ description parts <> []
  /\ description_shape (description parts).
Proof. apply (parse_result_shape test_parts). reflexivity. Defined.

(* ===================================================================== *)
(** * The operations on the heap compute the operations on values *)
(* ===================================================================== *)

Module HeapRefinement.
Import HeapCache HeapFacts HeapPrune.

Lemma read_cache_Some (h : Heap) (l : loc) (c : OllamaTitleCache) :
  read_cache h l = Some c <-> exists o, h !! l = Some o /\ holds_cache h o c.
Proof.
  unfold read_cache, holds_cache. destruct (h !! l) as [o|].
  - rewrite mapM_Some. split; [eauto|]. by intros (o' & [= <-] & H).
  - split; [done|]. by intros (o' & [=] & _).
Qed.

Lemma read_property_Some (h : Heap) (kv : jstring * Val) ke :
  read_property h kv = Some ke ->
  exists r entry,
    kv.2 = VRef r /\ h !! r = Some entry
    /\ read_entry entry = Some ke.2 /\ ke.1 = kv.1.
Proof.
  unfold read_property. destruct kv.2 as [| | | | |r]; try done.
  destruct (h !! r) as [entry|] eqn:E; [|done].
  destruct (read_entry entry) as [e|] eqn:Er; [|done].
  intros [= <-]. by exists r, entry.
Qed.

Lemma read_property_mono (h h' : Heap) kv ke :
  h `prefix_of` h' ->
  read_property h kv = Some ke -> read_property h' kv = Some ke.
Proof.
  intros Hpre H. pose proof H as H0.
  apply read_property_Some in H0 as (r & entry & Hkv & Hr & _).
  unfold read_property in *. rewrite Hkv in *.
  by rewrite (prefix_lookup _ _ _ _ Hpre Hr), Hr in *.
Qed.

Lemma holds_keys (h : Heap) (o : HObject) (c : OllamaTitleCache) :
  holds_cache h o c -> obj_keys o = obj_keys c.
Proof.
  unfold holds_cache.
  induction 1 as [|kv ke o' c' Hkv _ IH]; [done|].
  simpl. rewrite IH. f_equal.
  by apply read_property_Some in Hkv as (_ & _ & _ & _ & _ & ->).
Qed.

Lemma holds_length (h : Heap) (o : HObject) (c : OllamaTitleCache) :
  holds_cache h o c -> length o = length c.
Proof. apply Forall2_length. Qed.

Lemma holds_mono (h h' : Heap) (o : HObject) (c : OllamaTitleCache) :
  holds_cache h o c -> h `prefix_of` h' -> holds_cache h' o c.
Proof.
  intros Hholds Hpre. eapply Forall2_impl; [exact Hholds|].
  intros kv ke. by apply read_property_mono.
Qed.

Lemma holds_val_ok (h : Heap) (o : HObject) (c : OllamaTitleCache) :
  holds_cache h o c -> Forall (fun kv => val_ok h kv.2) o.
Proof.
  unfold holds_cache.
  induction 1 as [|kv ke o' c' Hkv _ IH]; constructor; [|done].
  apply read_property_Some in Hkv as (r & entry & -> & Hr & _).
  simpl. by apply lookup_lt_Some in Hr.
Qed.

Lemma holds_sort_key (h : Heap) (o : HObject) (c : OllamaTitleCache) k :
  holds_cache h o c ->
  heap_sort_key h o k = effectiveLastUsed (obj_get k c).
Proof.
  unfold holds_cache, heap_sort_key.
  induction 1 as [|[k1 v1] [k2 e] o' c' Hkv _ IH]; [done|].
  apply read_property_Some in Hkv as (r & entry & Hv & Hr & He & Hk).
  simpl in *. subst k2 v1.
  destruct (jstring_eqb k1 k); [|exact IH].
  unfold loc in *. rewrite Hr. unfold read_entry in He.
  destruct (get_prop entry (js "mtime")); try done.
  destruct (get_prop entry (js "title")); try done.
  injection He as <-. simpl.
  by destruct (get_prop entry _) as [| | |[| | |z]| |].
Qed.

Lemma holds_delete (h : Heap) (o : HObject) (c : OllamaTitleCache) k :
  holds_cache h o c -> holds_cache h (obj_delete k o) (obj_delete k c).
Proof.
  unfold holds_cache, obj_delete.
  induction 1 as [|kv ke o' c' Hkv _ IH]; [constructor|].
  rewrite !filter_cons.
  apply read_property_Some in Hkv as Hk.
  destruct Hk as (_ & _ & _ & _ & _ & Hk).
  rewrite Hk. destruct (decide (kv.1 <> k)); [by constructor | done].
Qed.

Lemma holds_has (h : Heap) (o : HObject) (c : OllamaTitleCache) k :
  holds_cache h o c -> obj_has k o = obj_has k c.
Proof.
  intros Hholds. destruct (obj_has k c) eqn:E.
  - apply obj_has_true. rewrite (holds_keys h o c Hholds).
    by apply obj_has_true.
  - apply obj_has_false. rewrite (holds_keys h o c Hholds).
    by apply obj_has_false.
Qed.

Lemma holds_set (h : Heap) (o : HObject) (c : OllamaTitleCache) k v e :
  holds_cache h o c ->
  read_property h (k, v) = Some (k, e) ->
  holds_cache h (obj_set k v o) (obj_set k e c).
Proof.
  intros Hholds Hnew. unfold obj_set. rewrite (holds_has h o c k Hholds).
  unfold holds_cache in *. destruct (obj_has k c).
  - induction Hholds as [|[k1 v1] [k2 e2] o' c' Hkv Hrest IH]; [constructor|].
    apply read_property_Some in Hkv as Hk.
    destruct Hk as (_ & _ & _ & _ & _ & Hk). simpl in Hk. subst k2.
    simpl. destruct (jstring_eqb k1 k) eqn:E.
    + apply jstring_eqb_eq in E as ->. by constructor.
    + by constructor.
  - induction Hholds as [|[k1 v1] [k2 e2] o' c' Hkv Hrest IH].
    + by repeat constructor.
    + apply read_property_Some in Hkv as Hk.
      destruct Hk as (_ & _ & _ & _ & _ & Hk). simpl in Hk. subst k2.
      simpl. destruct (key_precedes k k1); by repeat constructor.
Qed.

Lemma holds_delete_all (h : Heap) (o : HObject) (c : OllamaTitleCache)
    (toDelete : list (jstring * Z)) :
  holds_cache h o c ->
  holds_cache h (fold_left (fun n kz => obj_delete kz.1 n) toDelete o)
                (fold_left (fun n kz => obj_delete kz.1 n) toDelete c).
Proof.
  revert o c. induction toDelete as [|kz l IH]; intros o c H; [done|].
  cbn [fold_left]. apply IH. by apply holds_delete.
Qed.

(** The function on values, with its test and its deletions made explicit. *)
Lemma prune_value_exact (c : OllamaTitleCache) (maxEntries : option JsNumber) :
  let toDelete :=
    to_delete (fun k => effectiveLastUsed (obj_get k c)) (obj_keys c)
              (max_of maxEntries) in
  Cache.pruneOllamaTitleCache c maxEntries
  = if nothing_to_prune (length c) maxEntries || (length toDelete =? 0)%nat
    then c
    else fold_left (fun n kz => obj_delete kz.1 n) toDelete c.
Proof.
  unfold Cache.pruneOllamaTitleCache, nothing_to_prune, to_delete. cbn zeta.
  assert (length (obj_keys c) = length c) as ->
    by (unfold obj_keys; apply length_map).
  destruct (num_falsy _ || num_le_zero _); [done|].
  destruct (length_le_num _ _); [done|]. cbn [orb].
  by destruct (length _ =? 0)%nat.
Qed.

(** Pruning the object that holds a cache gives an object that holds the
    pruned cache. *)
Lemma prune_refines (h : Heap) (cache : loc) (maxEntries : option JsNumber)
    (c : OllamaTitleCache) :
  read_cache h cache = Some c ->
  exists r h',
    pruneOllamaTitleCache cache maxEntries h = Some (r, h')
    /\ read_cache h' r = Some (Cache.pruneOllamaTitleCache c maxEntries).
Proof.
  intros Hread. apply read_cache_Some in Hread as (o & Ho & Hholds).
  pose proof (prune_exact h cache maxEntries o Ho (holds_val_ok h o c Hholds))
    as H.
  rewrite prune_value_exact. cbn zeta in H |- *.
  rewrite (holds_keys h o c Hholds), (holds_length h o c Hholds) in H.
  assert (to_delete (heap_sort_key h o) (obj_keys c) (max_of maxEntries)
          = to_delete (fun k => effectiveLastUsed (obj_get k c)) (obj_keys c)
                      (max_of maxEntries)) as Heq.
  { unfold to_delete. do 2 f_equal. apply map_ext. intros k.
    by rewrite (holds_sort_key h o c k Hholds). }
  rewrite Heq in H.
  destruct (nothing_to_prune (length c) maxEntries || _).
  - exists cache, h. split; [done|]. apply read_cache_Some. eauto.
  - destruct H as (h' & Hp & Hpre & Hget). exists (length h), h'.
    split; [done|]. apply read_cache_Some. eexists. split; [exact Hget|].
    apply holds_delete_all. by apply (holds_mono h).
Qed.

Lemma read_entry_entry_object e : read_entry (entry_object e) = Some e.
Proof. by destruct e as [m t [n|]]. Qed.

(** An upsert into the object that holds a cache gives an object that holds
    the cache after the upsert. *)
Lemma upsert_refines (h : Heap) (dateNow : JsNumber) (args : UpsertArgs)
    (c : option OllamaTitleCache) :
  match cache args, c with
  | Some l, Some c => read_cache h l = Some c
  | None, None => True
  | _, _ => False
  end ->
  exists r h',
    upsertOllamaTitleCacheEntry dateNow args h = Some (r, h')
    /\ read_cache h' r
       = Some (Cache.upsertOllamaTitleCacheEntry dateNow
                 (Cache.mkUpsertArgs c (filePath args) (entry_mtime args)
                    (entry_title args) (maxEntries args) (nowMs args))).
Proof.
  intros Hc. unfold upsertOllamaTitleCacheEntry.
  assert (exists base,
            match cache args with
            | Some l => load l
            | None => ret []
            end h = Some (base, h)
            /\ holds_cache h base (default [] c)) as (base & Hbase & Hholds).
  { destruct (cache args) as [l|], c as [c|]; try done.
    - apply read_cache_Some in Hc as (o & Ho & Hh). exists o.
      split; [by apply load_Some | done].
    - exists []. split; [done | constructor]. }
  rewrite (bind_eq _ _ _ _ _ Hbase).
  set (e := mkEntry _ _ _).
  rewrite (bind_eq (alloc (entry_object e)) _ h (h ++ [entry_object e])
             (length h) eq_refl).
  set (next := obj_set _ _ _).
  rewrite (bind_eq (alloc next) _ _ ((h ++ [entry_object e]) ++ [next])
             (length (h ++ [entry_object e])) eq_refl).
  apply prune_refines. apply read_cache_Some. exists next. split.
  - by rewrite lookup_app_r, Nat.sub_diag by done.
  - unfold next. apply holds_set.
    + apply (holds_mono h); [done|]. by do 2 apply prefix_alloc.
    + unfold read_property. cbn [snd fst].
      rewrite lookup_app_l by (rewrite length_app; simpl; lia).
      rewrite lookup_app_r, Nat.sub_diag by done. cbn [lookup list_lookup].
      by rewrite read_entry_entry_object.
Qed.

End HeapRefinement.

Module HeapSanitize.
Import HeapCache HeapFacts HeapPrune HeapRefinement.

Lemma field_of_shallow (o : HObject) (name : jstring) :
  field_of (js_get (JObj (map (fun kv => (kv.1, shallow kv.2)) o)) name)
  = field_of_val (get_prop o name).
Proof.
  unfold js_get, get_prop. induction o as [|[k v] o IH]; [done|].
  simpl. destruct (jstring_eqb k name); [|exact IH]. by destruct v.
Qed.

(** The body of the loop reads the same entry from the heap and from the
    value. *)
Lemma sanitizeEntry_refines (h0 h : Heap) (raw : Val) :
  h0 `prefix_of` h -> val_ok h0 raw ->
  sanitizeEntry raw h = Some (Cache.sanitizeEntry (reify_raw h0 raw), h).
Proof.
  intros Hpre Hok. destruct raw as [| | | | |r]; try done.
  simpl in Hok. destruct (lookup_lt_is_Some_2 h0 r Hok) as [entry Hentry].
  unfold sanitizeEntry.
  rewrite (bind_eq _ _ _ _ _
             (load_Some _ _ _ (prefix_lookup _ _ _ _ Hpre Hentry))).
  unfold ret, reify_raw, reify_with, Cache.sanitizeEntry.
  unfold loc in *. rewrite Hentry. cbn [is_object negb].
  by rewrite !field_of_shallow.
Qed.

Lemma read_property_store (h : Heap) (l : loc) (x : HObject) kv :
  match kv.2 with
  | VRef r => (l < r)%nat
  | _ => True
  end ->
  read_property (<[l := x]> h) kv = read_property h kv.
Proof.
  unfold read_property. destruct kv.2 as [| | | | |r]; try done.
  intros Hr. rewrite list_lookup_insert_ne; [done | lia].
Qed.

Lemma holds_store (h : Heap) (l : loc) (x o : HObject) c :
  entries_above l o -> holds_cache h o c -> holds_cache (<[l := x]> h) o c.
Proof.
  unfold entries_above, holds_cache. intros Habove Hholds.
  induction Hholds as [|kv ke o' c' Hkv _ IH]; [constructor|].
  apply Forall_cons in Habove as [Hr Habove]. constructor; [|by apply IH].
  by rewrite read_property_store.
Qed.

Lemma entries_above_set (out r : loc) k (o : HObject) :
  (out < r)%nat -> entries_above out o ->
  entries_above out (obj_set k (VRef r) o).
Proof.
  unfold entries_above. rewrite !Forall_forall. intros Hr Ho kv Hin.
  apply obj_set_elem in Hin as [->|Hin]; [done | by apply Ho].
Qed.

Lemma entries_above_assign (out r : loc) k (o : HObject) :
  (out < r)%nat -> entries_above out o ->
  entries_above out (obj_assign k (VRef r) o).
Proof.
  intros Hr Ho. unfold obj_assign.
  destruct (jstring_eqb k (js "__proto__") && negb (obj_has k o)); [done|].
  by apply entries_above_set.
Qed.

Lemma holds_assign (h : Heap) (o : HObject) (c : OllamaTitleCache) k v e :
  holds_cache h o c ->
  read_property h (k, v) = Some (k, e) ->
  holds_cache h (obj_assign k v o) (obj_assign k e c).
Proof.
  intros Hholds Hnew. unfold obj_assign.
  rewrite (holds_has h o c k Hholds).
  destruct (jstring_eqb k (js "__proto__") && negb (obj_has k c)); [done|].
  by apply holds_set.
Qed.

Lemma sanitize_loop_refines (h0 h : Heap) (out : loc) (obj o : HObject)
    (c : OllamaTitleCache) :
  h0 `prefix_of` h -> (length h0 <= out)%nat -> h !! out = Some o ->
  entries_above out o -> holds_cache h o c ->
  Forall (fun kv => val_ok h0 kv.2) obj ->
  exists h' o',
    for_each (sanitize_step out) obj h = Some (tt, h')
    /\ h' !! out = Some o'
    /\ holds_cache h' o'
         (fold_left Cache.sanitize_step
            (map (fun kv => (kv.1, reify_raw h0 kv.2)) obj) c).
Proof.
  revert h o c.
  induction obj as [|[k raw] obj IH]; intros h o c Hpre Hout Ho Habove Hholds
    Hok.
  - exists h, o. by repeat split.
  - apply Forall_cons in Hok as [Hraw Hok]. cbn [snd] in Hraw.
    cbn [for_each map fold_left fst snd].
    assert (out < length h)%nat as Hlt by (by apply lookup_lt_Some in Ho).
    unfold Cache.sanitize_step at 2. cbn [fst snd].
    pose proof (sanitizeEntry_refines h0 h raw Hpre Hraw) as Hentry.
    destruct (Cache.sanitizeEntry (reify_raw h0 raw)) as [e|].
    + set (h1 := <[out := obj_assign k (VRef (length h)) o]>
                   (h ++ [entry_object e])).
      assert (sanitize_step out (k, raw) h = Some (tt, h1)) as Hstep.
      { unfold sanitize_step. cbn [fst snd].
        rewrite (bind_eq _ _ _ _ _ Hentry).
        rewrite (bind_eq (alloc (entry_object e)) _ h (h ++ [entry_object e])
                   (length h) eq_refl).
        assert ((h ++ [entry_object e]) !! out = Some o) as Ho'
          by (by apply lookup_app_l_Some).
        rewrite (bind_eq _ _ _ _ _ (load_Some _ _ _ Ho')).
        apply store_lt. rewrite length_app. simpl. lia. }
      rewrite (bind_eq _ _ _ _ _ Hstep).
      apply (IH h1 (obj_assign k (VRef (length h)) o) (obj_assign k e c)).
      * apply prefix_store; [by apply prefix_alloc | done].
      * done.
      * unfold h1. apply list_lookup_insert_eq. rewrite length_app. simpl. lia.
      * by apply entries_above_assign.
      * apply holds_assign.
        -- unfold h1. apply holds_store; [done|].
           apply (holds_mono h); [done | by apply prefix_alloc].
        -- unfold read_property, h1. cbn [fst snd].
           rewrite list_lookup_insert_ne by lia.
           rewrite lookup_app_r, Nat.sub_diag by done. cbn [lookup list_lookup].
           by rewrite read_entry_entry_object.
      * done.
    + assert (sanitize_step out (k, raw) h = Some (tt, h)) as Hstep.
      { unfold sanitize_step. cbn [fst snd].
        by rewrite (bind_eq _ _ _ _ _ Hentry). }
      rewrite (bind_eq _ _ _ _ _ Hstep). by apply (IH h o c).
Qed.

(** Sanitizing a value of the heap gives a new object that holds the cache
    that [sanitizeOllamaTitleCache] makes of the value. *)
Lemma sanitize_refines (h : Heap) (value : Val) :
  closed h -> val_ok h value ->
  exists out h',
    sanitizeOllamaTitleCache value h = Some (out, h')
    /\ read_cache h' out
       = Some (Cache.sanitizeOllamaTitleCache (reify h value)).
Proof.
  intros Hc Hok.
  assert (exists out h', alloc [] h = Some (out, h')
                         /\ read_cache h' out = Some []) as Hnew.
  { exists (length h), (h ++ [[]]). split; [done|].
    unfold read_cache. by rewrite lookup_app_r, Nat.sub_diag by done. }
  destruct value as [| | | | |l]; try exact Hnew.
  simpl in Hok. destruct (load_lt h l Hok) as (obj & Hobj & Hload).
  unfold sanitizeOllamaTitleCache.
  rewrite (bind_eq _ _ _ _ _ Hload).
  rewrite (bind_eq (alloc []) _ h (h ++ [[]]) (length h) eq_refl).
  destruct (sanitize_loop_refines h (h ++ [[]]) (length h) obj [] [])
    as (h' & o' & Hloop & Ho' & Hholds).
  - by apply prefix_alloc.
  - done.
  - by rewrite lookup_app_r, Nat.sub_diag by done.
  - constructor.
  - constructor.
  - by apply (closed_lookup h l).
  - rewrite (bind_eq _ _ _ _ _ Hloop). exists (length h), h'.
    split; [done|]. apply read_cache_Some. exists o'. split; [done|].
    unfold reify, reify_with. unfold loc in *. rewrite Hobj.
    unfold Cache.sanitizeOllamaTitleCache. cbn [is_object negb js_entries].
    exact Hholds.
Qed.

End HeapSanitize.

(* ===================================================================== *)
(** * The tests of the repository, on the embedding *)
(* ===================================================================== *)

(** [cache.test.ts]. *)

Example test_sanitize_drops_invalid_entries :
  sanitizeOllamaTitleCache test_raw_cache
  = [ (js "ok", mkEntry (Finite 123) (js "Hello") None) ].
Proof. reflexivity. Qed.

Example test_prune_evicts_least_recently_used :
  pruneOllamaTitleCache sample_cache (Some (Finite 2))
  = [ (js "b", mkEntry (Finite 1) (js "B") (Some (Finite 20)));
      (js "c", mkEntry (Finite 1) (js "C") (Some (Finite 30))) ].
Proof. reflexivity. Qed.

Example test_prune_missing_lastUsed :
  pruneOllamaTitleCache
    [ (js "a", mkEntry (Finite 1) (js "A") None);
      (js "b", mkEntry (Finite 1) (js "B") (Some (Finite 5))) ]
    (Some (Finite 1))
  = [ (js "b", mkEntry (Finite 1) (js "B") (Some (Finite 5))) ].
Proof. reflexivity. Qed.

Example test_upsert_adds_and_prunes :
  upsertOllamaTitleCacheEntry (Finite 0) test_upsert
  = [ (js "b", mkEntry (Finite 1) (js "B") (Some (Finite 20)));
      (js "c.md", mkEntry (Finite 2) (js "C") (Some (Finite 100))) ].
Proof. reflexivity. Qed.

(** [title.test.ts]. *)

Example test_strip_fence_not_at_start :
  let input := js ("foo" ++ line_feed ++ "---" ++ line_feed ++ "bar"
                   ++ line_feed ++ "---" ++ line_feed ++ "baz") in
  stripYamlFrontmatter input = input.
Proof. reflexivity. Qed.

Example test_strip_no_closing_fence :
  let input := js ("---" ++ line_feed ++ "title: hello" ++ line_feed
                   ++ "# Heading") in
  stripYamlFrontmatter input = input.
Proof. reflexivity. Qed.

Example test_parse_invalid_shapes :
  parseDailyTitleParts JNull = None
  /\ parseDailyTitleParts (JObj []) = None
  /\ parseDailyTitleParts
       (JObj [ (js "keywords", JArr [JStr (js "a"); JStr (js "b");
                                     JStr (js "c")]);
               (js "description", JNum (Finite 1)) ]) = None
  /\ parseDailyTitleParts two_keywords = None.
Proof. repeat split; reflexivity. Qed.

(** [listItemColorTags.test.ts]. *)

Example test_normalize_color :
  normalizeListItemColor (js "#A1B2C3") = js "#a1b2c3"
  /\ normalizeListItemColor (js "#0F3") = js "#00ff33"
  /\ normalizeListItemColor (js "red") = []
  /\ normalizeListItemColor (js "#abcd") = []
  /\ normalizeListItemColor (js "#12345") = []
  /\ normalizeListItemColor (js "#1234567") = [].
Proof. repeat split; reflexivity. Qed.

Example test_sanitize_tags_keeps_valid :
  sanitizeListItemColorTags test_tags
  = [ (js "day:2025-12-15", js "#ff0000");
      (js "file:foo/bar.md", js "#00ff00") ].
Proof. reflexivity. Qed.

Example test_sanitize_tags_trims :
  sanitizeListItemColorTags padded_tag
  = [ (js "day:2025-12-15", js "#aabbcc") ].
Proof. reflexivity. Qed.

(* ===================================================================== *)
(** * Collapsed strings *)
(* ===================================================================== *)

Lemma crlf_tab_is_space c : is_crlf_tab c = true -> is_space c = true.
Proof. destruct c as [[] [] [] [] [] [] [] []]; vm_compute; congruence. Qed.

Lemma replace_runs_none p s in_run :
  Forall (fun c => p c = false) s -> replace_runs_from p in_run s = s.
Proof.
  revert in_run. induction s as [|c s IH]; intros in_run H; [done|].
  apply Forall_cons in H as [Hc H]. simpl. rewrite Hc. by rewrite IH.
Qed.

Lemma single_spaced_no_crlf_tab s :
  single_spaced s -> Forall (fun c => is_crlf_tab c = false) s.
Proof.
  intros H. apply single_spaced_Forall in H.
  eapply Forall_impl; [exact H|]. intros c Hc. simpl in Hc.
  destruct (is_crlf_tab c) eqn:E; [|done].
  rewrite (Hc (crlf_tab_is_space c E)) in E. vm_compute in E. discriminate.
Qed.

Lemma replace_runs_space_fixed s :
  single_spaced s ->
  replace_runs_from is_space false s = s
  /\ (starts_outside is_space s -> replace_runs_from is_space true s = s).
Proof.
  induction s as [|c s IH]; [done|]. intros [Hc Hs].
  destruct (IH Hs) as [IH1 IH2]. simpl. destruct (is_space c) eqn:E.
  - destruct (Hc eq_refl) as [-> Hnext]. split; [|done].
    by rewrite IH2.
  - by rewrite IH1.
Qed.

Lemma single_spaced_join a b :
  single_spaced a -> single_spaced b ->
  ends_outside is_space a \/ starts_outside is_space b ->
  single_spaced (a ++ b).
Proof.
  intros Ha Hb Hab. induction a as [|c a IH]; [done|].
  destruct Ha as [Hc Ha]. simpl. split.
  - intros Hsp. destruct (Hc Hsp) as [-> Hnext]. split; [done|].
    destruct a as [|d a]; [|exact Hnext]. cbn [app].
    destruct Hab as [Hab|Hab]; [|exact Hab].
    unfold ends_outside in Hab. simpl in Hab. congruence.
  - apply IH; [done|]. destruct Hab as [Hab|Hab]; [|by right].
    left. apply (suffix_ends_outside _ _ (c :: a)); [by exists [c] | done].
Qed.

Lemma single_spaced_prefix s t :
  s `prefix_of` t -> single_spaced t -> single_spaced s.
Proof. intros [k ->] H. by apply single_spaced_app in H as [? _]. Qed.

Lemma single_spaced_suffix s t :
  s `suffix_of` t -> single_spaced t -> single_spaced s.
Proof. intros [k ->] H. by apply single_spaced_app in H as [_ ?]. Qed.

Lemma single_spaced_trim s : single_spaced s -> single_spaced (trim s).
Proof.
  intros H. unfold trim. eapply single_spaced_prefix.
  - apply drop_while_end_prefix.
  - eapply single_spaced_suffix; [apply drop_while_suffix | done].
Qed.

Lemma single_spaced_take n s : single_spaced s -> single_spaced (take n s).
Proof. apply single_spaced_prefix, prefix_take. Qed.

Lemma single_spaced_drop n s : single_spaced s -> single_spaced (drop n s).
Proof. apply single_spaced_suffix, suffix_drop. Qed.

Lemma trim_trim s : trim (trim s) = trim s.
Proof. apply trim_fixed; [apply trim_starts_outside | apply trim_ends_outside]. Qed.

(** A string in which white space occurs only as single spaces, and not at
    either end, is left alone by [collapseWhitespace]. *)
Lemma collapseWhitespace_fixed s :
  single_spaced s -> starts_outside is_space s -> ends_outside is_space s ->
  collapseWhitespace s = s.
Proof.
  intros Hss Hs He. unfold collapseWhitespace, replace_runs.
  rewrite (replace_runs_none is_crlf_tab s false)
    by (by apply single_spaced_no_crlf_tab).
  rewrite (proj1 (replace_runs_space_fixed s Hss)). by apply trim_fixed.
Qed.

Lemma collapseWhitespace_single_spaced s : single_spaced (collapseWhitespace s).
Proof.
  unfold collapseWhitespace. apply single_spaced_trim.
  apply (proj1 (replace_runs_single_spaced _ false)).
Qed.

(** X1. [collapseWhitespace] computes a normal form: its result has white
    space only as single space characters and none at either end (so
    trimming it changes nothing), and collapsing the result again gives the
    result. *)
Theorem collapseWhitespace_normal_form (s : jstring) :
  single_spaced (collapseWhitespace s)
  /\ trim (collapseWhitespace s) = collapseWhitespace s
  /\ collapseWhitespace (collapseWhitespace s) = collapseWhitespace s.
Proof.
  split; [apply collapseWhitespace_single_spaced|]. split.
  - apply trim_trim.
  - apply collapseWhitespace_fixed.
    + apply collapseWhitespace_single_spaced.
    + apply trim_starts_outside.
    + apply trim_ends_outside.
Qed.

(* ===================================================================== *)
(** * [prepareNoteTextForOllama] *)
(* ===================================================================== *)

Lemma prepareNote_unlimited text :
  prepareNoteTextForOllama text PosInfinity
  = trim (replace_runs is_space (stripYamlFrontmatter text)).
Proof. reflexivity. Qed.

(** X2. The character budget of [prepareNoteTextForOllama]: a budget that is
    zero, negative, NaN or infinite switches truncation off, and a positive
    budget [z] gives the first [z] characters of the untruncated text, so at
    most [z] characters. *)
Theorem prepareNote_budget (text : jstring) (z : Z) :
  let full := prepareNoteTextForOllama text PosInfinity in
  (z <= 0 -> prepareNoteTextForOllama text (Finite z) = full)
  /\ (0 < z ->
      prepareNoteTextForOllama text (Finite z) = take (Z.to_nat z) full
      /\ Z.of_nat (length (prepareNoteTextForOllama text (Finite z))) <= z)
  /\ prepareNoteTextForOllama text NaN = full
  /\ prepareNoteTextForOllama text NegInfinity = full.
Proof.
  intros full. subst full. rewrite prepareNote_unlimited.
  set (collapsed := trim _).
  split; [|split; [|split; reflexivity]].
  - intros Hz. unfold prepareNoteTextForOllama. fold collapsed.
    cbn [isFinite negb orb num_le_zero].
    by apply Z.leb_le in Hz as ->.
  - intros Hz. unfold prepareNoteTextForOllama. fold collapsed.
    cbn [isFinite negb orb num_le_zero length_gt_num slice_to].
    apply Z.leb_gt in Hz as Hz'. rewrite Hz'.
    replace (z <? 0) with false by (symmetry; apply Z.ltb_ge; lia).
    destruct (z <? Z.of_nat (length collapsed)) eqn:E.
    + split; [done|]. rewrite length_take. lia.
    + apply Z.ltb_ge in E. rewrite take_ge by lia. split; [done|lia].
Qed.

Lemma prepareNote_budget_witness :
  prepareNoteTextForOllama test_note_to_prepare (Finite 5) = js "Hello"
  /\ Z.of_nat (length (prepareNoteTextForOllama test_note_to_prepare (Finite 5)))
     <= 5.
Proof.
  pose proof (prepareNote_budget test_note_to_prepare 5) as (_ & H & _).
  apply H. lia.
Defined.

Lemma prepareNote_prefix text maxChars :
  prepareNoteTextForOllama text maxChars
  `prefix_of` prepareNoteTextForOllama text PosInfinity.
Proof.
  rewrite prepareNote_unlimited. unfold prepareNoteTextForOllama.
  set (collapsed := trim _).
  destruct (negb (isFinite maxChars) || num_le_zero maxChars); [done|].
  destruct (length_gt_num _ _); [|done].
  destruct maxChars as [| | |z]; simpl; try done.
  - apply prefix_nil.
  - apply prefix_nil.
  - destruct (z <? 0); apply prefix_take.
Qed.

Lemma prepareNote_single_spaced text maxChars :
  single_spaced (prepareNoteTextForOllama text maxChars).
Proof.
  pose proof (prepareNote_prefix text maxChars) as Hpre.
  rewrite prepareNote_unlimited in Hpre.
  eapply single_spaced_prefix; [exact Hpre|].
  apply single_spaced_trim. apply (proj1 (replace_runs_single_spaced _ false)).
Qed.

(** X3. A prepared note is one line of text: white space occurs in it only
    as single space characters, and never at its start, whatever the
    budget. *)
Theorem prepareNote_shape (text : jstring) (maxChars : JsNumber) :
  single_spaced (prepareNoteTextForOllama text maxChars)
  /\ starts_outside is_space (prepareNoteTextForOllama text maxChars).
Proof.
  split; [apply prepareNote_single_spaced|].
  pose proof (prepareNote_prefix text maxChars) as Hpre.
  rewrite prepareNote_unlimited in Hpre.
  eapply prefix_starts_outside; [exact Hpre|]. apply trim_starts_outside.
Qed.

Lemma single_spaced_no_line_feed s :
  single_spaced s -> Forall (fun c => is_code 10 c = false) s.
Proof.
  intros H. apply single_spaced_no_crlf_tab in H.
  eapply Forall_impl; [exact H|]. intros c. simpl. unfold is_crlf_tab.
  destruct (is_code 10 c); [|done]. by rewrite orb_true_r.
Qed.

Lemma split_lines_one_line s :
  Forall (fun c => is_code 10 c = false) s -> split_lines s = [s].
Proof.
  induction s as [|c s IH]; [done|]. intros H.
  apply Forall_cons in H as [Hc H]. simpl. rewrite Hc, (IH H).
  assert (starts_with_lf s = false) as ->; [|by rewrite andb_false_r].
  destruct s as [|d s]; [done|]. by apply Forall_cons in H as [? _].
Qed.

(** A text of one line has no front matter to strip. *)
Lemma strip_one_line s :
  Forall (fun c => is_code 10 c = false) s -> stripYamlFrontmatter s = s.
Proof.
  intros H. unfold stripYamlFrontmatter. destruct s as [|c s]; [done|].
  cbn [is_empty]. by rewrite split_lines_one_line.
Qed.

(** X4. Preparing a note that is already prepared (without budget) changes
    nothing but the cut: [prepare (prepare text, no budget) m] is
    [prepare text m]; in particular preparing without budget is
    idempotent. *)
Theorem prepareNote_stable (text : jstring) (maxChars : JsNumber) :
  prepareNoteTextForOllama (prepareNoteTextForOllama text PosInfinity) maxChars
  = prepareNoteTextForOllama text maxChars.
Proof.
  set (full := prepareNoteTextForOllama text PosInfinity).
  assert (single_spaced full) as Hss by apply prepareNote_single_spaced.
  assert (trim (replace_runs is_space (stripYamlFrontmatter full)) = full)
    as Hfix.
  { rewrite strip_one_line by (by apply single_spaced_no_line_feed).
    unfold replace_runs. rewrite (proj1 (replace_runs_space_fixed full Hss)).
    unfold full. rewrite prepareNote_unlimited. apply trim_trim. }
  unfold prepareNoteTextForOllama at 1. rewrite Hfix.
  unfold full. rewrite prepareNote_unlimited. reflexivity.
Qed.

(* ===================================================================== *)
(** * The caches of the store *)
(* ===================================================================== *)

Lemma StronglySorted_filter {A} (R : A -> A -> Prop) (P : A -> Prop)
    `{!forall x, Decision (P x)} (l : list A) :
  StronglySorted R l -> StronglySorted R (filter P l).
Proof.
  induction l as [|x l IH]; [done|]. intros Hs.
  apply StronglySorted_cons in Hs as [Hx Hs]. rewrite filter_cons.
  destruct (decide (P x)); [|by apply IH].
  apply StronglySorted_cons. split; [|by apply IH].
  apply Forall_forall. intros y Hy. apply list_elem_of_filter in Hy as [_ Hy].
  rewrite Forall_forall in Hx. by apply Hx.
Qed.

Lemma cache_valid_delete k c : cache_valid c -> cache_valid (obj_delete k c).
Proof.
  intros (Hwf & Hord & Hall). split; [|split].
  - by apply obj_delete_wf.
  - unfold js_ordered in *. rewrite obj_keys_delete.
    by apply StronglySorted_filter.
  - unfold obj_delete. apply Forall_forall. intros kv Hin.
    apply list_elem_of_filter in Hin as [_ Hin].
    rewrite Forall_forall in Hall. by apply Hall.
Qed.

Lemma cache_valid_delete_all (ks : list jstring) c :
  cache_valid c ->
  cache_valid (fold_left (fun next k => obj_delete k next) ks c).
Proof.
  revert c. induction ks as [|k ks IH]; intros c H; [done|].
  cbn [fold_left]. apply IH. by apply cache_valid_delete.
Qed.

(** Pruning deletes keys and does nothing else. *)
Lemma prune_is_deletion (c : OllamaTitleCache) maxEntries :
  exists ks : list jstring,
    pruneOllamaTitleCache c maxEntries
    = fold_left (fun next k => obj_delete k next) ks c.
Proof.
  unfold pruneOllamaTitleCache.
  destruct (num_falsy _ || num_le_zero _); [by exists []|].
  destruct (length_le_num _ _); [by exists []|].
  destruct (length _ =? 0)%nat; [by exists []|].
  eexists. apply fold_left_delete_fst.
Qed.

Lemma cache_valid_prune c maxEntries :
  cache_valid c -> cache_valid (pruneOllamaTitleCache c maxEntries).
Proof.
  intros H. destruct (prune_is_deletion c maxEntries) as [ks ->].
  by apply cache_valid_delete_all.
Qed.

Lemma cache_valid_set k e c :
  cache_valid c -> entry_valid e -> cache_valid (obj_set k e c).
Proof.
  intros (Hwf & Hord & Hall) He. split; [|split].
  - by apply obj_set_wf.
  - by apply obj_set_ordered.
  - apply Forall_forall. intros kv Hin.
    apply HeapPrune.obj_set_elem in Hin as [->|Hin]; [done|].
    rewrite Forall_forall in Hall. by apply Hall.
Qed.

Lemma cache_valid_sanitize value :
  cache_valid (sanitizeOllamaTitleCache value).
Proof.
  split; [apply sanitize_wf|]. split; [apply sanitize_ordered|].
  apply Forall_forall. intros [k e] Hin. by apply (sanitize_elem_valid value k).
Qed.

Lemma cache_valid_nil : cache_valid [].
Proof. split; [apply NoDup_nil_2|]. split; constructor. Qed.

(** Sanitizing the plain map of a valid cache gives the cache. *)
Lemma sanitize_valid_fixed (c : OllamaTitleCache) (omit : bool) :
  cache_valid c -> js "__proto__" ∉ obj_keys c ->
  sanitizeOllamaTitleCache (cache_to_value omit c) = c.
Proof.
  intros (Hwf & Hord & Hall) Hproto.
  unfold sanitizeOllamaTitleCache, cache_to_value. cbn.
  rewrite fold_left_fmap.
  rewrite (fold_left_ext_in _ (fun out kv => obj_set kv.1 kv.2 out)).
  - by apply (obj_rebuild [] c).
  - intros out [k e] Hin. unfold Cache.sanitize_step. cbn [fst snd].
    rewrite Forall_forall in Hall.
    rewrite (sanitizeEntry_entry_to_value omit e (Hall _ Hin)).
    apply obj_assign_other. intros ->. apply Hproto.
    unfold obj_keys. apply list_elem_of_fmap. by exists (js "__proto__", e).
Qed.

(** X5. Persisting and loading: a cache of the store, written out as a
    plain map (a missing [lastUsed] as an [undefined] property or as no
    property) and sanitized again, is the same cache; no entry is lost or
    changed on the way.  (The key [__proto__] is left out: the sanitizer
    stores nothing under it.) *)
Theorem sanitize_reloads_valid_cache (c : OllamaTitleCache) (omit : bool) :
  cache_valid c -> js "__proto__" ∉ obj_keys c ->
  sanitizeOllamaTitleCache (cache_to_value omit c) = c.
Proof. apply sanitize_valid_fixed. Qed.

Lemma sanitize_reloads_valid_cache_witness :
  sanitizeOllamaTitleCache (cache_to_value true sample_cache) = sample_cache.
Proof.
  apply (sanitize_reloads_valid_cache sample_cache true);
    [|apply (bool_decide_unpack _); vm_compute; exact I].
  split; [|split].
  - unfold obj_wf. apply (bool_decide_unpack _). vm_compute. exact I.
  - unfold js_ordered, sample_cache. simpl.
    repeat (apply StronglySorted_cons; split);
      repeat (apply Forall_cons; split); try apply Forall_nil;
      try apply SSorted_nil; reflexivity.
  - unfold sample_cache.
    repeat (apply Forall_cons; split); try done.
    all: unfold entry_valid; cbn [snd title mtime lastUsed].
    all: split; [vm_compute; discriminate|].
    all: split; [eexists; split; [reflexivity|lia] | right; eexists; reflexivity].
Defined.

(** X6. The caches of the store stay valid: what [sanitizeOllamaTitleCache]
    returns is valid, pruning a valid cache gives a valid cache, and so does
    an upsert into a valid cache (or into none) of a title that is not
    blank, with a finite modification time that is not negative, at a
    finite time. *)
Theorem store_caches_stay_valid :
  (forall value, cache_valid (sanitizeOllamaTitleCache value))
  /\ (forall c maxEntries,
        cache_valid c -> cache_valid (pruneOllamaTitleCache c maxEntries))
  /\ (forall dateNow args (m n : Z),
        cache_valid (default [] (cache args)) ->
        trim (entry_title args) <> [] ->
        entry_mtime args = Finite m -> 0 <= m ->
        default dateNow (nowMs args) = Finite n ->
        cache_valid (upsertOllamaTitleCacheEntry dateNow args)).
Proof.
  split; [apply cache_valid_sanitize|]. split; [apply cache_valid_prune|].
  intros dateNow args m n Hc Ht Hm Hpos Hn.
  unfold upsertOllamaTitleCacheEntry. apply cache_valid_prune.
  apply cache_valid_set; [done|]. rewrite Hm, Hn.
  split; [done|]. split; [by exists m | right; by exists n].
Qed.

Lemma store_caches_stay_valid_witness :
  cache_valid (upsertOllamaTitleCacheEntry (Finite 100)
                 (mkUpsertArgs None (js "c.md") (Finite 2) (js "C")
                               (Some (Finite 2)) None)).
Proof.
  pose proof store_caches_stay_valid as (_ & _ & H).
  apply (H (Finite 100) _ 2 100).
  - apply cache_valid_nil.
  - vm_compute. discriminate.
  - reflexivity.
  - lia.
  - reflexivity.
Defined.

(** ** The size of the caches of the store *)

Lemma prune_length_le (c : OllamaTitleCache) (z : Z) :
  obj_wf c -> 0 < z ->
  Z.of_nat (length (pruneOllamaTitleCache c (Some (Finite z)))) <= z.
Proof.
  intros Hwf Hz.
  destruct (Z.le_gt_cases (Z.of_nat (length c)) z) as [Hle|Hgt].
  - rewrite prune_unchanged; [lia|].
    unfold max_of. simpl. apply orb_true_iff. right. by apply Z.leb_le.
  - rewrite prune_evicts_length by (done || lia). lia.
Qed.

Lemma obj_delete_length_le {V} k (o : list (jstring * V)) :
  (length (obj_delete k o) <= length o)%nat.
Proof. unfold obj_delete. apply length_filter. Qed.

Lemma prune_never_grows (c : OllamaTitleCache) maxEntries :
  (length (pruneOllamaTitleCache c maxEntries) <= length c)%nat.
Proof.
  destruct (prune_is_deletion c maxEntries) as [ks ->].
  revert c. induction ks as [|k ks IH]; intros c; [done|].
  cbn [fold_left]. etrans; [apply IH|]. apply obj_delete_length_le.
Qed.

Lemma obj_set_length {V} k v (o : list (jstring * V)) :
  (length (obj_set k v o) <= S (length o))%nat.
Proof.
  destruct (decide (k ∈ obj_keys o)) as [H|H].
  - pose proof (obj_keys_set_has k v o H) as Hk.
    apply (f_equal length) in Hk. unfold obj_keys in Hk.
    rewrite !length_map in Hk. lia.
  - pose proof (obj_keys_set_new k v o H) as Hk.
    apply Permutation_length in Hk. unfold obj_keys in Hk.
    simpl in Hk. rewrite !length_map in Hk. lia.
Qed.

(** X7. The bound on the store: for a positive integer [maxEntries], the
    cache loaded at start-up ([pruneOllamaTitleCache] of
    [sanitizeOllamaTitleCache] of any persisted value) has at most
    [maxEntries] entries, and so has the result of an upsert into any
    cache; an upsert adds at most one entry. *)
Theorem store_size_bounded (z : Z) :
  0 < z ->
  (forall cacheData,
     Z.of_nat (length (pruneOllamaTitleCache (sanitizeOllamaTitleCache cacheData)
                         (Some (Finite z)))) <= z)
  /\ (forall dateNow args,
        obj_wf (default [] (cache args)) ->
        maxEntries args = Some (Finite z) ->
        Z.of_nat (length (upsertOllamaTitleCacheEntry dateNow args)) <= z
        /\ (length (upsertOllamaTitleCacheEntry dateNow args)
            <= S (length (default [] (cache args))))%nat).
Proof.
  intros Hz. split.
  - intros cacheData. apply prune_length_le; [apply sanitize_wf | done].
  - intros dateNow args Hwf Hmax. unfold upsertOllamaTitleCacheEntry.
    rewrite Hmax. split.
    + apply prune_length_le; [by apply obj_set_wf | done].
    + etrans; [apply prune_never_grows | apply obj_set_length].
Qed.

Lemma store_size_bounded_witness :
  Z.of_nat (length (pruneOllamaTitleCache
                      (sanitizeOllamaTitleCache test_raw_cache)
                      (Some (Finite 2)))) <= 2
  /\ Z.of_nat (length (upsertOllamaTitleCacheEntry (Finite 0) test_upsert))
     <= 2.
Proof.
  pose proof (store_size_bounded 2 ltac:(lia)) as [H1 H2].
  split; [apply H1|].
  apply (H2 (Finite 0) test_upsert); [|reflexivity].
  unfold obj_wf. apply (bool_decide_unpack _). vm_compute. exact I.
Defined.

(* ===================================================================== *)
(** * The title served for a file *)
(* ===================================================================== *)

Lemma getCached_no_entry path m enabled (c : OllamaTitleCache) :
  obj_get path c = None ->
  getCachedOllamaTitle path m enabled (Some c) = None.
Proof.
  intros H. unfold getCachedOllamaTitle. rewrite H.
  by destruct (negb enabled || is_empty path).
Qed.

(** X8. The title served after an upsert follows the modification time.
    After [upsertOllamaTitleCacheEntry] wrote a title for a file at
    modification time [M],
      - [getCachedOllamaTitle] serves no title for that file to an item
        whose modification time is not [M] (nor to any item when [M] is
        NaN): a title is never served for changed content;
      - it serves exactly the title written to an item whose modification
        time is [M], when titles are enabled, the path and the title are
        not empty and the pruning step kept the key;
      - for every other file it serves what it served before, or nothing
        (when the pruning step evicted that file). *)
Theorem cached_title_follows_mtime (dateNow : JsNumber) (args : UpsertArgs)
    (item_mtime : JsNumber) (enabled : bool) :
  let result := upsertOllamaTitleCacheEntry dateNow args in
  (strict_eq_num (entry_mtime args) item_mtime = false ->
   getCachedOllamaTitle (filePath args) item_mtime enabled (Some result) = None)
  /\ (enabled = true -> filePath args <> [] -> entry_title args <> [] ->
      strict_eq_num (entry_mtime args) item_mtime = true ->
      is_Some (obj_get (filePath args) result) ->
      getCachedOllamaTitle (filePath args) item_mtime enabled (Some result)
      = Some (entry_title args))
  /\ (forall path,
        path <> filePath args ->
        getCachedOllamaTitle path item_mtime enabled (Some result) = None
        \/ getCachedOllamaTitle path item_mtime enabled (Some result)
           = getCachedOllamaTitle path item_mtime enabled (cache args)).
Proof.
  intros result. subst result. rewrite upsert_unfold.
  set (next := upsert_next dateNow args).
  pose proof (upsert_next_get_key dateNow args) as Hkey. fold next in Hkey.
  split; [|split].
  - intros Hne.
    destruct (prune_get_None_or_same next (maxEntries args) (filePath args))
      as [H|H].
    + by apply getCached_no_entry.
    + unfold getCachedOllamaTitle. rewrite H, Hkey.
      destruct (negb enabled || is_empty (filePath args)); [done|].
      cbn [mtime upserted_entry]. by rewrite Hne.
  - intros -> Hpath Htitle Heq [e He].
    apply prune_get_Some in He as He'. rewrite Hkey in He'.
    injection He' as <-.
    unfold getCachedOllamaTitle. rewrite He.
    apply is_empty_false in Hpath, Htitle. rewrite Hpath.
    cbn [negb orb mtime title upserted_entry]. by rewrite Heq, Htitle.
  - intros path Hpath.
    destruct (prune_get_None_or_same next (maxEntries args) path) as [H|H].
    + left. by apply getCached_no_entry.
    + right. unfold next in *.
      rewrite upsert_next_get_other in H by done.
      unfold getCachedOllamaTitle. rewrite H.
      destruct (cache args); [done|].
      by destruct (negb enabled || is_empty path).
Qed.

Lemma cached_title_follows_mtime_witness :
  getCachedOllamaTitle (js "c.md") (Finite 2) true
    (Some (upsertOllamaTitleCacheEntry (Finite 0) test_upsert))
  = Some (js "C").
Proof.
  pose proof (cached_title_follows_mtime (Finite 0) test_upsert (Finite 2) true)
    as (_ & H & _).
  apply H.
  - reflexivity.
  - vm_compute. discriminate.
  - vm_compute. discriminate.
  - reflexivity.
  - vm_compute. eauto.
Defined.
(* ===================================================================== *)
(** * Labels *)
(* ===================================================================== *)

Lemma collapsed_fixed s : collapsed s -> collapseWhitespace s = s.
Proof. intros (H1 & H2 & H3). by apply collapseWhitespace_fixed. Qed.

Lemma collapsed_trim s : collapsed s -> trim s = s.
Proof. intros (_ & H2 & H3). by apply trim_fixed. Qed.

Lemma collapseWhitespace_collapsed s : collapsed (collapseWhitespace s).
Proof.
  split; [apply collapseWhitespace_single_spaced|].
  unfold collapseWhitespace.
  split; [apply trim_starts_outside | apply trim_ends_outside].
Qed.

Lemma no_space_single_spaced s :
  Forall (fun c => is_space c = false) s -> single_spaced s.
Proof.
  induction 1 as [|c s Hc _ IH]; [done|]. simpl. split; [|done].
  intros Hsp. congruence.
Qed.

Lemma no_space_collapsed s :
  Forall (fun c => is_space c = false) s -> collapsed s.
Proof.
  intros H. split; [by apply no_space_single_spaced|]. split.
  - by destruct H.
  - unfold ends_outside. apply Forall_rev in H. by destruct H.
Qed.

Lemma ends_outside_app p (a b : jstring) :
  b <> [] -> ends_outside p b -> ends_outside p (a ++ b).
Proof.
  intros Hb H. unfold ends_outside in *. rewrite rev_app_distr.
  destruct (rev b) as [|c r] eqn:E; [|done].
  apply (f_equal (@rev ascii)) in E. rewrite rev_involutive in E. done.
Qed.

(** Two collapsed strings joined by a separator. *)
Lemma collapsed_glue a sep b :
  collapsed a -> a <> [] -> collapsed b -> b <> [] -> single_spaced sep ->
  collapsed (a ++ sep ++ b) /\ a ++ sep ++ b <> [].
Proof.
  intros (Ha1 & Ha2 & Ha3) Ha (Hb1 & Hb2 & Hb3) Hb Hsep.
  split; [|by destruct a]. split; [|split].
  - apply single_spaced_join; [done| |by left].
    apply single_spaced_join; [done|done|by right].
  - by destruct a.
  - rewrite app_assoc. by apply ends_outside_app.
Qed.

Lemma single_spaced_space : single_spaced (js " ").
Proof. simpl. split; [|done]. by intros _. Qed.

Lemma single_spaced_dash : single_spaced (js " - ").
Proof.
  simpl. split; [by intros _|]. split; [by intros [=]|].
  split; [|done]. by intros _.
Qed.

Lemma keywords_collapsed (ws : list jstring) :
  Forall keyword_shape ws -> ws <> [] ->
  collapsed (join (js " ") ws) /\ join (js " ") ws <> [].
Proof.
  induction 1 as [|w ws (Hne & Hw & _) Hws IH]; [done|]. intros _.
  destruct ws as [|w' ws].
  - cbn [join]. split; [by apply no_space_collapsed | done].
  - destruct IH as [IH1 IH2]; [done|].
    change (join (js " ") (w :: w' :: ws))
      with (w ++ js " " ++ join (js " ") (w' :: ws)).
    apply collapsed_glue; try done;
      first [by apply no_space_collapsed | apply single_spaced_space].
Qed.

Lemma match_classes_Forall (P : ascii -> Prop) classes s :
  match_classes classes s = true ->
  Forall (fun p : ascii -> bool => forall c, p c = true -> P c) classes ->
  Forall P s.
Proof.
  revert s. induction classes as [|p classes IH]; intros [|c s]; try done.
  simpl. intros [Hc Hs]%andb_true_iff Hall.
  apply Forall_cons in Hall as [Hp Hall]. constructor; auto.
Qed.

Lemma digit_no_space c : is_digit c = true -> is_space c = false.
Proof. destruct c as [[] [] [] [] [] [] [] []]; by vm_compute. Qed.

Lemma hyphen_no_space c : ascii_eqb "-" c = true -> is_space c = false.
Proof. destruct c as [[] [] [] [] [] [] [] []]; by vm_compute. Qed.

(** A date key is in collapsed form, and not empty. *)
Lemma date_key_collapsed d :
  DATE_KEY_RE d = true -> collapsed d /\ d <> [].
Proof.
  intros H. split.
  - apply no_space_collapsed.
    eapply match_classes_Forall; [exact H|]. cbn [replicate lit js map app].
    repeat (first [apply Forall_nil_2 | apply Forall_cons_2]);
      first [apply digit_no_space | apply hyphen_no_space].
  - intros ->. done.
Qed.

(** X9. The label of a generated title is a clean title.  For the parts
    that [parseDailyTitleParts] returned and a date that is not empty and
    in collapsed form (a date key [YYYY-MM-DD] is), the label of
    [formatDailyTitleLabel] is in collapsed form: white space occurs in it
    only as single space characters and not at either end, so that neither
    [trim] nor [collapseWhitespace] changes it; and it is not empty, so
    that the cache keeps it as a title. *)
Theorem generated_label_shape (value : JsValue) (parts : DailyTitleParts)
    (dateStr : jstring) :
  parseDailyTitleParts value = Some parts ->
  collapsed dateStr -> dateStr <> [] ->
  let label := formatDailyTitleLabel dateStr parts in
  collapsed label
  /\ collapseWhitespace label = label
  /\ trim label = label
  /\ label <> [].
Proof.
  intros Hparse Hd Hne label.
  assert (collapsed label /\ label <> []) as [Hc Hl].
  { pose proof (parse_parts_shape _ _ Hparse) as (Hlen & Hws & Hdesc).
    apply parse_Some_inv in Hparse
      as (_ & items & desc & _ & _ & _ & Hdne & Hparts).
    assert (description parts <> []) as Hdne' by (by subst parts).
    destruct Hdesc as (_ & Htrim & Hss & _).
    assert (collapsed (description parts)) as Hcd.
    { split; [done|]. rewrite <- Htrim.
      split; [apply trim_starts_outside | apply trim_ends_outside]. }
    destruct (keywords_collapsed (keywords parts) Hws) as [Hk1 Hk2].
    { intros E. by rewrite E in Hlen. }
    unfold label, formatDailyTitleLabel.
    destruct (collapsed_glue (join (js " ") (keywords parts)) (js " - ")
                (description parts) Hk1 Hk2 Hcd Hdne' single_spaced_dash)
      as [Hr1 Hr2].
    exact (collapsed_glue dateStr (js " - ") _ Hd Hne Hr1 Hr2
             single_spaced_dash). }
  split; [done|]. split; [by apply collapsed_fixed|].
  split; [by apply collapsed_trim | done].
Qed.

Lemma generated_label_shape_witness :
  let label :=
    formatDailyTitleLabel (js "2026-01-03")
      (mkDailyTitleParts [js "Work"; js "Deep"; js "planning"]
                         (js "Did a lot. Newline!")) in
  collapsed label /\ collapseWhitespace label = label
  /\ trim label = label /\ label <> [].
Proof.
  apply (generated_label_shape test_parts).
  - reflexivity.
  - apply date_key_collapsed. reflexivity.
  - discriminate.
Defined.
(* ===================================================================== *)
(** * The prompt *)
(* ===================================================================== *)

Lemma prepareNote_length_le text z :
  0 < z -> Z.of_nat (length (prepareNoteTextForOllama text (Finite z))) <= z.
Proof.
  intros Hz. unfold prepareNoteTextForOllama.
  set (c := trim _).
  cbn [isFinite negb orb num_le_zero].
  destruct (z <=? 0) eqn:E; [lia|].
  unfold length_gt_num.
  destruct (z <? Z.of_nat (length c)) eqn:E2.
  - unfold slice_to. cbn. destruct (z <? 0) eqn:E3; [lia|].
    rewrite length_take. lia.
  - lia.
Qed.

(** The prompt is the instructions, the date, a heading and the note. *)
Lemma prompt_unfold dateStr noteText :
  exists instructions heading,
    length instructions = 380%nat /\ length heading = 15%nat
    /\ buildDailyTitlePrompt dateStr noteText
       = instructions ++ dateStr ++ heading ++ noteText.
Proof.
  eexists (firstn 380 (buildDailyTitlePrompt [] [])),
          (skipn 380 (buildDailyTitlePrompt [] [])).
  split; [by vm_compute|]. split; [by vm_compute|].
  unfold buildDailyTitlePrompt. cbn [join].
  rewrite <- !app_assoc. reflexivity.
Qed.

(** X10. The prompt of a generated title.  The prompt that
    [buildDailyTitlePrompt] builds from the note that
    [prepareNoteTextForOllama] prepared is 395 characters of instructions
    and headings, the date and the note: the note stands at the end of the
    prompt, holds no line feed (it is the last line, whatever the file
    holds), and under a positive budget [z] the prompt has at most
    [395 + |dateStr| + z] characters. *)
Theorem prompt_of_prepared_note (dateStr raw : jstring) (maxChars : JsNumber) :
  let note := prepareNoteTextForOllama raw maxChars in
  let prompt := buildDailyTitlePrompt dateStr note in
  length prompt = (395 + length dateStr + length note)%nat
  /\ note `suffix_of` prompt
  /\ Forall (fun c => c <> newline) note
  /\ (forall z, maxChars = Finite z -> 0 < z ->
        Z.of_nat (length prompt) <= 395 + Z.of_nat (length dateStr) + z).
Proof.
  intros note prompt.
  destruct (prompt_unfold dateStr note) as (ins & hd & Hins & Hhd & Hp).
  fold prompt in Hp.
  assert (length prompt = (395 + length dateStr + length note)%nat) as Hlen.
  { rewrite Hp, !length_app. lia. }
  split; [done|]. split; [|split].
  - rewrite Hp. exists (ins ++ dateStr ++ hd). by rewrite <- !app_assoc.
  - pose proof (prepareNote_single_spaced raw maxChars) as H.
    apply single_spaced_no_line_feed in H.
    eapply Forall_impl; [exact H|]. intros c Hc ->. by vm_compute in Hc.
  - intros z -> Hz. pose proof (prepareNote_length_le raw z Hz). fold note in H.
    lia.
Qed.

Lemma prompt_of_prepared_note_witness :
  Z.of_nat (length (buildDailyTitlePrompt (js "2026-01-03")
                      (prepareNoteTextForOllama test_note_to_prepare (Finite 5))))
  <= 395 + Z.of_nat (length (js "2026-01-03")) + 5.
Proof.
  pose proof (prompt_of_prepared_note (js "2026-01-03") test_note_to_prepare
                (Finite 5)) as (_ & _ & _ & H).
  apply H; [reflexivity | lia].
Defined.

(* ===================================================================== *)
(** * The order of eviction among entries of the same age *)
(* ===================================================================== *)

(** The sort is stable: the elements of one sort key keep their order. *)
Lemma insert_by_lastUsed_filter (z : Z) x l :
  filter (fun y : jstring * Z => y.2 = z) (insert_by_lastUsed x l)
  = filter (fun y : jstring * Z => y.2 = z) (x :: l).
Proof.
  induction l as [|y l IH]; simpl; [done|].
  destruct (x.2 <=? y.2) eqn:E; [done|]. apply Z.leb_gt in E.
  rewrite (filter_cons _ y), IH, !filter_cons.
  repeat case_decide; try done. lia.
Qed.

Lemma sort_by_lastUsed_stable (z : Z) l :
  filter (fun y : jstring * Z => y.2 = z) (sort_by_lastUsed l)
  = filter (fun y : jstring * Z => y.2 = z) l.
Proof.
  induction l as [|x l IH]; simpl; [done|].
  by rewrite insert_by_lastUsed_filter, !filter_cons, IH.
Qed.

Lemma filter_split {A} (P : A -> Prop) `{!forall x, Decision (P x)}
    (l a b : list A) (y : A) :
  filter P l = a ++ y :: b ->
  exists l1 l2, l = l1 ++ y :: l2 /\ filter P l1 = a /\ filter P l2 = b.
Proof.
  revert a. induction l as [|x l IH]; intros a Hf.
  - by destruct a.
  - rewrite filter_cons in Hf. destruct (decide (P x)) as [Hx|Hx].
    + destruct a as [|a0 a]; injection Hf as -> Hf.
      * by exists [], l.
      * destruct (IH a Hf) as (l1 & l2 & -> & H1 & H2).
        exists (a0 :: l1), l2. rewrite filter_cons, decide_True by done.
        by rewrite H1.
    + destruct (IH a Hf) as (l1 & l2 & -> & H1 & H2).
      exists (x :: l1), l2. by rewrite filter_cons, decide_False.
Qed.

(** Two elements of one sort key, the first among the first [d] elements of
    the sorted list and the second after them, stand in this order in the
    list that was sorted. *)
Lemma sorted_tie_order (l : list (jstring * Z)) (d : nat) x y :
  x ∈ take d (sort_by_lastUsed l) -> y ∈ drop d (sort_by_lastUsed l) ->
  x.2 = y.2 ->
  exists l1 l2 l3, l = l1 ++ x :: l2 ++ y :: l3.
Proof.
  intros Hx Hy Hxy.
  apply list_elem_of_split in Hx as (a & b & Hx).
  apply list_elem_of_split in Hy as (c & e & Hy).
  pose proof (sort_by_lastUsed_stable x.2 l) as Hst.
  rewrite <- (take_drop d (sort_by_lastUsed l)), Hx, Hy in Hst.
  rewrite !filter_app, !filter_cons, !decide_True in Hst by done.
  rewrite <- app_assoc in Hst. cbn [app] in Hst.
  symmetry in Hst. apply filter_split in Hst as (l1 & r & -> & _ & Hr).
  rewrite app_assoc in Hr.
  apply filter_split in Hr as (l2 & l3 & -> & _ & _).
  by exists l1, l2, l3.
Qed.

(** X11. The order of eviction.  When a pruning step to [m > 0] entries
    evicts the key [k] and keeps the key [k'], the entry of [k] was last
    used no later than the entry of [k'] ([lastUsed] read as the sort reads
    it: 0 when it is missing or not finite); and when both were last used
    at the same time, [k] stands before [k'] in the enumeration order of
    the cache: among entries of the same age, the pruning step evicts in
    enumeration order. *)
Theorem prune_eviction_order (cache : OllamaTitleCache) (m : Z)
    (k k' : jstring) (e e' : OllamaTitleCacheEntry) :
  0 < m ->
  let pruned := pruneOllamaTitleCache cache (Some (Finite m)) in
  obj_get k cache = Some e -> obj_get k pruned = None ->
  obj_get k' pruned = Some e' ->
  sort_key_of (lastUsed e) <= sort_key_of (lastUsed e')
  /\ (sort_key_of (lastUsed e) = sort_key_of (lastUsed e') ->
      exists l1 l2 l3, obj_keys cache = l1 ++ k :: l2 ++ k' :: l3).
Proof.
  intros Hm pruned Hk Hgone Hkept.
  split; [by apply (prune_evicted_le_kept cache m k e k' e')|].
  intros Htie. subst pruned.
  apply prune_get_Some in Hkept as Hk'.
  destruct (Z.le_gt_cases (Z.of_nat (length cache)) m) as [Hle|Hgt].
  { rewrite prune_unchanged in Hgone; [congruence|].
    unfold max_of. simpl. apply orb_true_iff. right. by apply Z.leb_le. }
  rewrite prune_evicts in Hgone, Hkept by lia.
  rewrite obj_get_delete_all in Hgone, Hkept.
  set (d := (length cache - Z.to_nat m)%nat) in *.
  destruct (decide (k ∈ evicted cache d)) as [Hin|]; [|congruence].
  destruct (decide (k' ∈ evicted cache d)) as [|Hnin]; [done|].
  unfold evicted in Hin, Hnin.
  set (f := fun k => (k, effectiveLastUsed (obj_get k cache))) in *.
  set (sorted := sort_by_lastUsed _) in *.
  assert (Hall : forall x, x ∈ sorted -> x = f x.1).
  { intros x Hx. unfold sorted in Hx. rewrite sort_by_lastUsed_perm in Hx.
    apply list_elem_of_fmap in Hx as [k0 [-> _]]. done. }
  apply list_elem_of_fmap in Hin as [x [-> Hx]].
  assert (Hxs : x ∈ sorted).
  { rewrite <- (take_drop d sorted). apply elem_of_app. by left. }
  rewrite (Hall x Hxs) in Hx.
  assert (Hin' : f k' ∈ sorted).
  { unfold sorted. rewrite sort_by_lastUsed_perm.
    apply list_elem_of_fmap. exists k'. split; [done|].
    apply obj_get_is_Some. eauto. }
  rewrite <- (take_drop d sorted) in Hin'.
  apply elem_of_app in Hin' as [Hin'|Hin'].
  { exfalso. apply Hnin. apply list_elem_of_fmap. by exists (f k'). }
  destruct (sorted_tie_order _ d _ _ Hx Hin') as (l1 & l2 & l3 & Hl).
  { unfold f. cbn [snd]. by rewrite Hk, Hk'. }
  exists (map fst l1), (map fst l2), (map fst l3).
  apply (f_equal (map fst)) in Hl. unfold f in Hl.
  rewrite sortable_keys in Hl.
  rewrite Hl, !map_app. cbn [map fst]. by rewrite map_app.
Qed.

Lemma prune_eviction_order_witness :
  sort_key_of (Some (Finite 5)) <= sort_key_of (Some (Finite 5))
  /\ (sort_key_of (Some (Finite 5)) = sort_key_of (Some (Finite 5)) ->
      exists l1 l2 l3,
        obj_keys tied_cache = l1 ++ js "b" :: l2 ++ js "a" :: l3).
Proof.
  apply (prune_eviction_order tied_cache 1 (js "b") (js "a")
           (mkEntry (Finite 1) (js "B") (Some (Finite 5)))
           (mkEntry (Finite 2) (js "A") (Some (Finite 5)))).
  - lia.
  - reflexivity.
  - reflexivity.
  - reflexivity.
Defined.

(* ===================================================================== *)
(** * Colours *)
(* ===================================================================== *)

Lemma match_classes_length classes s :
  match_classes classes s = true -> length s = length classes.
Proof.
  revert s. induction classes as [|p classes IH]; intros [|c s]; try done.
  simpl. intros [_ Hs]%andb_true_iff. by rewrite (IH s).
Qed.

(** Matching is kept by a map on characters that takes each class into the
    class that stands at its place. *)
Lemma match_classes_fmap (g : ascii -> ascii) classes classes' s :
  Forall2 (fun p q : ascii -> bool => forall c, p c = true -> q (g c) = true)
          classes classes' ->
  match_classes classes s = true -> match_classes classes' (map g s) = true.
Proof.
  intros H. revert s. induction H as [|p q ps qs Hpq _ IH]; intros [|c s];
    try done.
  simpl. intros [Hc Hs]%andb_true_iff. by rewrite (Hpq c Hc), (IH s Hs).
Qed.

Lemma hash_lower c :
  ascii_eqb "#" c = true -> ascii_eqb "#" (to_lower_char c) = true.
Proof. destruct c as [[] [] [] [] [] [] [] []]; by vm_compute. Qed.

Lemma hex_lower c :
  is_hex_digit c = true -> is_lower_hex_digit (to_lower_char c) = true.
Proof. destruct c as [[] [] [] [] [] [] [] []]; by vm_compute. Qed.

Lemma hash_hash c : ascii_eqb "#" c = true -> ascii_eqb "#" c = true.
Proof. done. Qed.

Lemma lower_hex_hex c : is_lower_hex_digit c = true -> is_hex_digit c = true.
Proof. destruct c as [[] [] [] [] [] [] [] []]; by vm_compute. Qed.

Lemma hash_lower_fixed c : ascii_eqb "#" c = true -> to_lower_char c = c.
Proof. destruct c as [[] [] [] [] [] [] [] []]; by vm_compute. Qed.

Lemma lower_hex_lower_fixed c :
  is_lower_hex_digit c = true -> to_lower_char c = c.
Proof. destruct c as [[] [] [] [] [] [] [] []]; by vm_compute. Qed.

Lemma hash_no_space c : ascii_eqb "#" c = true -> is_space c = false.
Proof. destruct c as [[] [] [] [] [] [] [] []]; by vm_compute. Qed.

Lemma lower_hex_no_space c :
  is_lower_hex_digit c = true -> is_space c = false.
Proof. destruct c as [[] [] [] [] [] [] [] []]; by vm_compute. Qed.

(** What the test of the pattern decides. *)
Lemma normalizeColor_cases input :
  HEX_COLOR_RE (trim input) = false /\ normalizeListItemColor input = []
  \/ HEX_COLOR_RE (trim input) = true
     /\ canonical_color (normalizeListItemColor input) = true.
Proof.
  unfold normalizeListItemColor.
  destruct (HEX_COLOR_RE (trim input)) eqn:H; [right|by left].
  split; [done|]. cbn [negb]. unfold HEX_COLOR_RE in H.
  apply orb_true_iff in H as [H|H].
  - pose proof (match_classes_length _ _ H) as Hlen.
    destruct (trim input) as [|a [|r [|g [|b [|]]]]]; cbn in Hlen; try done.
    clear Hlen.
    change (ascii_eqb "#" a
            && (is_hex_digit r && (is_hex_digit g && (is_hex_digit b && true)))
            = true) in H.
    rewrite !andb_true_iff in H. destruct H as (_ & Hr & Hg & Hb & _).
    change (match_classes (lit "#" ++ replicate 6 is_lower_hex_digit)
              (map to_lower_char
                 (ascii_of_N 35 :: r :: r :: g :: g :: b :: b :: []))
            = true).
    eapply (match_classes_fmap to_lower_char
              (lit "#" ++ replicate 6 is_hex_digit)).
    + cbn [lit js map app replicate list_ascii_of_string].
      repeat (first [apply Forall2_nil_2 | apply Forall2_cons_2]);
        first [apply hash_lower | apply hex_lower].
    + change (ascii_eqb "#" (ascii_of_N 35)
              && (is_hex_digit r && (is_hex_digit r && (is_hex_digit g
                  && (is_hex_digit g && (is_hex_digit b
                      && (is_hex_digit b && true)))))) = true).
      by rewrite Hr, Hg, Hb.
  - rewrite (match_classes_length _ _ H). cbn [length app lit js map replicate
      list_ascii_of_string Nat.eqb].
    unfold toLowerCase, canonical_color.
    eapply match_classes_fmap; [|exact H].
    cbn [lit js map app replicate list_ascii_of_string].
    repeat (first [apply Forall2_nil_2 | apply Forall2_cons_2]);
      first [apply hash_lower | apply hex_lower].
Qed.

(** A canonical colour is left alone. *)
Lemma normalizeColor_canonical_fixed c :
  canonical_color c = true -> normalizeListItemColor c = c.
Proof.
  intros H. unfold canonical_color in H.
  assert (Forall (fun a => is_space a = false) c) as Hsp.
  { eapply match_classes_Forall; [exact H|].
    cbn [lit js map app replicate list_ascii_of_string].
    repeat (first [apply Forall_nil_2 | apply Forall_cons_2]);
      first [apply hash_no_space | apply lower_hex_no_space]. }
  assert (Forall (fun a => to_lower_char a = a) c) as Hlow.
  { eapply match_classes_Forall; [exact H|].
    cbn [lit js map app replicate list_ascii_of_string].
    repeat (first [apply Forall_nil_2 | apply Forall_cons_2]);
      first [apply hash_lower_fixed | apply lower_hex_lower_fixed]. }
  assert (match_classes (lit "#" ++ replicate 6 is_hex_digit) c = true) as Hhex.
  { rewrite <- (map_id c). eapply match_classes_fmap; [|exact H].
    cbn [lit js map app replicate list_ascii_of_string].
    repeat (first [apply Forall2_nil_2 | apply Forall2_cons_2]);
      first [apply hash_hash | apply lower_hex_hex]. }
  unfold normalizeListItemColor.
  rewrite (collapsed_trim c (no_space_collapsed c Hsp)).
  unfold HEX_COLOR_RE. rewrite Hhex, orb_true_r. cbn [negb].
  rewrite (match_classes_length _ _ H).
  cbn [length app lit js map replicate list_ascii_of_string Nat.eqb].
  unfold toLowerCase. clear -Hlow.
  induction Hlow as [|a c Ha _ IH]; [done|]. simpl. by rewrite Ha, IH.
Qed.

(** X12. [normalizeListItemColor] gives canonical colours.  The result is
    the empty string when the trimmed input is not [#rgb] or [#rrggbb] in
    hexadecimal digits, and otherwise a colour of the form [#rrggbb] in
    lower case (seven characters); normalizing the result again gives the
    result. *)
Theorem normalize_color_canonical (input : jstring) :
  let c := normalizeListItemColor input in
  (HEX_COLOR_RE (trim input) = false /\ c = []
   \/ HEX_COLOR_RE (trim input) = true /\ canonical_color c = true
      /\ length c = 7%nat)
  /\ normalizeListItemColor c = c.
Proof.
  intros c. subst c.
  destruct (normalizeColor_cases input) as [[H1 H2]|[H1 H2]].
  - split; [by left|]. by rewrite H2.
  - split.
    + right. split; [done|]. split; [done|].
      by rewrite (match_classes_length _ _ H2).
    + by apply normalizeColor_canonical_fixed.
Qed.

(* ===================================================================== *)
(** * The colour tags that are kept *)
(* ===================================================================== *)

(** What holds of the object before the loop and of each property that the
    loop writes holds of each property of the object after the loop. *)
Lemma collect_Forall {A V} (f : A -> option (jstring * V))
    (P : jstring * V -> Prop) l out :
  Forall P out ->
  (forall x k v, x ∈ l -> f x = Some (k, v) -> P (k, v)) ->
  Forall P (fold_left (collect_step f) l out).
Proof.
  revert out. induction l as [|x l IH]; intros out Hout Hf; [done|].
  cbn [fold_left]. apply IH.
  - unfold collect_step. destruct (f x) as [[k v]|] eqn:E; [|done].
    apply Forall_forall. intros kv Hin.
    apply HeapPrune.obj_set_elem in Hin as [->|Hin].
    + apply (Hf x); [apply list_elem_of_here | done].
    + rewrite Forall_forall in Hout. auto.
  - intros y k v Hy. apply Hf. by apply list_elem_of_further.
Qed.

Lemma tags_valid_sanitize value :
  tags_valid (sanitizeListItemColorTags value).
Proof.
  rewrite sanitize_tags_as_collect. destruct (is_object value).
  - split; [apply collect_wf, NoDup_nil_2|].
    split; [apply collect_ordered; constructor|].
    apply collect_Forall; [constructor|].
    intros [rawKey rawVal] k v _ Hw. unfold tag_writer in Hw.
    apply sanitizeTag_Some in Hw as (-> & Hvalid & rawColor & _ & -> & Hne).
    cbn [fst snd]. split; [apply trim_trim|]. split; [done|].
    destruct (normalizeColor_cases rawColor) as [[_ H]|[_ H]]; done.
  - split; [apply NoDup_nil_2|]. split; constructor.
Qed.

Lemma sanitize_tags_valid_fixed t :
  tags_valid t -> sanitizeListItemColorTags (tags_to_value t) = t.
Proof.
  intros (Hwf & Hord & Hall).
  unfold sanitizeListItemColorTags, tags_to_value. cbn.
  rewrite fold_left_fmap.
  rewrite (fold_left_ext_in _ (fun out kv => obj_set kv.1 kv.2 out)).
  - by apply (obj_rebuild [] t).
  - intros out [k c] Hin. unfold sanitizeTag_step. cbn [fst snd].
    rewrite Forall_forall in Hall.
    destruct (Hall _ Hin) as (Hk & Hvalid & Hc). cbn [fst snd] in *.
    assert (sanitizeTag k (JStr c) = Some (k, c)) as ->; [|done].
    apply sanitizeTag_Some. rewrite Hk. split; [done|]. split; [done|].
    exists c. rewrite (normalizeColor_canonical_fixed c Hc).
    split; [done|]. split; [done|]. by intros ->.
Qed.

(** X13. The colour tags that are kept.  What
    [sanitizeListItemColorTags] returns holds only trimmed keys of the
    forms [day:YYYY-MM-DD] and [file:...] with canonical colours
    ([#rrggbb] in lower case); tags of this kind, written out as a plain
    map and sanitized again, come back unchanged, so that sanitizing twice
    is sanitizing once. *)
Theorem sanitize_tags_normal_form :
  (forall value, tags_valid (sanitizeListItemColorTags value))
  /\ (forall t,
        tags_valid t -> sanitizeListItemColorTags (tags_to_value t) = t)
  /\ (forall value,
        sanitizeListItemColorTags
          (tags_to_value (sanitizeListItemColorTags value))
        = sanitizeListItemColorTags value).
Proof.
  split; [apply tags_valid_sanitize|].
  split; [apply sanitize_tags_valid_fixed|].
  intros value. apply sanitize_tags_valid_fixed, tags_valid_sanitize.
Qed.

Lemma sanitize_tags_normal_form_witness :
  sanitizeListItemColorTags
    (tags_to_value [ (js "day:2025-12-15", js "#ff0000");
                     (js "file:foo/bar.md", js "#00ff00") ])
  = [ (js "day:2025-12-15", js "#ff0000");
      (js "file:foo/bar.md", js "#00ff00") ].
Proof.
  pose proof sanitize_tags_normal_form as (_ & H & _).
  apply H. split; [|split].
  - unfold obj_wf. apply (bool_decide_unpack _). vm_compute. exact I.
  - unfold js_ordered. simpl.
    repeat (apply StronglySorted_cons; split);
      repeat (apply Forall_cons; split); try apply Forall_nil;
      try apply SSorted_nil; reflexivity.
  - repeat (apply Forall_cons; split); try done.
Defined.

(* ===================================================================== *)
(** * Custom titles *)
(* ===================================================================== *)

Lemma collapsed_nil : collapsed [].
Proof. by repeat split. Qed.

Lemma trim_collapsed s : single_spaced s -> collapsed (trim s).
Proof.
  intros H. split; [by apply single_spaced_trim|].
  split; [apply trim_starts_outside | apply trim_ends_outside].
Qed.

Lemma slice_to_prefix {A} (n : JsNumber) (s : list A) :
  slice_to n s `prefix_of` s.
Proof.
  destruct n as [| | |z]; simpl; try done; try apply prefix_nil.
  destruct (z <? 0); apply prefix_take.
Qed.

Lemma effective_maxLen_pos maxLen z :
  effective_maxLen maxLen = Finite z -> 0 < z.
Proof.
  unfold effective_maxLen. destruct maxLen as [[| | |z']|]; simpl.
  - intros [= <-]. lia.
  - done.
  - intros [= <-]. lia.
  - destruct (0 <? z') eqn:E; intros [= <-]; [by apply Z.ltb_lt in E | lia].
  - intros [= <-]. lia.
Qed.

(** The last step of [normalizeCustomListTitleInput]: the cut. *)
Lemma cut_shape (s : jstring) (max : JsNumber) :
  let r := if length_gt_num (length s) max then trim (slice_to max s) else s in
  (collapsed s -> collapsed r)
  /\ (forall z, max = Finite z -> 0 < z -> Z.of_nat (length r) <= z).
Proof.
  intros r. subst r. split.
  - intros Hs. destruct (length_gt_num _ _); [|done].
    apply trim_collapsed. eapply single_spaced_prefix; [apply slice_to_prefix|].
    by destruct Hs.
  - intros z -> Hz. cbn [length_gt_num slice_to].
    destruct (z <? Z.of_nat (length s)) eqn:E.
    + replace (z <? 0) with false by (symmetry; apply Z.ltb_ge; lia).
      pose proof (trim_length (take (Z.to_nat z) s)).
      rewrite length_take in H. lia.
    + apply Z.ltb_ge in E. lia.
Qed.

(** The string that [normalizeCustomListTitleInput] cuts. *)
Lemma stripped_collapsed (dateStr input : jstring) :
  let s := collapseWhitespace input in
  collapsed (if negb (is_empty dateStr) && starts_with dateStr s
             then trim (drop_while is_separator (drop (length dateStr) s))
             else s).
Proof.
  intros s. destruct (negb (is_empty dateStr) && starts_with dateStr s).
  - apply trim_collapsed.
    eapply single_spaced_suffix; [apply drop_while_suffix|].
    apply single_spaced_drop, collapseWhitespace_single_spaced.
  - apply collapseWhitespace_collapsed.
Qed.

Lemma normalizeTitle_collapsed dateStr input maxLen :
  collapsed (normalizeCustomListTitleInput dateStr input maxLen).
Proof.
  unfold normalizeCustomListTitleInput.
  destruct (is_empty (collapseWhitespace input)); [apply collapsed_nil|].
  pose proof (stripped_collapsed dateStr input) as Hs. cbv zeta in Hs.
  set (s := if negb (is_empty dateStr) && _ then _ else _) in *.
  destruct (is_empty s); [apply collapsed_nil|].
  by apply (cut_shape s (effective_maxLen maxLen)).
Qed.

Lemma normalizeTitle_length dateStr input maxLen z :
  effective_maxLen maxLen = Finite z ->
  Z.of_nat (length (normalizeCustomListTitleInput dateStr input maxLen)) <= z.
Proof.
  intros Hz. apply effective_maxLen_pos in Hz as Hpos.
  unfold normalizeCustomListTitleInput.
  destruct (is_empty (collapseWhitespace input)); [simpl; lia|].
  set (s := if negb (is_empty dateStr) && _ then _ else _) in *.
  destruct (is_empty s); [simpl; lia|].
  by apply (cut_shape s (effective_maxLen maxLen)).
Qed.

(** X14. The titles that [normalizeCustomListTitleInput] returns.  For
    every date, input and limit, the result is in collapsed form (white
    space only as single space characters, none at either end), and it is
    not longer than the limit in force: [maxLen] when that is a positive
    number, 240 otherwise. *)
Theorem normalize_custom_title_shape (dateStr input : jstring)
    (maxLen : option JsNumber) :
  let r := normalizeCustomListTitleInput dateStr input maxLen in
  collapsed r
  /\ (forall z, effective_maxLen maxLen = Finite z ->
                Z.of_nat (length r) <= z)
  /\ (maxLen = None \/ maxLen = Some NaN
      \/ (exists z, maxLen = Some (Finite z) /\ z <= 0) ->
      (length r <= 240)%nat).
Proof.
  intros r. split; [apply normalizeTitle_collapsed|].
  split; [apply normalizeTitle_length|].
  intros H.
  pose proof (normalizeTitle_length dateStr input maxLen 240) as Hlen.
  fold r in Hlen. cut (Z.of_nat (length r) <= 240); [lia|]. apply Hlen.
  destruct H as [->|[->|(z & -> & Hz)]]; try done.
  simpl. by replace (0 <? z) with false by (symmetry; apply Z.ltb_ge; lia).
Qed.

Lemma normalize_custom_title_shape_witness :
  Z.of_nat (length (normalizeCustomListTitleInput (js "2025-01-01")
                      (js "2025-01-01 - a long title") (Some (Finite 6))))
  <= 6.
Proof.
  pose proof (normalize_custom_title_shape (js "2025-01-01")
                (js "2025-01-01 - a long title") (Some (Finite 6)))
    as (_ & H & _).
  apply H. reflexivity.
Defined.

Lemma starts_with_app (prefix s : jstring) :
  starts_with prefix (prefix ++ s) = true.
Proof.
  unfold starts_with. rewrite take_app_length. apply jstring_eqb_refl.
Qed.

Lemma normalizeTitle_fixed dateStr s maxLen :
  collapsed s -> s <> [] ->
  negb (is_empty dateStr) && starts_with dateStr s = false ->
  length_gt_num (length s) (effective_maxLen maxLen) = false ->
  normalizeCustomListTitleInput dateStr s maxLen = s.
Proof.
  intros Hs Hne Hstart Hlen. unfold normalizeCustomListTitleInput.
  rewrite (collapsed_fixed s Hs), Hstart.
  apply is_empty_false in Hne. by rewrite Hne, Hlen.
Qed.

Lemma separator_not_letter_or_number c :
  is_separator c = true -> not_letter_or_number c = true.
Proof. destruct c as [[] [] [] [] [] [] [] []]; by vm_compute. Qed.

Lemma starts_with_letter_or_number s :
  starts_outside not_letter_or_number s -> starts_outside is_separator s.
Proof.
  destruct s as [|c s]; [done|]. simpl. intros H.
  destruct (is_separator c) eqn:E; [|done].
  apply separator_not_letter_or_number in E. congruence.
Qed.

(** X15. A label that is pasted back.  The label that
    [formatCustomListTitleLabel] makes of a date and a title is read back
    by [normalizeCustomListTitleInput] as the collapsed title, when the
    date is not empty and in collapsed form (a date key is), and the
    collapsed title is empty or starts with a letter or a digit (so with
    none of the separators that are stripped after the date) and is not
    longer than the limit in force. *)
Theorem custom_title_label_round_trip (dateStr suffix : jstring)
    (maxLen : option JsNumber) :
  collapsed dateStr -> dateStr <> [] ->
  starts_outside not_letter_or_number (collapseWhitespace suffix) ->
  length_gt_num (length (collapseWhitespace suffix)) (effective_maxLen maxLen)
  = false ->
  normalizeCustomListTitleInput dateStr
    (formatCustomListTitleLabel dateStr suffix) maxLen
  = collapseWhitespace suffix.
Proof.
  intros Hd Hdne Hsep%starts_with_letter_or_number Hlen.
  unfold formatCustomListTitleLabel.
  set (c := collapseWhitespace suffix) in *.
  pose proof (collapseWhitespace_collapsed suffix) as Hc. fold c in Hc.
  apply is_empty_false in Hdne as Hdne'.
  unfold normalizeCustomListTitleInput.
  destruct (is_empty c) eqn:Ec.
  - apply is_empty_true in Ec. rewrite Ec.
    rewrite (collapsed_fixed dateStr Hd), Hdne'. cbn [negb andb].
    unfold starts_with. rewrite firstn_all, jstring_eqb_refl.
    by rewrite drop_all.
  - apply is_empty_false in Ec.
    destruct (collapsed_glue dateStr (js " - ") c Hd Hdne Hc Ec
                single_spaced_dash) as [Hl Hlne].
    rewrite (collapsed_fixed _ Hl). apply is_empty_false in Hlne as ->.
    rewrite Hdne', starts_with_app. cbn [negb andb].
    rewrite drop_app_length.
    assert (drop_while is_separator (js " - " ++ c) = c) as ->.
    { change (drop_while is_separator c = c). by apply drop_while_outside. }
    rewrite (collapsed_trim c Hc).
    apply is_empty_false in Ec as ->. by rewrite Hlen.
Qed.

Lemma custom_title_label_round_trip_witness :
  normalizeCustomListTitleInput (js "2025-01-01")
    (formatCustomListTitleLabel (js "2025-01-01") (js "  My   title "))
    None
  = js "My title".
Proof.
  apply (custom_title_label_round_trip (js "2025-01-01") (js "  My   title ")
           None).
  - apply date_key_collapsed. reflexivity.
  - discriminate.
  - reflexivity.
  - reflexivity.
Defined.

(* ===================================================================== *)
(** * The custom titles that are kept *)
(* ===================================================================== *)

Lemma sanitizeCustomTitle_Some rawKey rawVal key suffix :
  sanitizeCustomTitle rawKey rawVal = Some (key, suffix) ->
  key = trim rawKey /\ DATE_KEY_RE key = true
  /\ exists raw,
       rawVal = JStr raw
       /\ suffix = normalizeCustomListTitleInput key raw None
       /\ suffix <> [].
Proof.
  unfold sanitizeCustomTitle.
  destruct (is_empty (trim rawKey)); [done|].
  destruct (DATE_KEY_RE (trim rawKey)) eqn:Hvalid; cbn [negb orb]; [|done].
  destruct rawVal as [| | | |raw| |]; try done.
  destruct (is_empty (normalizeCustomListTitleInput _ raw None)) eqn:Hs;
    [done|].
  intros [= <- <-]. apply is_empty_false in Hs. eauto 10.
Qed.

Lemma sanitize_titles_as_collect value :
  sanitizeCustomListTitles value
  = if is_object value
    then fold_left (collect_step title_writer) (js_entries value) []
    else [].
Proof.
  unfold sanitizeCustomListTitles. destruct (is_object value); [|done].
  cbn [negb]. apply fold_left_ext_in. intros out kv _.
  unfold sanitizeCustomTitle_step, collect_step, title_writer.
  by destruct (sanitizeCustomTitle kv.1 kv.2).
Qed.

Lemma titles_valid_sanitize value :
  titles_valid (sanitizeCustomListTitles value).
Proof.
  rewrite sanitize_titles_as_collect. destruct (is_object value).
  - split; [apply collect_wf, NoDup_nil_2|].
    split; [apply collect_ordered; constructor|].
    apply collect_Forall; [constructor|].
    intros [rawKey rawVal] k v _ Hw. unfold title_writer in Hw.
    apply sanitizeCustomTitle_Some in Hw as (_ & Hvalid & raw & _ & -> & Hne).
    cbn [fst snd]. split; [done|]. split; [done|].
    split; [apply normalizeTitle_collapsed|].
    pose proof (normalizeTitle_length k raw None 240 eq_refl). lia.
  - split; [apply NoDup_nil_2|]. split; constructor.
Qed.

Lemma sanitize_titles_valid_fixed t :
  titles_valid t ->
  Forall (fun kv : jstring * jstring => starts_with kv.1 kv.2 = false) t ->
  sanitizeCustomListTitles (titles_to_value t) = t.
Proof.
  intros (Hwf & Hord & Hall) Hstart.
  unfold sanitizeCustomListTitles, titles_to_value. cbn.
  rewrite fold_left_fmap.
  rewrite (fold_left_ext_in _ (fun out kv => obj_set kv.1 kv.2 out)).
  - by apply (obj_rebuild [] t).
  - intros out [k v] Hin. unfold sanitizeCustomTitle_step. cbn [fst snd].
    rewrite Forall_forall in Hall, Hstart.
    destruct (Hall _ Hin) as (Hk & Hne & Hv & Hlen).
    pose proof (Hstart _ Hin) as Hs. cbn [fst snd] in *.
    assert (sanitizeCustomTitle k (JStr v) = Some (k, v)) as ->; [|done].
    unfold sanitizeCustomTitle.
    destruct (date_key_collapsed k Hk) as [Hkc Hkne].
    rewrite (collapsed_trim k Hkc), Hk.
    apply is_empty_false in Hkne as ->. cbn [negb orb].
    rewrite normalizeTitle_fixed; try done.
    + apply is_empty_false in Hne. by rewrite Hne.
    + by rewrite Hs, andb_false_r.
    + simpl. apply Z.ltb_ge. lia.
Qed.

(** X16. The custom titles that are kept.  What
    [sanitizeCustomListTitles] returns holds only date keys
    ([YYYY-MM-DD]) with titles that are not empty, in collapsed form and at
    most 240 characters long.  Titles of this kind, written out as a plain
    map and sanitized again, come back unchanged when no title starts with
    its own date; a title that does loses the date on the way, so that on a
    persisted title that repeats its date sanitizing twice is not
    sanitizing once. *)
Theorem sanitize_custom_titles_normal_form :
  (forall value, titles_valid (sanitizeCustomListTitles value))
  /\ (forall t,
        titles_valid t ->
        Forall (fun kv : jstring * jstring => starts_with kv.1 kv.2 = false) t ->
        sanitizeCustomListTitles (titles_to_value t) = t)
  /\ sanitizeCustomListTitles
       (titles_to_value (sanitizeCustomListTitles repeated_date_title))
     <> sanitizeCustomListTitles repeated_date_title.
Proof.
  split; [apply titles_valid_sanitize|].
  split; [apply sanitize_titles_valid_fixed|].
  vm_compute. discriminate.
Qed.

Lemma sanitize_custom_titles_normal_form_witness :
  sanitizeCustomListTitles
    (titles_to_value [ (js "2025-01-01", js "Hello world") ])
  = [ (js "2025-01-01", js "Hello world") ].
Proof.
  pose proof sanitize_custom_titles_normal_form as (_ & H & _).
  apply H.
  - split; [|split].
    + unfold obj_wf. apply (bool_decide_unpack _). vm_compute. exact I.
    + unfold js_ordered. simpl.
      repeat (apply StronglySorted_cons; split);
        repeat (apply Forall_cons; split); try apply Forall_nil;
        try apply SSorted_nil; reflexivity.
    + apply Forall_cons. split; [|apply Forall_nil_2].
      cbn [fst snd]. split; [reflexivity|]. split; [discriminate|].
      split; [|simpl; lia].
      assert (collapseWhitespace (js "Hello world") = js "Hello world") as E
        by reflexivity.
      rewrite <- E. apply collapseWhitespace_collapsed.
  - repeat (apply Forall_cons; split); try done.
Defined.
(* ===================================================================== *)
(** * Descriptions in normal form *)
(* ===================================================================== *)

Lemma sanitizeDescription_fixed d :
  description_shape d -> sanitizeDescription d = d.
Proof.
  intros (Hlen & Htrim & Hss & Hrun). unfold sanitizeDescription, replace_runs.
  rewrite (replace_runs_none is_crlf_tab d false)
    by (by apply single_spaced_no_crlf_tab).
  rewrite Htrim, (proj1 (replace_runs_space_fixed d Hss)).
  replace (MAX <? length d)%nat with false
    by (symmetry; apply Nat.ltb_ge; unfold MAX; lia).
  unfold collapse_terminal_punct. unfold trailing_run in Hrun.
  replace (2 <=? length (take_while is_terminal_punct (rev d)))%nat
    with false; [done|].
  symmetry. apply Nat.leb_gt. lia.
Qed.

(** X20. The descriptions in normal form.  [sanitizeDescription] leaves a
    string alone exactly when the string meets the contract of a
    description (one trimmed line with collapsed white space, at most 120
    characters, at most one terminal punctuation mark at its end); its
    result always does, so sanitizing a description twice is sanitizing it
    once. *)
Theorem sanitizeDescription_normal_form (d : jstring) :
  (description_shape d <-> sanitizeDescription d = d)
  /\ description_shape (sanitizeDescription d)
  /\ sanitizeDescription (sanitizeDescription d) = sanitizeDescription d.
Proof.
  split; [|split].
  - split; [apply sanitizeDescription_fixed|].
    intros <-. apply sanitizeDescription_shape.
  - apply sanitizeDescription_shape.
  - apply sanitizeDescription_fixed, sanitizeDescription_shape.
Qed.

Lemma sanitizeDescription_normal_form_witness :
  sanitizeDescription (js "Did a lot. Newline!") = js "Did a lot. Newline!".
Proof.
  pose proof (sanitizeDescription_normal_form (js "Did a lot. Newline!"))
    as [[H _] _].
  apply H.
  assert (sanitizeDescription (js "Did a lot.   Newline!")
          = js "Did a lot. Newline!") as <- by reflexivity.
  apply sanitizeDescription_shape.
Defined.
(* ===================================================================== *)
(** * The tests of the repository for these functions *)
(* ===================================================================== *)

(** [title.test.ts]. *)

Example test_prepare_note :
  prepareNoteTextForOllama test_note_to_prepare (Finite 999)
  = js "Hello world !"
  /\ prepareNoteTextForOllama test_note_to_prepare (Finite 5) = js "Hello".
Proof. split; reflexivity. Qed.

Example test_format_label :
  formatDailyTitleLabel (js "2025-12-15")
    (mkDailyTitleParts [js "work"; js "deep"; js "planning"]
                       (js "Focused on the roadmap."))
  = js "2025-12-15 - work deep planning - Focused on the roadmap.".
Proof. reflexivity. Qed.

(** [customListTitles.test.ts]. *)

Example test_normalize_custom_title :
  normalizeCustomListTitleInput (js "2025-12-15")
    (js ("  hello" ++ line_feed ++ String (ascii_of_N 9) "world  ")) None
  = js "hello world"
  /\ normalizeCustomListTitleInput (js "2025-12-15")
       (js "2025-12-15 - reflection ideas daily") None
     = js "reflection ideas daily"
  /\ normalizeCustomListTitleInput (js "2025-12-15")
       (js "2025-12-15: reflection ideas daily") None
     = js "reflection ideas daily"
  /\ normalizeCustomListTitleInput (js "2025-12-15") [] None = []
  /\ normalizeCustomListTitleInput (js "2025-12-15") (js "2025-12-15") None
     = []
  /\ normalizeCustomListTitleInput (js "2025-12-15") (js "2025-12-15 - ") None
     = [].
Proof. repeat split; reflexivity. Qed.

Example test_format_custom_title :
  formatCustomListTitleLabel (js "2025-12-15") (js "reflection ideas")
  = js "2025-12-15 - reflection ideas"
  /\ formatCustomListTitleLabel (js "2025-12-15") (js " ") = js "2025-12-15".
Proof. split; reflexivity. Qed.

Example test_sanitize_custom_titles :
  sanitizeCustomListTitles
    (JObj [ (js "2025-12-15", JStr (js "reflection ideas"));
            (js "not-a-date", JStr (js "x"));
            (js "2025-12-16", JStr (js "   "));
            (js "2025-12-17", JNum (Finite 123)) ])
  = [ (js "2025-12-15", js "reflection ideas") ]
  /\ sanitizeCustomListTitles
       (JObj [ (js "2025-12-15", JStr (js "2025-12-15 - reflection ideas")) ])
     = [ (js "2025-12-15", js "reflection ideas") ].
Proof. split; reflexivity. Qed.
